(** * Presentation-layer utilities of the horary chart frontend

    A shallow embedding of four JavaScript functions and of the parts of
    the JavaScript runtime they rely on:

    - [parseReasoningEntry] and [cleanMoonText]
      (src/backend/frontend/src/utils/cleanMoonText.js),
    - [buildChartPayload] and [getLocationData], the location resolver
      nested in it (src/unnamed/part_000).

    Modelling conventions.

    - A JavaScript string is the list of its UTF-16 code units ([list N]).
    - A JavaScript value is a JSON-like tree ([Value]); objects are finite
      maps from property names to values.  Functions and symbols are not
      part of the model: chart records reach the frontend as parsed JSON.
    - A number is a rational, an infinity or NaN.  [parseFloat] rounds the
      decimal value that is written to the nearest binary64 ([binary64]),
      with its overflow to an infinity and its underflow to zero.  The two
      zeros are identified (both are falsy, and neither function can tell
      them apart).
    - An exception is a result [Throw]; every function that can raise
      lives in the error monad [Res]. *)

From Stdlib Require Import ZArith QArith List String Ascii Lia Bool.
From stdpp Require Import gmap strings list.
Import ListNotations.

#[local] Set Warnings "-register-all".
#[local] Open Scope N_scope.

(** ** Strings as sequences of UTF-16 code units *)

Abbreviation jsstring := (list N).

(** The code units of an ASCII literal of the source text. *)
Definition js (s : string) : jsstring :=
  map N_of_ascii (list_ascii_of_string s).

(** Code units that appear literally in the sources. *)
Definition c_lparen : N := 40.
Definition c_rparen : N := 41.
Definition c_plus : N := 43.
Definition c_comma : N := 44.
Definition c_minus : N := 45.
Definition c_dot : N := 46.
Definition c_slash : N := 47.
Definition c_percent : N := 37.
Definition c_colon : N := 58.
Definition c_space : N := 32.
Definition c_underscore : N := 95.
(** U+263D FIRST QUARTER MOON, the glyph in [cleanMoonText]'s patterns. *)
Definition c_moon : N := 9789.

(** [\d] (without the unicode flag): the ten ASCII digits. *)
Definition is_digit (c : N) : bool := (48 <=? c) && (c <=? 57).

(** [[-+]] *)
Definition is_sign (c : N) : bool := (c =? c_minus) || (c =? c_plus).

(** [\s], which is also the set removed by [String.prototype.trim]:
    WhiteSpace and LineTerminator of ECMA-262. *)
Definition is_space (c : N) : bool :=
  ((9 <=? c) && (c <=? 13)) || (c =? 32) || (c =? 160) || (c =? 5760)
  || ((8192 <=? c) && (c <=? 8202)) || (c =? 8232) || (c =? 8233)
  || (c =? 8239) || (c =? 8287) || (c =? 12288) || (c =? 65279).

(** [[^)]] *)
Definition not_rparen (c : N) : bool := negb (c =? c_rparen).

(** Canonicalize of ECMA-262 for a pattern with the [i] flag and without
    the [u] flag.  On the characters of the patterns of this repository
    (ASCII letters, ASCII punctuation and U+263D) two code units have the
    same canonical form exactly when they are equal up to ASCII case. *)
Definition canonicalize (c : N) : N :=
  if (97 <=? c) && (c <=? 122) then c - 32 else c.

Fixpoint skip_while (p : N -> bool) (s : jsstring) : jsstring :=
  match s with
  | c :: s' => if p c then skip_while p s' else s
  | [] => []
  end.

Fixpoint take_while (p : N -> bool) (s : jsstring) : jsstring :=
  match s with
  | c :: s' => if p c then c :: take_while p s' else []
  | [] => []
  end.

Definition trimStart (s : jsstring) : jsstring := skip_while is_space s.
Definition trimEnd (s : jsstring) : jsstring := rev (skip_while is_space (rev s)).

(** [s.trim()] *)
Definition trim (s : jsstring) : jsstring := trimEnd (trimStart s).

(** [s.slice(0, n)] for [0 <= n]. *)
Definition slice0 (s : jsstring) (n : nat) : jsstring := take n s.

(** [s.split(sep)] for a separator of one code unit. *)
Fixpoint split (sep : N) (s : jsstring) : list jsstring :=
  match s with
  | [] => [[]]
  | c :: s' =>
      if c =? sep then [] :: split sep s'
      else match split sep s' with
           | seg :: rest => (c :: seg) :: rest
           | [] => [[c]]
           end
  end.

(** [s.includes(c)] for a needle of one code unit. *)
Definition includes (c : N) (s : jsstring) : bool := existsb (N.eqb c) s.

(** ** Numbers *)

Inductive JsNum :=
| NaN
| Inf (negative : bool)
| Fin (q : Q).

Definition num_truthy (n : JsNum) : bool :=
  match n with
  | NaN => false
  | Inf _ => true
  | Fin q => negb (Qeq_bool q 0)
  end.

(** ** Values *)

Inductive Value :=
| VUndefined
| VNull
| VBool (b : bool)
| VNumber (n : JsNum)
| VString (s : jsstring)
| VObject (o : gmap string Value)
| VArray (a : list Value).

Definition zero : Value := VNumber (Fin 0).
Definition str (s : string) : Value := VString (js s).

(** ToBoolean *)
Definition truthy (v : Value) : bool :=
  match v with
  | VUndefined | VNull => false
  | VBool b => b
  | VNumber n => num_truthy n
  | VString s => match s with [] => false | _ => true end
  | VObject _ | VArray _ => true
  end.

Definition nullish (v : Value) : bool :=
  match v with VUndefined | VNull => true | _ => false end.

(** The [typeof] operator. *)
Definition typeof (v : Value) : string :=
  match v with
  | VUndefined => "undefined"
  | VNull | VObject _ | VArray _ => "object"
  | VBool _ => "boolean"
  | VNumber _ => "number"
  | VString _ => "string"
  end.

(** [v !== 'lit'] for a string literal: strict inequality holds unless [v]
    is that very string. *)
Definition strict_ne_str (v : Value) (lit : jsstring) : bool :=
  match v with
  | VString s => negb (bool_decide (s = lit))
  | _ => true
  end.

(** Reading the property [k] of a value that is not nullish.  The property
    names read by the sources (chart_data, location, city, name, ...) are
    own properties of an object or absent: none of them is defined on the
    prototypes of strings, numbers, booleans, arrays or plain objects. *)
Definition field (v : Value) (k : string) : Value :=
  match v with
  | VObject o => default VUndefined (o !! k)
  | _ => VUndefined
  end.

(** ** Exceptions *)

Inductive JsError := TypeError.

Inductive Res (A : Type) :=
| Ok (a : A)
| Throw (e : JsError).
Arguments Ok {A} a.
Arguments Throw {A} e.

#[global] Instance Res_ret : MRet Res := fun A a => Ok a.
#[global] Instance Res_bind : MBind Res := fun A B f m =>
  match m with
  | Ok a => f a
  | Throw e => Throw e
  end.

(** [e.k]: raises on [null] and [undefined]. *)
Definition dot (e : Res Value) (k : string) : Res Value :=
  v ← e; if nullish v then Throw TypeError else mret (field v k).

(** [e?.k]: [undefined] on [null] and [undefined].  In the sources an
    optional link is only ever followed by optional links, so that
    short-circuiting the rest of the chain and reading from [undefined]
    coincide. *)
Definition qdot (e : Res Value) (k : string) : Res Value :=
  v ← e; mret (field v k).

(** [a && b] and [a || b], which evaluate [b] only when needed. *)
Definition andJ (a b : Res Value) : Res Value :=
  v ← a; if truthy v then b else mret v.
Definition orJ (a b : Res Value) : Res Value :=
  v ← a; if truthy v then mret v else b.

(** [e !== 'lit'] *)
Definition neJ (e : Res Value) (lit : string) : Res Value :=
  v ← e; mret (VBool (strict_ne_str v (js lit))).

(** [typeof e === 'name'] *)
Definition typeofJ (e : Res Value) (name : string) : Res Value :=
  v ← e; mret (VBool (bool_decide (typeof v = name))).

Declare Scope res_scope.
Notation "e @. k" := (dot e k) (at level 18, left associativity).
Notation "e @? k" := (qdot e k) (at level 18, left associativity).
Notation "a && b" := (andJ a b) : res_scope.
Notation "a || b" := (orJ a b) : res_scope.
Notation "a !== s" := (neJ a s) (at level 30, no associativity) : res_scope.
Delimit Scope res_scope with res.
Bind Scope res_scope with Res.

(** [v.split(sep)]: only strings have a [split] method. *)
Definition splitJ (v : Value) (sep : N) : Res (list jsstring) :=
  match v with
  | VString s => Ok (split sep s)
  | _ => Throw TypeError
  end.

(** [v.includes('c')]: a method of strings (substring test) and of arrays
    (membership by SameValueZero, here against a string of one code unit);
    calling it on anything else raises. *)
Definition includesJ (v : Value) (c : N) : Res bool :=
  match v with
  | VString s => Ok (includes c s)
  | VArray a => Ok (existsb (fun x => negb (strict_ne_str x [c])) a)
  | _ => Throw TypeError
  end.

(** [parts[i]] on an array of strings. *)
Definition item (parts : list jsstring) (i : nat) : Value :=
  match nth_error parts i with
  | Some s => VString s
  | None => VUndefined
  end.

(** ** Regular expressions

    The fragment of the pattern language used by the sources: literal
    characters, character classes, concatenation, greedy [?] over a group,
    greedy [*] and [+] over a character class, one capturing group and the
    end anchor [$] (no [m] flag: end of input). *)

Inductive regex :=
| Eps
| Chr (c : N)
| Cls (p : N -> bool)
| Cat (r1 r2 : regex)
| Opt (r : regex)
| Star (p : N -> bool)
| Plus (p : N -> bool)
| Group (r : regex)
| Eos.

Infix "⋅" := Cat (at level 60, right associativity).

(** A run of literal characters. *)
Fixpoint lit_chars (cs : jsstring) : regex :=
  match cs with
  | [] => Eps
  | [c] => Chr c
  | c :: cs' => Chr c ⋅ lit_chars cs'
  end.
Definition lit (s : string) : regex := lit_chars (js s).

Record RegExp := {
  pattern : regex;
  ignoreCase : bool
}.

(** The backtracking matcher of ECMA-262, in continuation-passing style:
    [rmatch r s cap k] matches [r] at the front of [s] and hands the rest
    of the input and the capture of group 1 to [k]; when [k] fails, the
    next alternative in priority order is tried (greedy repetitions give
    back one character at a time). *)
Section Matcher.
Context {R : Type}.
Variable ic : bool.

Definition same_char (x c : N) : bool :=
  if ic then canonicalize x =? canonicalize c else x =? c.

Fixpoint star (p : N -> bool) (s : jsstring) (k : jsstring -> option R)
  : option R :=
  match s with
  | c :: s' =>
      if p c then
        match star p s' k with
        | Some r => Some r
        | None => k s
        end
      else k s
  | [] => k []
  end.

Fixpoint rmatch (r : regex) (s : jsstring) (cap : option jsstring)
    (k : jsstring -> option jsstring -> option R) : option R :=
  match r with
  | Eps => k s cap
  | Chr c =>
      match s with
      | x :: s' => if same_char x c then k s' cap else None
      | [] => None
      end
  | Cls p =>
      match s with
      | x :: s' => if p x then k s' cap else None
      | [] => None
      end
  | Cat r1 r2 => rmatch r1 s cap (fun s1 cap1 => rmatch r2 s1 cap1 k)
  | Opt r1 =>
      match rmatch r1 s cap k with
      | Some x => Some x
      | None => k s cap
      end
  | Star p => star p s (fun s' => k s' cap)
  | Plus p =>
      match s with
      | x :: s' => if p x then star p s' (fun s'' => k s'' cap) else None
      | [] => None
      end
  | Group r1 =>
      rmatch r1 s cap
        (fun s' _ => k s' (Some (take (length s - length s') s)))
  | Eos =>
      match s with
      | [] => k [] cap
      | _ :: _ => None
      end
  end.
End Matcher.

(** The result of [RegExp.prototype.exec]: where the match starts, how
    long it is and what group 1 captured. *)
Record MatchResult := {
  index : nat;
  matched : nat;
  group1 : option jsstring
}.

(** One attempt at the current position. *)
Definition match_here (re : RegExp) (s : jsstring)
  : option (jsstring * option jsstring) :=
  rmatch (ignoreCase re) (pattern re) s None (fun s' cap => Some (s', cap)).

(** The search of [exec]: the start positions [i], [i+1], ... up to and
    including the end of the input are tried in turn. *)
Fixpoint exec_from (re : RegExp) (i : nat) (s : jsstring)
  : option MatchResult :=
  match match_here re s with
  | Some (s', cap) =>
      Some {| index := i; matched := length s - length s'; group1 := cap |}
  | None =>
      match s with
      | [] => None
      | _ :: s' => exec_from re (S i) s'
      end
  end.

(** [text.match(re)] for a pattern without the [g] flag. *)
Definition str_match (text : jsstring) (re : RegExp) : option MatchResult :=
  exec_from re 0%nat text.

(** [text.replace(re, repl)] for a pattern with the [g] flag and a
    replacement without [$] references: the matches are found from left to
    right, each search resuming where the previous match ended (one
    character further after an empty match).  [skip] counts the characters
    of the current match that are still to be dropped. *)
Fixpoint replace_from (re : RegExp) (repl : jsstring) (skip : nat)
    (s : jsstring) : jsstring :=
  match skip with
  | S n =>
      match s with
      | [] => []
      | _ :: s' => replace_from re repl n s'
      end
  | O =>
      match match_here re s with
      | Some (rest, _) =>
          repl ++
          match s with
          | [] => []
          | c :: s' =>
              match (length s - length rest)%nat with
              | O => c :: replace_from re repl 0%nat s'
              | S n => replace_from re repl n s'
              end
          end
      | None =>
          match s with
          | [] => []
          | c :: s' => c :: replace_from re repl 0%nat s'
          end
      end
  end.

Definition replaceAll (text : jsstring) (re : RegExp) (repl : jsstring)
  : jsstring :=
  replace_from re repl 0%nat text.

(** ** parseFloat *)

Definition digit_value (c : N) : Z := Z.of_N c - 48.

(** The integer written by a run of decimal digits. *)
Definition decimal (ds : jsstring) : Z :=
  fold_left (fun acc d => (10 * acc + digit_value d)%Z) ds 0%Z.

(** [m * 10^e] as a reduced fraction. *)
Definition scale10 (m e : Z) : Q :=
  Qred (if (0 <=? e)%Z then (m * 10 ^ e)%Z # 1
        else m # Z.to_pos (10 ^ (- e))).

Fixpoint starts_with (p s : jsstring) : bool :=
  match p, s with
  | [], _ => true
  | a :: p', b :: s' => (a =? b) && starts_with p' s'
  | _ :: _, [] => false
  end.

(** An optional sign: whether it is a minus, and the rest. *)
Definition strip_sign (s : jsstring) : bool * jsstring :=
  match s with
  | x :: t => if x =? c_minus then (true, t)
              else if x =? c_plus then (false, t) else (false, s)
  | [] => (false, s)
  end.

(** ExponentPart: [e] or [E], an optional sign and at least one digit;
    absent (value 0) otherwise. *)
Definition exponent_part (s : jsstring) : Z :=
  match s with
  | c :: s1 =>
      if (c =? 101) || (c =? 69) then
        let '(neg, s2) := strip_sign s1 in
        match take_while is_digit s2 with
        | [] => 0%Z
        | ds => if neg then (- decimal ds)%Z else decimal ds
        end
      else 0%Z
  | [] => 0%Z
  end.

(** The fraction digits after the integer part, and what follows them. *)
Definition fraction_part (s : jsstring) : jsstring * jsstring :=
  match s with
  | x :: t => if x =? c_dot
              then (take_while is_digit t, skip_while is_digit t)
              else ([], s)
  | [] => ([], s)
  end.

(** *** The Number value of a real

    The binary64 nearest to a real: 53 significant bits, exponents down to
    that of the subnormal numbers ([2^-1074] is the smallest positive
    one), the even significand on a tie, and an infinity for what rounds
    to [2^1024] or more.  This is the rounding of every current engine
    (the standard leaves some freedom beyond twenty significant
    digits). *)

(** The integer nearest to [n / d], the even one on a tie
    ([0 <= n] and [0 < d]). *)
Definition round_half_even (n d : Z) : Z :=
  let k := (n / d)%Z in
  match (2 * (n mod d) ?= d)%Z with
  | Lt => k
  | Gt => (k + 1)%Z
  | Eq => if Z.even k then k else (k + 1)%Z
  end.

(** [m * 2^e] as a reduced fraction. *)
Definition scale2 (m e : Z) : Q :=
  Qred (if (0 <=? e)%Z then (m * 2 ^ e)%Z # 1
        else m # Z.to_pos (2 ^ (- e))).

(** [2^e <= n / d], without fractions. *)
Definition pow2_le (e n d : Z) : Prop :=
  if (0 <=? e)%Z then (d * 2 ^ e <= n)%Z else (d <= n * 2 ^ (- e))%Z.

(** The largest [e] with [2^e <= n / d] ([0 < n] and [0 < d]): the binary
    logarithms of [n] and [d] give it up to one. *)
Definition floor_log2 (n d : Z) : Z :=
  let e := (Z.log2 n - Z.log2 d)%Z in
  if (if (0 <=? e)%Z then (d * 2 ^ e <=? n)%Z else (d <=? n * 2 ^ (- e))%Z)
  then e else (e - 1)%Z.

(** The binary64 nearest to [n / d] ([0 < n] and [0 < d]), with the sign
    [negative]: [n / d] is rounded to a multiple of [2^qe], where [qe] is
    the exponent of the last of 53 bits, or that of the subnormal
    numbers. *)
Definition binary64_of (negative : bool) (n d : Z) : JsNum :=
  let qe := Z.max (floor_log2 n d - 52) (-1074) in
  let m := if (0 <=? qe)%Z then round_half_even n (d * 2 ^ qe)
           else round_half_even (n * 2 ^ (- qe)) d in
  if (0 <=? qe)%Z && (2 ^ 1024 <=? m * 2 ^ qe)%Z then Inf negative
  else Fin (scale2 (if negative then (- m)%Z else m) qe).

Definition binary64 (q : Q) : JsNum :=
  match Qnum (Qred q) with
  | Z0 => Fin 0
  | Zpos n => binary64_of false (Zpos n) (Zpos (Qden (Qred q)))
  | Zneg n => binary64_of true (Zpos n) (Zpos (Qden (Qred q)))
  end.

(** StrUnsignedDecimalLiteral, with the sign already read. *)
Definition parse_unsigned (neg : bool) (s : jsstring) : JsNum :=
  if starts_with (js "Infinity") s then Inf neg else
  let ip := take_while is_digit s in
  let '(fp, rest) := fraction_part (skip_while is_digit s) in
  match ip ++ fp with
  | [] => NaN
  | ds =>
      let m := decimal ds in
      binary64 (scale10 (if neg then (- m)%Z else m)
                        (exponent_part rest - Z.of_nat (length fp)))
  end.

(** [parseFloat(input)]: leading white space is skipped, then the longest
    prefix that is a StrDecimalLiteral is converted; [NaN] when there is
    none. *)
Definition parseFloat (input : jsstring) : JsNum :=
  let '(neg, s) := strip_sign (trimStart input) in
  parse_unsigned neg s.

(** [n || 0] on numbers. *)
Definition or_zero (n : JsNum) : JsNum :=
  if num_truthy n then n else Fin 0.

(** ** The reasoning-entry parser (cleanMoonText.js, second module) *)

Record ReasoningEntry := {
  rule : jsstring;
  weight : JsNum
}.

(** [[-+]?\d+(?:\.\d+)?] *)
Definition number_re : regex :=
  Opt (Cls is_sign) ⋅ Plus is_digit ⋅ Opt (Chr c_dot ⋅ Plus is_digit).

(** [/\(([-+]?\d+(?:\.\d+)?)\s*%?\)\s*$/] *)
Definition paren_re : RegExp := {|
  pattern := Chr c_lparen ⋅ Group number_re ⋅ Star is_space
             ⋅ Opt (Chr c_percent) ⋅ Chr c_rparen ⋅ Star is_space ⋅ Eos;
  ignoreCase := false
|}.

(** [/([-+]?\d+(?:\.\d+)?)\s*%?\s*$/] *)
Definition signed_re : RegExp := {|
  pattern := Group number_re ⋅ Star is_space ⋅ Opt (Chr c_percent)
             ⋅ Star is_space ⋅ Eos;
  ignoreCase := false
|}.

(** [parseFloat(m[1])], where an unset group reads as [undefined]. *)
Definition parse_group (m : MatchResult) : JsNum :=
  match group1 m with
  | Some g => parseFloat g
  | None => NaN
  end.

Definition parseReasoningEntry (text : Value) : Res ReasoningEntry :=
  match text with
  | VString text =>
      match str_match text paren_re with
      | Some parenMatch =>
          Ok {| rule := trim (slice0 text (index parenMatch));
                weight := or_zero (parse_group parenMatch) |}
      | None =>
          match str_match text signed_re with
          | Some signedMatch =>
              Ok {| rule := trim (slice0 text (index signedMatch));
                    weight := or_zero (parse_group signedMatch) |}
          | None => Ok {| rule := trim text; weight := Fin 0 |}
          end
      end
  | _ => Ok {| rule := []; weight := Fin 0 |}
  end.

(** ** cleanMoonText (cleanMoonText.js, first module) *)

(** The first pattern of the chain, with the flags [g] and [i]: [Void],
    optionally a space and the glyph, [ Moon:], white space, optionally the
    glyph and white space, [Moon]. *)
Definition void_moon_re : RegExp := {|
  pattern := lit "Void" ⋅ Opt (Chr c_space ⋅ Chr c_moon) ⋅ lit " Moon:"
             ⋅ Star is_space ⋅ Opt (Chr c_moon ⋅ Star is_space) ⋅ lit "Moon";
  ignoreCase := true
|}.

(** [/☽ Moon/g] *)
Definition glyph_moon_re : RegExp := {|
  pattern := Chr c_moon ⋅ lit " Moon";
  ignoreCase := false
|}.

(** [/Moon Moon/g] *)
Definition moon_moon_re : RegExp := {|
  pattern := lit "Moon Moon";
  ignoreCase := false
|}.

(** [/\s*\([^)]*moon[^)]*\)\s*$/gi] *)
Definition trailing_moon_re : RegExp := {|
  pattern := Star is_space ⋅ Chr c_lparen ⋅ Star not_rparen ⋅ lit "moon"
             ⋅ Star not_rparen ⋅ Chr c_rparen ⋅ Star is_space ⋅ Eos;
  ignoreCase := true
|}.

(** [/:\s+makes/g] *)
Definition colon_makes_re : RegExp := {|
  pattern := Chr c_colon ⋅ Plus is_space ⋅ lit "makes";
  ignoreCase := false
|}.

(** [/\s+/g] *)
Definition spaces_re : RegExp := {|
  pattern := Plus is_space;
  ignoreCase := false
|}.

Definition cleanMoonText (text : Value) : Value :=
  if negb (truthy text) || negb (bool_decide (typeof text = "string"))
  then text
  else
    match text with
    | VString text =>
        let t1 := replaceAll text void_moon_re (js "Void Moon:") in
        let t2 := replaceAll t1 glyph_moon_re (js "Moon") in
        let t3 := replaceAll t2 moon_moon_re (js "Moon") in
        let t4 := replaceAll t3 trailing_moon_re [] in
        let t5 := replaceAll t4 colon_makes_re (js ": makes") in
        let t6 := replaceAll t5 spaces_re (js " ") in
        VString (trim t6)
    | _ => text
    end.

(** ** The location resolver (part_000, [getLocationData]) *)

Record ResolvedLocation := {
  city : Value;
  country : Value;
  lat : Value;
  lon : Value
}.

(** [parts = v.split(',').map(s => s.trim())] *)
Definition split_trim (v : Value) : Res (list jsstring) :=
  parts ← splitJ v c_comma; mret (map trim parts).

#[local] Open Scope res_scope.

(** The closure [getLocationData] of [buildChartPayload], with the chart
    it closes over as its argument.  Each guarded early return of the
    source is one [if] below; [e @. k] is [e.k], [e @? k] is [e?.k], and
    an object literal evaluates its fields in order. *)
Definition getLocationData (chart : Value) : Res ResolvedLocation :=
  let chart : Res Value := Ok chart in
  c1 ← chart @. "chart_data" @? "location" @? "city"
       && chart @. "chart_data" @? "location" @? "city" !== "Unknown";
  if truthy c1 then
    city ← chart @. "chart_data" @. "location" @. "city";
    country ← chart @. "chart_data" @. "location" @. "country"
              || Ok (str "Unknown");
    lat ← chart @. "chart_data" @. "location" @. "latitude"
          || chart @. "chart_data" @. "location" @. "lat" || Ok zero;
    lon ← chart @. "chart_data" @. "location" @. "longitude"
          || chart @. "chart_data" @. "location" @. "lon" || Ok zero;
    mret {| city := city; country := country; lat := lat; lon := lon |}
  else
  c2 ← chart @. "chart_data" @? "timezone_info" @? "location"
       && typeofJ (chart @. "chart_data" @. "timezone_info" @. "location")
                  "object";
  if truthy c2 then
    let loc := chart @. "chart_data" @. "timezone_info" @. "location" in
    city ← loc @. "city" || loc @. "name" || Ok (str "Unknown");
    country ← loc @. "country" || Ok (str "Unknown");
    lat ← loc @. "latitude" || loc @. "lat" || Ok zero;
    lon ← loc @. "longitude" || loc @. "lon" || Ok zero;
    mret {| city := city; country := country; lat := lat; lon := lon |}
  else
  c3 ← chart @. "chart_data" @? "timezone_info" @? "location_name"
       && chart @. "chart_data" @. "timezone_info" @. "location_name"
          !== "Unknown location"
       && chart @. "chart_data" @. "timezone_info" @. "location_name"
          !== "Unknown";
  if truthy c3 then
    locationStr ← chart @. "chart_data" @. "timezone_info" @. "location_name";
    parts ← split_trim locationStr;
    city ← Ok (item parts 0) || Ok locationStr;
    country ← Ok (item parts 1) || Ok (str "Unknown");
    lat ← chart @. "chart_data" @. "timezone_info" @? "coordinates"
          @? "latitude" || Ok zero;
    lon ← chart @. "chart_data" @. "timezone_info" @? "coordinates"
          @? "longitude" || Ok zero;
    mret {| city := city; country := country; lat := lat; lon := lon |}
  else
  c4 ← chart @. "location_name"
       && chart @. "location_name" !== "Unknown location"
       && chart @. "location_name" !== "Unknown";
  if truthy c4 then
    locationStr ← chart @. "location_name";
    parts ← split_trim locationStr;
    city ← Ok (item parts 0) || Ok locationStr;
    country ← Ok (item parts 1) || Ok (str "Unknown");
    lat ← chart @. "chart_data" @? "timezone_info" @? "coordinates"
          @? "latitude" || Ok zero;
    lon ← chart @. "chart_data" @? "timezone_info" @? "coordinates"
          @? "longitude" || Ok zero;
    mret {| city := city; country := country; lat := lat; lon := lon |}
  else
  c5 ← chart @. "location" && typeofJ (chart @. "location") "object";
  if truthy c5 then
    city ← chart @. "location" @. "city" || Ok (str "Unknown");
    country ← chart @. "location" @. "country" || Ok (str "Unknown");
    lat ← chart @. "location" @. "latitude"
          || chart @. "location" @. "lat" || Ok zero;
    lon ← chart @. "location" @. "longitude"
          || chart @. "location" @. "lon" || Ok zero;
    mret {| city := city; country := country; lat := lat; lon := lon |}
  else
  c6 ← typeofJ (chart @. "location") "string"
       && chart @. "location" !== "Unknown";
  if truthy c6 then
    location ← chart @. "location";
    parts ← split_trim location;
    city ← Ok (item parts 0) || chart @. "location";
    country ← Ok (item parts 1) || Ok (str "Unknown");
    mret {| city := city; country := country; lat := zero; lon := zero |}
  else
  tz ← chart @. "chart_data" @? "timezone_info" @? "timezone";
  c7 ← Ok tz && Ok tz !== "UTC"
       && (b ← includesJ tz c_slash; mret (VBool b));
  if truthy c7 then
    parts ← splitJ tz c_slash;
    last ← match nth_error parts (length parts - 1) with
           | Some s => Ok s
           | None => Throw TypeError
           end;
    let city := replaceAll last {| pattern := Chr c_underscore;
                                   ignoreCase := false |} (js " ") in
    country ← Ok (item parts 0) || Ok (str "Unknown");
    mret {| city := VString city; country := country;
            lat := zero; lon := zero |}
  else
    mret {| city := str "Unknown"; country := str "Unknown";
            lat := zero; lon := zero |}.

#[local] Close Scope res_scope.

(** * Specification of the matcher

    What a pattern accepts, independently of the order in which the
    backtracking matcher explores the alternatives: [Matches ic r s cap s'
    cap'] holds when [r] can consume the front of [s] leaving [s'], and
    turns the capture [cap] into [cap']. *)

Fixpoint Matches (ic : bool) (r : regex) (s : jsstring)
    (cap : option jsstring) (s' : jsstring) (cap' : option jsstring) : Prop :=
  match r with
  | Eps => s' = s ∧ cap' = cap
  | Chr c => ∃ x, s = x :: s' ∧ same_char ic x c = true ∧ cap' = cap
  | Cls p => ∃ x, s = x :: s' ∧ p x = true ∧ cap' = cap
  | Cat r1 r2 =>
      ∃ s1 cap1, Matches ic r1 s cap s1 cap1 ∧ Matches ic r2 s1 cap1 s' cap'
  | Opt r1 => Matches ic r1 s cap s' cap' ∨ (s' = s ∧ cap' = cap)
  | Star p => ∃ u, s = u ++ s' ∧ forallb p u = true ∧ cap' = cap
  | Plus p => ∃ x u, s = x :: u ++ s' ∧ p x = true ∧ forallb p u = true
                     ∧ cap' = cap
  | Group r1 =>
      ∃ cap1, Matches ic r1 s cap s' cap1
              ∧ cap' = Some (take (length s - length s') s)
  | Eos => s = [] ∧ s' = [] ∧ cap' = cap
  end.

(** ** The grammar of trailing annotations, in the words of the specification *)

(** One or more decimal digits. *)
Definition digits (ds : jsstring) : Prop :=
  ds ≠ [] ∧ forallb is_digit ds = true.

(** An optionally signed decimal number: an optional sign, one or more
    digits and, optionally, a point followed by one or more digits. *)
Definition numeral (tok : jsstring) : Prop :=
  ∃ sg ip fr,
    tok = sg ++ ip ++ fr
    ∧ (sg = [] ∨ sg = [c_minus] ∨ sg = [c_plus])
    ∧ digits ip
    ∧ (fr = [] ∨ ∃ fp, fr = c_dot :: fp ∧ digits fp).

(** Optional white space. *)
Definition spaces (ws : jsstring) : Prop := forallb is_space ws = true.

(** An optional percent sign. *)
Definition percent_opt (pct : jsstring) : Prop :=
  pct = [] ∨ pct = [c_percent].

(** [u] is a parenthesized numeric group that runs to the end of the
    string: the number [tok] in parentheses, optionally followed by a
    percent sign inside the parentheses, with optional white space. *)
Definition paren_annotation (u tok : jsstring) : Prop :=
  ∃ ws1 pct ws2,
    u = c_lparen :: tok ++ ws1 ++ pct ++ c_rparen :: ws2
    ∧ numeral tok ∧ spaces ws1 ∧ percent_opt pct ∧ spaces ws2.

(** [u] is the number [tok] followed only by an optional percent sign and
    white space. *)
Definition bare_annotation (u tok : jsstring) : Prop :=
  ∃ ws1 pct ws2,
    u = tok ++ ws1 ++ pct ++ ws2
    ∧ numeral tok ∧ spaces ws1 ∧ percent_opt pct ∧ spaces ws2.

(** The text ends with an annotation of the one or the other form. *)
Definition ends_with_paren_annotation (text : jsstring) : Prop :=
  ∃ pre u tok, text = pre ++ u ∧ paren_annotation u tok.

Definition ends_with_bare_annotation (text : jsstring) : Prop :=
  ∃ pre u tok, text = pre ++ u ∧ bare_annotation u tok.

(** The characters a number is written with. *)
Definition is_numeral_char (c : N) : bool :=
  is_digit c || is_sign c || (c =? c_dot).

(** Integer digits [ip] and fraction digits [fp] read as [ip.fp]. *)
Definition magnitude (ip fp : jsstring) : Q :=
  (inject_Z (decimal ip)
   + (decimal fp # Z.to_pos (10 ^ Z.of_nat (length fp))))%Q.

(** The value of an optionally signed decimal number: its integer part
    plus its fraction part over the matching power of ten, negated after a
    minus sign. *)
Definition numeral_value (tok : jsstring) : Q :=
  let negative := match tok with c :: _ => c =? c_minus | [] => false end in
  let body := match tok with
              | c :: t => if is_sign c then t else tok
              | [] => tok
              end in
  let ip := take_while is_digit body in
  let fp := match skip_while is_digit body with _ :: fp => fp | [] => [] end in
  if negative then (- magnitude ip fp)%Q else magnitude ip fp.

(** Whether the sign, if any, is a minus. *)
Definition is_minus (sg : jsstring) : bool :=
  match sg with c :: _ => c =? c_minus | [] => false end.

(** ** The fallback chain as guards and extractors

    On a chart that is an object every property read of the resolver's
    guards is total, so that the resolver can be read as a chain of
    boolean guards over the fields of the chart, each followed by its
    extractor.  [fallback_chain] is that reading; it is proved equal to
    [getLocationData] below and serves to state and prove the properties
    of the resolver. *)

(** [a || b] on values. *)
Definition or_else (a b : Value) : Value := if truthy a then a else b.

(** [v.k1?.k2?. ...] *)
Definition path (v : Value) (ks : list string) : Value := fold_left field ks v.

(** The all-defaults record. *)
Definition unknown_location : ResolvedLocation :=
  {| city := str "Unknown"; country := str "Unknown";
     lat := zero; lon := zero |}.

(** A name that is set and is none of the two placeholders:
    [v && v !== 'Unknown location' && v !== 'Unknown']. *)
Definition named (v : Value) : bool :=
  truthy v && strict_ne_str v (js "Unknown location")
  && strict_ne_str v (js "Unknown").

(** [v && typeof v === 'object'] *)
Definition is_object (v : Value) : bool :=
  truthy v && bool_decide (typeof v = "object").

(** [chart.chart_data?.location?.city && ... !== 'Unknown'] *)
Definition guard1 (chart : Value) : bool :=
  let c := path chart ["chart_data"; "location"; "city"] in
  truthy c && strict_ne_str c (js "Unknown").

(** [chart.chart_data?.timezone_info?.location && typeof ... === 'object'] *)
Definition guard2 (chart : Value) : bool :=
  is_object (path chart ["chart_data"; "timezone_info"; "location"]).

(** [chart.chart_data?.timezone_info?.location_name], set and no
    placeholder. *)
Definition guard3 (chart : Value) : bool :=
  named (path chart ["chart_data"; "timezone_info"; "location_name"]).

(** [chart.location_name], set and no placeholder. *)
Definition guard4 (chart : Value) : bool :=
  named (field chart "location_name").

(** [chart.location && typeof chart.location === 'object'] *)
Definition guard5 (chart : Value) : bool :=
  is_object (field chart "location").

(** [typeof chart.location === 'string' && chart.location !== 'Unknown'] *)
Definition guard6 (chart : Value) : bool :=
  bool_decide (typeof (field chart "location") = "string")
  && strict_ne_str (field chart "location") (js "Unknown").

(** [tz && tz !== 'UTC' && tz.includes('/')], for a timezone that is a
    string. *)
Definition guard7 (chart : Value) : bool :=
  match path chart ["chart_data"; "timezone_info"; "timezone"] with
  | VString t =>
      truthy (VString t) && strict_ne_str (VString t) (js "UTC")
      && includes c_slash t
  | _ => false
  end.

(** The extractor of the branches that split a free-text name on commas. *)
Definition from_name (name lat lon : Value) : Res ResolvedLocation :=
  parts ← split_trim name;
  mret {| city := or_else (item parts 0) name;
          country := or_else (item parts 1) (str "Unknown");
          lat := lat; lon := lon |}.

(** The last branch: a timezone identifier, or the all-defaults record. *)
Definition from_timezone (tz : Value) : Res ResolvedLocation :=
  if truthy tz && strict_ne_str tz (js "UTC") then
    b ← includesJ tz c_slash;
    if b : bool then
      parts ← splitJ tz c_slash;
      last ← match nth_error parts (length parts - 1) with
             | Some s => Ok s
             | None => Throw TypeError
             end;
      mret {| city := VString (replaceAll last
                                 {| pattern := Chr c_underscore;
                                    ignoreCase := false |} (js " "));
              country := or_else (item parts 0) (str "Unknown");
              lat := zero; lon := zero |}
    else Ok unknown_location
  else Ok unknown_location.

Definition fallback_chain (chart : Value) : Res ResolvedLocation :=
  let tzinfo := path chart ["chart_data"; "timezone_info"] in
  let coords := field tzinfo "coordinates" in
  if guard1 chart then
    let loc := path chart ["chart_data"; "location"] in
    Ok {| city := field loc "city";
          country := or_else (field loc "country") (str "Unknown");
          lat := or_else (or_else (field loc "latitude") (field loc "lat")) zero;
          lon := or_else (or_else (field loc "longitude") (field loc "lon")) zero |}
  else if guard2 chart then
    let loc := field tzinfo "location" in
    Ok {| city := or_else (or_else (field loc "city") (field loc "name"))
                    (str "Unknown");
          country := or_else (field loc "country") (str "Unknown");
          lat := or_else (or_else (field loc "latitude") (field loc "lat")) zero;
          lon := or_else (or_else (field loc "longitude") (field loc "lon")) zero |}
  else if guard3 chart then
    from_name (field tzinfo "location_name")
      (or_else (field coords "latitude") zero)
      (or_else (field coords "longitude") zero)
  else if guard4 chart then
    from_name (field chart "location_name")
      (or_else (field coords "latitude") zero)
      (or_else (field coords "longitude") zero)
  else if guard5 chart then
    let loc := field chart "location" in
    Ok {| city := or_else (field loc "city") (str "Unknown");
          country := or_else (field loc "country") (str "Unknown");
          lat := or_else (or_else (field loc "latitude") (field loc "lat")) zero;
          lon := or_else (or_else (field loc "longitude") (field loc "lon")) zero |}
  else if guard6 chart then
    from_name (field chart "location") zero zero
  else from_timezone (field tzinfo "timezone").

(** ** Charts and results *)

(** An object literal. *)
Definition obj (fields : list (string * Value)) : Value :=
  VObject (list_to_map fields).

(** [s] does not contain the separator. *)
Definition sep_free (sep : N) (s : jsstring) : Prop :=
  forallb (λ c, negb (c =? sep)) s = true.

(** A field that is neither [undefined] nor [null]. *)
Definition present (v : Value) : Prop := nullish v = false.

(** All four fields are set. *)
Definition complete (r : ResolvedLocation) : Prop :=
  present (city r) ∧ present (country r) ∧ present (lat r) ∧ present (lon r).

(** A field that holds a string whenever it holds anything truthy. *)
Definition text_or_unset (v : Value) : Prop :=
  (∃ s, v = VString s) ∨ truthy v = false.

(** The first truthy of [full] and [abbr], else the default. *)
Definition first_truthy (full abbr dflt : Value) : Value :=
  if truthy full then full else if truthy abbr then abbr else dflt.

(** [t], or [dflt] when [t] is empty: [t || dflt] on strings. *)
Definition nonempty_or (t dflt : jsstring) : jsstring :=
  match t with [] => dflt | _ => t end.

(** [last.replace(/_/g, ' ')] *)
Definition underscores_to_spaces (s : jsstring) : jsstring :=
  map (λ c, if c =? c_underscore then c_space else c) s.

(** The chart reaches the branch of the timezone-info location name, which
    is the string [s]. *)
Definition reaches_tz_name (chart : Value) (s : jsstring) : Prop :=
  guard1 chart = false ∧ guard2 chart = false
  ∧ path chart ["chart_data"; "timezone_info"; "location_name"] = VString s
  ∧ named (VString s) = true.

(** The chart reaches the branch of the top-level location name, which is
    the string [s]. *)
Definition reaches_top_name (chart : Value) (s : jsstring) : Prop :=
  guard1 chart = false ∧ guard2 chart = false ∧ guard3 chart = false
  ∧ field chart "location_name" = VString s
  ∧ named (VString s) = true.

(** The chart reaches the branch of the top-level location that is a
    string, the string [s]. *)
Definition reaches_location_text (chart : Value) (s : jsstring) : Prop :=
  guard1 chart = false ∧ guard2 chart = false ∧ guard3 chart = false
  ∧ guard4 chart = false ∧ guard5 chart = false
  ∧ field chart "location" = VString s
  ∧ s ≠ js "Unknown".

(** ** Further vocabulary *)

(** A match found [n] characters further to the right. *)
Definition shift_match (n : nat) (m : MatchResult) : MatchResult :=
  {| index := n + index m; matched := matched m; group1 := group1 m |}.

(** The string is empty or starts with a character that is not white
    space. *)
Definition starts_unspaced (s : jsstring) : Prop :=
  match s with
  | c :: _ => is_space c = false
  | [] => True
  end.

(** The string carries no white space at either end. *)
Definition trimmed (s : jsstring) : Prop :=
  starts_unspaced s ∧ starts_unspaced (rev s).

(** Every run of white space replaced by one space; [in_run] tells whether
    the previous character was white space. *)
Fixpoint collapse (in_run : bool) (s : jsstring) : jsstring :=
  match s with
  | [] => []
  | c :: s' =>
      if is_space c
      then if in_run then collapse true s' else c_space :: collapse true s'
      else c :: collapse false s'
  end.

(** Every white space character of the string is a plain space, and is
    followed by a character that is not white space, or by nothing. *)
Fixpoint single_spaced (t : jsstring) : Prop :=
  match t with
  | c :: t' =>
      (is_space c = true → c = c_space ∧ starts_unspaced t')
      ∧ single_spaced t'
  | [] => True
  end.

(** The least number of characters a pattern consumes. *)
Fixpoint min_length (r : regex) : nat :=
  match r with
  | Eps | Opt _ | Star _ | Eos => 0
  | Chr _ | Cls _ | Plus _ => 1
  | Cat r1 r2 => min_length r1 + min_length r2
  | Group r1 => min_length r1
  end.

(** The pattern cannot match without consuming a character whose canonical
    form is [k]. *)
Fixpoint mentions (k : N) (r : regex) : bool :=
  match r with
  | Chr c => canonicalize c =? k
  | Cat r1 r2 => mentions k r1 || mentions k r2
  | Group r1 => mentions k r1
  | _ => false
  end.

(** No character of the string has the canonical form [k]. *)
Definition lacks (k : N) (s : jsstring) : Prop :=
  forallb (λ x, negb (canonicalize x =? k)) s = true.

(** The value is a string. *)
Definition is_text (v : Value) : bool :=
  match v with VString _ => true | _ => false end.

(** The timezone branch raises on this timezone: it is truthy and not
    "UTC", and it is neither a string nor an array without the element
    "/" (the only other values with an [includes] method). *)
Definition timezone_raises (tz : Value) : bool :=
  truthy tz && strict_ne_str tz (js "UTC")
  && match tz with
     | VString _ => false
     | VArray a => existsb (λ x, negb (strict_ne_str x [c_slash])) a
     | _ => true
     end.

(** The branch that the chart reaches calls a string method on a value
    that is not a string. *)
Definition raises (chart : Value) : bool :=
  if guard1 chart then false
  else if guard2 chart then false
  else if guard3 chart then
    negb (is_text (path chart ["chart_data"; "timezone_info"; "location_name"]))
  else if guard4 chart then negb (is_text (field chart "location_name"))
  else if guard5 chart then false
  else if guard6 chart then false
  else timezone_raises (path chart ["chart_data"; "timezone_info"; "timezone"]).

(** ** The payload builder (part_000, [buildChartPayload])

    [buildChartPayload] relies on three services of the runtime that are
    outside this model: the ISO and the localized rendering of a [Date],
    which depend on the calendar and on the time zone database, and the
    decimal rendering of a number.  They are parameters of the embedding:
    - [toISOString v] is the outcome of [new Date(v).toISOString()], which
      raises a RangeError on an invalid date;
    - [toLocaleString v tz] is the outcome of
      [new Date(v).toLocaleString('en-US', { timeZone: tz })], which raises
      a RangeError on a time zone that is not accepted;
    - [number_to_string n] is [String(n)]. *)

Inductive Exception := TypeErrorRaised | RangeErrorRaised.

Inductive Outcome (A : Type) :=
| Done (a : A)
| Raised (e : Exception).
Arguments Done {A} a.
Arguments Raised {A} e.

#[global] Instance Outcome_ret : MRet Outcome := fun A a => Done a.
#[global] Instance Outcome_bind : MBind Outcome := fun A B f m =>
  match m with
  | Done a => f a
  | Raised e => Raised e
  end.

(** A computation that can only raise a TypeError, within one that can
    also raise a RangeError. *)
Definition lift_res {A} (m : Res A) : Outcome A :=
  match m with
  | Ok a => Done a
  | Throw TypeError => Raised TypeErrorRaised
  end.

Record Verdict := {
  label : Value;
  confidence : Value;
  rationale : list Value
}.

(** The payload; the keys that are only set under a condition are
    options. *)
Record Payload := {
  id : Value;
  question : Value;
  category : Value;
  asked_at_local : jsstring;
  asked_at_utc : jsstring;
  tz : Value;
  location : ResolvedLocation;
  house_system : Value;
  houses : Value;
  rulers : Value;
  aspects : Value;
  planets : Value;
  traditional_factors : Value;
  solar_factors : Value;
  reasoning : Value;
  ledger : option Value;
  verdict : option Verdict;
  key_testimonies : option (list jsstring);
  keyTestimoniesText : option jsstring
}.

(** [s.includes(needle)] on strings. *)
Fixpoint contains (needle s : jsstring) : bool :=
  starts_with needle s
  || match s with
     | [] => false
     | _ :: s' => contains needle s'
     end.

(** [v.includes('lit')]: a substring test on a string, a membership test
    on an array; anything else has no [includes] method. *)
Definition includes_text (v : Value) (lit : string) : Res bool :=
  match v with
  | VString s => Ok (contains (js lit) s)
  | VArray a => Ok (existsb (λ x, negb (strict_ne_str x (js lit))) a)
  | _ => Throw TypeError
  end.

(** [a.join(sep)] on an array of strings. *)
Fixpoint join (sep : jsstring) (l : list jsstring) : jsstring :=
  match l with
  | [] => []
  | [x] => x
  | x :: l' => x ++ sep ++ join sep l'
  end.

(** [v?.[0]] *)
Definition first_item (v : Value) : Value :=
  match v with
  | VArray (x :: _) => x
  | VString (c :: _) => VString [c]
  | VObject o => default VUndefined (o !! "0")
  | _ => VUndefined
  end.

(** [v.filter(f)], [v.slice(0, n)] and [v.map(f)] exist on arrays only. *)
Definition as_array (v : Value) : Res (list Value) :=
  match v with
  | VArray a => Ok a
  | _ => Throw TypeError
  end.

(** The callbacks run on the elements in order; the first one that raises
    ends the traversal. *)
Fixpoint filterJ (f : Value → Res bool) (l : list Value) : Res (list Value) :=
  match l with
  | [] => Ok []
  | x :: l' =>
      b ← f x; rest ← filterJ f l'; mret (if b : bool then x :: rest else rest)
  end.

Fixpoint mapJ {A} (f : Value → Res A) (l : list Value) : Res (list A) :=
  match l with
  | [] => Ok []
  | x :: l' => y ← f x; rest ← mapJ f l'; mret (y :: rest)
  end.

(** The prefix of a key testimony, as the source file has it. *)
Definition bullet : jsstring := [226; 8364; 162; 32].

(** The five words that mark a key testimony:
    [r.includes('perfection') || r.includes('reception') || ...]. *)
Definition is_key_testimony (r : Value) : Res bool :=
  b1 ← includes_text r "perfection"; if b1 : bool then Ok true else
  b2 ← includes_text r "reception"; if b2 : bool then Ok true else
  b3 ← includes_text r "Moon"; if b3 : bool then Ok true else
  b4 ← includes_text r "dignity"; if b4 : bool then Ok true else
  includes_text r "applying".

Section Payload.
Variable toISOString : Value → Outcome jsstring.
Variable toLocaleString : Value → Value → Outcome jsstring.
Variable number_to_string : JsNum → jsstring.

(** ToString.  An object of parsed JSON is rendered by
    [Object.prototype.toString] unless a key of its own shadows [toString],
    in which case the conversion finds nothing to call and raises. *)
Fixpoint to_string (v : Value) : Res jsstring :=
  match v with
  | VUndefined => Ok (js "undefined")
  | VNull => Ok (js "null")
  | VBool b => Ok (if b then js "true" else js "false")
  | VNumber n => Ok (number_to_string n)
  | VString s => Ok s
  | VObject o =>
      match o !! "toString" with
      | Some _ => Throw TypeError
      | None => Ok (js "[object Object]")
      end
  | VArray a =>
      items ← (fix each (l : list Value) : Res (list jsstring) :=
                 match l with
                 | [] => Ok []
                 | x :: l' =>
                     y ← match x with
                         | VUndefined | VNull => Ok []
                         | _ => to_string x
                         end;
                     rest ← each l'; mret (y :: rest)
                 end) a;
      mret (join [c_comma] items)
  end.

(** The template literal of a key testimony. *)
Definition testimony (r : Value) : Res jsstring :=
  t ← to_string (cleanMoonText r); mret (bullet ++ t).

Definition buildChartPayload (chart includeVerdict : Value) : Outcome Payload :=
  let includeVerdict :=
    match includeVerdict with VUndefined => VBool true | v => v end in
  let utcTime := path chart ["chart_data"; "timezone_info"; "utc_time"] in
  let timezone :=
    or_else (path chart ["chart_data"; "timezone_info"; "timezone"])
      (str "UTC") in
  instant ← (if truthy utcTime then Done utcTime
             else lift_res (dot (Ok chart) "timestamp"));
  asked_at_utc ← toISOString instant;
  asked_at_local ← toLocaleString instant timezone;
  let rationaleList :=
    or_else (or_else (field chart "rationale") (field chart "reasoning"))
      (VArray []) in
  let ledgerEntries := or_else (field chart "ledger") VNull in
  location ← lift_res (getLocationData chart);
  let payload :=
    {| id := field chart "id";
       question := field chart "question";
       category := or_else (first_item (field chart "tags")) (str "general");
       asked_at_local := asked_at_local;
       asked_at_utc := asked_at_utc;
       tz := timezone;
       location := location;
       house_system := str "Regiomontanus";
       houses := or_else (path chart ["chart_data"; "houses"]) (VObject ∅);
       rulers := or_else (path chart ["chart_data"; "rulers"]) (VObject ∅);
       aspects := or_else (path chart ["chart_data"; "aspects"]) (VArray []);
       planets := or_else (path chart ["chart_data"; "planets"]) (VObject ∅);
       traditional_factors :=
         or_else (field chart "traditional_factors") (VObject ∅);
       solar_factors := or_else (field chart "solar_factors") (VObject ∅);
       reasoning := or_else ledgerEntries rationaleList;
       ledger := if truthy ledgerEntries then Some ledgerEntries else None;
       verdict := None;
       key_testimonies := None;
       keyTestimoniesText := None |} in
  if truthy includeVerdict then
    keyTestimonies ← lift_res (
      entries ← as_array
        (or_else (or_else (field chart "rationale") (field chart "reasoning"))
           (VArray []));
      kept ← filterJ is_key_testimony entries;
      mapJ testimony (take 5 kept));
    cleaned ← lift_res (
      entries ← as_array rationaleList;
      mret (map cleanMoonText entries));
    mret {| id := id payload;
            question := question payload;
            category := category payload;
            asked_at_local := asked_at_local;
            asked_at_utc := asked_at_utc;
            tz := tz payload;
            location := location;
            house_system := house_system payload;
            houses := houses payload;
            rulers := rulers payload;
            aspects := aspects payload;
            planets := planets payload;
            traditional_factors := traditional_factors payload;
            solar_factors := solar_factors payload;
            reasoning := reasoning payload;
            ledger := ledger payload;
            verdict := Some {| label := field chart "judgment";
                               confidence := field chart "confidence";
                               rationale := cleaned |};
            key_testimonies := Some keyTestimonies;
            keyTestimoniesText := Some (join [10] keyTestimonies) |}
  else mret payload.
End Payload.

(** Whether the verdict is asked for: the parameter defaults to [true]. *)
Definition verdict_requested (includeVerdict : Value) : bool :=
  match includeVerdict with
  | VUndefined => true
  | v => truthy v
  end.

(** What the date is read from: [utc_time] of the timezone info when it is
    truthy, the chart's [timestamp] otherwise. *)
Definition instant_source (chart : Value) : Value :=
  or_else (path chart ["chart_data"; "timezone_info"; "utc_time"])
    (field chart "timestamp").

(** [chart.rationale || chart.reasoning || []] *)
Definition rationale_entries (chart : Value) : Value :=
  or_else (or_else (field chart "rationale") (field chart "reasoning"))
    (VArray []).

Definition is_list (v : Value) : bool :=
  match v with VArray _ => true | _ => false end.

(** A payload without the three keys of the verdict. *)
Definition strip_verdict (p : Payload) : Payload :=
  {| id := id p;
     question := question p;
     category := category p;
     asked_at_local := asked_at_local p;
     asked_at_utc := asked_at_utc p;
     tz := tz p;
     location := location p;
     house_system := house_system p;
     houses := houses p;
     rulers := rulers p;
     aspects := aspects p;
     planets := planets p;
     traditional_factors := traditional_factors p;
     solar_factors := solar_factors p;
     reasoning := reasoning p;
     ledger := ledger p;
     verdict := None;
     key_testimonies := None;
     keyTestimoniesText := None |}.

(** ** A runtime and two charts for the examples

    An instance of the two date services that knows a single instant, noon
    UTC on the first of March 2024, and the zones "UTC" and "Europe/Paris";
    it refuses every other date and every other zone. *)

Definition noon : jsstring := js "2024-03-01T12:00:00.000Z".

Definition noon_iso (v : Value) : Outcome jsstring :=
  match v with
  | VString s =>
      if bool_decide (s = noon) then Done noon else Raised RangeErrorRaised
  | _ => Raised RangeErrorRaised
  end.

Definition noon_local (v tz : Value) : Outcome jsstring :=
  match v, tz with
  | VString s, VString z =>
      if bool_decide (s = noon) then
        if bool_decide (z = js "UTC") then Done (js "3/1/2024, 12:00:00 PM")
        else if bool_decide (z = js "Europe/Paris")
             then Done (js "3/1/2024, 1:00:00 PM")
             else Raised RangeErrorRaised
      else Raised RangeErrorRaised
  | _, _ => Raised RangeErrorRaised
  end.

(** A chart asked in Paris, with three lines of rationale. *)
Definition paris_chart : Value :=
  obj [("id", str "q-17");
       ("question", str "Will the letter arrive?");
       ("timestamp", VString noon);
       ("judgment", str "YES");
       ("chart_data",
        obj [("timezone_info", obj [("timezone", str "Europe/Paris")]);
             ("location",
              obj [("city", str "Paris"); ("country", str "France")])]);
       ("rationale",
        VArray [str "Moon  applying to Venus (+2)";
                str "Saturn retrograde";
                str "Mutual reception of the significators"])].

(** The same chart with a number among the lines of rationale. *)
Definition paris_chart_with_number : Value :=
  obj [("timestamp", VString noon);
       ("chart_data",
        obj [("timezone_info", obj [("timezone", str "Europe/Paris")]);
             ("location",
              obj [("city", str "Paris"); ("country", str "France")])]);
       ("rationale",
        VArray [str "Moon  applying to Venus (+2)"; VNumber (Fin 3)])].

(** * Facts about the matcher *)

Section MatcherFacts.
Context {R : Type}.
Variable ic : bool.

Lemma star_sound p s (k : jsstring → option R) x :
  star p s k = Some x →
  ∃ u s', s = u ++ s' ∧ forallb p u = true ∧ k s' = Some x.
Proof.
  induction s as [|c s IH]; simpl.
  - intros H. exists [], []. auto.
  - destruct (p c) eqn:Hp.
    + destruct (star p s k) as [y|] eqn:Hs.
      * intros [= <-]. destruct (IH eq_refl) as (u & s' & -> & Hu & Hk).
        exists (c :: u), s'. simpl. rewrite Hp, Hu. auto.
      * intros H. exists [], (c :: s). auto.
    + intros H. exists [], (c :: s). auto.
Qed.

Lemma star_complete p u s' (k : jsstring → option R) :
  forallb p u = true → is_Some (k s') → is_Some (star p (u ++ s') k).
Proof.
  induction u as [|c u IH]; simpl; intros Hu Hk.
  - destruct s' as [|c s']; simpl; auto.
    destruct (p c); auto. destruct (star p s' k); eauto.
  - apply andb_true_iff in Hu as [-> Hu].
    destruct (IH Hu Hk) as [y ->]. eauto.
Qed.

Lemma rmatch_sound r : ∀ s cap (k : jsstring → option jsstring → option R) x,
  rmatch ic r s cap k = Some x →
  ∃ s' cap', Matches ic r s cap s' cap' ∧ k s' cap' = Some x.
Proof.
  induction r as [|c|p|r1 IH1 r2 IH2|r1 IH1|p|p|r1 IH1|]; simpl; intros s cap k x H.
  - eauto.
  - destruct s as [|y s]; [done|]. destruct (same_char ic y c) eqn:E; [|done].
    exists s, cap. eauto.
  - destruct s as [|y s]; [done|]. destruct (p y) eqn:E; [|done].
    exists s, cap. eauto.
  - apply IH1 in H as (s1 & cap1 & H1 & H).
    apply IH2 in H as (s2 & cap2 & H2 & H). eauto 8.
  - destruct (rmatch ic r1 s cap k) as [y|] eqn:E.
    + injection H as <-. apply IH1 in E as (s1 & cap1 & H1 & H). eauto.
    + eauto 6.
  - apply star_sound in H as (u & s' & -> & Hu & Hk). eauto 8.
  - destruct s as [|y s]; [done|]. destruct (p y) eqn:E; [|done].
    apply star_sound in H as (u & s' & -> & Hu & Hk). eauto 10.
  - apply IH1 in H as (s1 & cap1 & H1 & H). eauto 6.
  - destruct s; [|done]. eauto 6.
Qed.

Lemma rmatch_complete r : ∀ s cap s' cap' (k : jsstring → option jsstring → option R),
  Matches ic r s cap s' cap' → is_Some (k s' cap') →
  is_Some (rmatch ic r s cap k).
Proof.
  induction r as [|c|p|r1 IH1 r2 IH2|r1 IH1|p|p|r1 IH1|]; simpl; intros s cap s' cap' k HM Hk.
  - by destruct HM as [-> ->].
  - destruct HM as (y & -> & -> & ->). done.
  - destruct HM as (y & -> & -> & ->). done.
  - destruct HM as (s1 & cap1 & H1 & H2).
    eapply IH1; [exact H1|]. eapply IH2; eauto.
  - destruct HM as [HM|[-> ->]].
    + destruct (IH1 _ _ _ _ k HM Hk) as [y ->]. eauto.
    + destruct (rmatch ic r1 s cap k); eauto.
  - destruct HM as (u & -> & Hu & ->). by apply star_complete.
  - destruct HM as (y & u & -> & -> & Hu & ->). by apply star_complete.
  - destruct HM as (cap1 & HM & ->). eapply IH1; eauto.
  - destruct HM as (-> & -> & ->). done.
Qed.
End MatcherFacts.

Lemma match_here_sound re s s' cap :
  match_here re s = Some (s', cap) →
  Matches (ignoreCase re) (pattern re) s None s' cap.
Proof.
  unfold match_here. intros H.
  apply rmatch_sound in H as (s1 & cap1 & HM & [= <- <-]). done.
Qed.

Lemma match_here_complete re s s' cap :
  Matches (ignoreCase re) (pattern re) s None s' cap →
  is_Some (match_here re s).
Proof.
  intros HM. unfold match_here. eapply rmatch_complete; eauto.
Qed.

(** [exec] returns the leftmost position at which the pattern matches. *)
Lemma exec_from_found re pre : ∀ i u s' cap,
  (∀ k, (k < length pre)%nat → match_here re (drop k (pre ++ u)) = None) →
  match_here re u = Some (s', cap) →
  exec_from re i (pre ++ u)
  = Some {| index := i + length pre;
            matched := length u - length s';
            group1 := cap |}.
Proof.
  induction pre as [|c pre IH]; intros i u s' cap Hnone Hu.
  - simpl. destruct u; simpl; rewrite Hu; f_equal; f_equal; lia.
  - pose proof (Hnone 0%nat ltac:(simpl; lia)) as H0. simpl in *. rewrite H0.
    rewrite (IH (S i) u s' cap); [f_equal; f_equal; lia| |done].
    intros k Hk. apply (Hnone (S k)). simpl. lia.
Qed.

Lemma exec_from_none re s : ∀ i,
  (∀ k, (k ≤ length s)%nat → match_here re (drop k s) = None) →
  exec_from re i s = None.
Proof.
  induction s as [|c s IH]; intros i Hnone.
  - pose proof (Hnone 0%nat ltac:(simpl; lia)) as H0. simpl in *. by rewrite H0.
  - pose proof (Hnone 0%nat ltac:(simpl; lia)) as H0. simpl in *. rewrite H0.
    apply IH. intros k Hk. apply (Hnone (S k)). simpl. lia.
Qed.

(** ** What the two patterns of the parser accept *)

Lemma take_app_suffix (tok rest : jsstring) :
  take (length (tok ++ rest) - length rest) (tok ++ rest) = tok.
Proof.
  rewrite length_app.
  replace (length tok + length rest - length rest)%nat with (length tok) by lia.
  by rewrite take_app_length.
Qed.

Lemma number_re_matches s cap s' cap' :
  Matches false number_re s cap s' cap' ↔
  cap' = cap ∧ ∃ tok, s = tok ++ s' ∧ numeral tok.
Proof.
  unfold number_re, numeral, digits. simpl. split.
  - intros (s1 & cap1 & Hsg & s2 & cap2 & (x & u & -> & Hx & Hu & ->) & Hfr).
    assert (∃ sg, s = sg ++ x :: u ++ s2 ∧ cap1 = cap
                  ∧ (sg = [] ∨ sg = [c_minus] ∨ sg = [c_plus]))
      as (sg & -> & -> & Hsgs).
    { destruct Hsg as [(y & -> & Hy & ->)|[<- ->]].
      - exists [y]. split; [done|]. split; [done|].
        unfold is_sign in Hy. apply orb_true_iff in Hy as [Hy|Hy];
          apply N.eqb_eq in Hy; subst; auto.
      - exists []. auto. }
    destruct Hfr as [(s3 & cap3 & (y & -> & Hy & ->) & (z & w & -> & Hz & Hw & ->))
                    |[-> ->]].
    + apply N.eqb_eq in Hy as ->.
      split; [done|]. exists (sg ++ (x :: u) ++ c_dot :: z :: w).
      split; [by rewrite <- !app_assoc|].
      exists sg, (x :: u), (c_dot :: z :: w).
      repeat split; auto.
      * simpl. by rewrite Hx.
      * right. exists (z :: w). repeat split; auto. simpl. by rewrite Hz.
    + split; [done|]. exists (sg ++ (x :: u) ++ []).
      split; [by rewrite app_nil_r, <- app_assoc|].
      exists sg, (x :: u), []. repeat split; auto. simpl. by rewrite Hx.
  - intros (-> & tok & -> & sg & ip & fr & -> & Hsg & [Hne Hip] & Hfr).
    destruct ip as [|x u]; [done|]. simpl in Hip.
    apply andb_true_iff in Hip as [Hx Hu].
    destruct Hfr as [->|(fp & -> & Hne' & Hfp)].
    + exists ((x :: u) ++ s'), cap. split.
      * destruct Hsg as [->|[->| ->]]; [right|left; eexists|left; eexists];
          rewrite app_nil_r; simpl; eauto.
      * exists s', cap. split; [exists x, u; done|]. by right.
    + destruct fp as [|z w]; [done|]. simpl in Hfp.
      apply andb_true_iff in Hfp as [Hz Hw].
      exists ((x :: u) ++ (c_dot :: z :: w) ++ s'), cap. split.
      * destruct Hsg as [->|[->| ->]]; [right|left; eexists|left; eexists];
          rewrite <- ?app_assoc; simpl; eauto.
      * exists ((c_dot :: z :: w) ++ s'), cap. split; [exists x, u; done|].
        left. exists ((z :: w) ++ s'), cap. split.
        -- exists c_dot. repeat split.
        -- exists z, w. done.
Qed.

Lemma same_char_exact x c : same_char false x c = true ↔ x = c.
Proof. unfold same_char. apply N.eqb_eq. Qed.

Lemma paren_re_matches u s' cap :
  Matches false (pattern paren_re) u None s' cap ↔
  s' = [] ∧ ∃ tok, cap = Some tok ∧ paren_annotation u tok.
Proof.
  unfold paren_re, paren_annotation, spaces, percent_opt.
  cbn [pattern Matches]. split.
  - intros (s1 & cap1 & (x & -> & Hx & ->) & s2 & cap2 & (c0 & Hnum & ->)
            & s3 & cap3 & (ws1 & -> & Hws1 & ->)
            & s4 & cap4 & Hpct
            & s5 & cap5 & (y & -> & Hy & ->)
            & s6 & cap6 & (ws2 & -> & Hws2 & ->) & -> & -> & ->).
    apply same_char_exact in Hx as ->. apply same_char_exact in Hy as ->.
    apply number_re_matches in Hnum as (-> & tok & -> & Hnum).
    rewrite take_app_suffix, app_nil_r in Hpct.
    destruct Hpct as [(z & -> & Hz & ->)|[<- ->]].
    + apply same_char_exact in Hz as ->.
      split; [done|]. exists tok. split; [done|].
      exists ws1, [c_percent], ws2. auto 6.
    + split; [done|]. exists tok. split; [done|].
      exists ws1, [], ws2. auto 6.
  - intros (-> & tok & -> & ws1 & pct & ws2 & -> & Hnum & Hws1 & Hpct & Hws2).
    exists (tok ++ ws1 ++ pct ++ c_rparen :: ws2), None.
    split; [by exists c_lparen|].
    exists (ws1 ++ pct ++ c_rparen :: ws2), (Some tok). split.
    { exists None. rewrite take_app_suffix. split; [|done].
      apply number_re_matches. eauto. }
    exists (pct ++ c_rparen :: ws2), (Some tok). split; [by exists ws1|].
    exists (c_rparen :: ws2), (Some tok). split.
    { destruct Hpct as [->| ->]; [by right|left]. by exists c_percent. }
    exists ws2, (Some tok). split; [by exists c_rparen|].
    exists [], (Some tok). split; [|done]. exists ws2. by rewrite app_nil_r.
Qed.

Lemma signed_re_matches u s' cap :
  Matches false (pattern signed_re) u None s' cap ↔
  s' = [] ∧ ∃ tok, cap = Some tok ∧ bare_annotation u tok.
Proof.
  unfold signed_re, bare_annotation, spaces, percent_opt.
  cbn [pattern Matches]. split.
  - intros (s2 & cap2 & (c0 & Hnum & ->)
            & s3 & cap3 & (ws1 & -> & Hws1 & ->)
            & s4 & cap4 & Hpct
            & s6 & cap6 & (ws2 & -> & Hws2 & ->) & -> & -> & ->).
    apply number_re_matches in Hnum as (-> & tok & -> & Hnum).
    rewrite take_app_suffix, app_nil_r in Hpct.
    destruct Hpct as [(z & -> & Hz & ->)|[<- ->]].
    + apply same_char_exact in Hz as ->.
      split; [done|]. exists tok. split; [done|].
      exists ws1, [c_percent], ws2. auto 6.
    + split; [done|]. exists tok. split; [done|].
      exists ws1, [], ws2. auto 6.
  - intros (-> & tok & -> & ws1 & pct & ws2 & -> & Hnum & Hws1 & Hpct & Hws2).
    exists (ws1 ++ pct ++ ws2), (Some tok). split.
    { exists None. rewrite take_app_suffix. split; [|done].
      apply number_re_matches. eauto. }
    exists (pct ++ ws2), (Some tok). split; [by exists ws1|].
    exists ws2, (Some tok). split.
    { destruct Hpct as [->| ->]; [by right|left]. by exists c_percent. }
    exists [], (Some tok). split; [|done]. exists ws2. by rewrite app_nil_r.
Qed.

(** ** Character classes and the shape of numbers *)

Lemma is_digit_spec c : is_digit c = true ↔ 48 ≤ c ≤ 57.
Proof. unfold is_digit. rewrite andb_true_iff, !N.leb_le. done. Qed.

Lemma is_sign_spec c : is_sign c = true ↔ c = c_minus ∨ c = c_plus.
Proof. unfold is_sign. rewrite orb_true_iff, !N.eqb_eq. done. Qed.

Lemma is_space_spec c :
  is_space c = true ↔
  9 ≤ c ≤ 13 ∨ c = 32 ∨ c = 160 ∨ c = 5760 ∨ 8192 ≤ c ≤ 8202 ∨ c = 8232
  ∨ c = 8233 ∨ c = 8239 ∨ c = 8287 ∨ c = 12288 ∨ c = 65279.
Proof.
  unfold is_space.
  rewrite !orb_true_iff, !andb_true_iff, !N.leb_le, !N.eqb_eq. tauto.
Qed.

Lemma is_numeral_char_spec c :
  is_numeral_char c = true ↔ 48 ≤ c ≤ 57 ∨ c = 45 ∨ c = 43 ∨ c = 46.
Proof.
  unfold is_numeral_char.
  rewrite !orb_true_iff, is_digit_spec, is_sign_spec, N.eqb_eq.
  unfold c_minus, c_plus, c_dot. tauto.
Qed.

Lemma forallb_app_true (p : N → bool) a b :
  forallb p (a ++ b) = true ↔ forallb p a = true ∧ forallb p b = true.
Proof. rewrite forallb_app, andb_true_iff. done. Qed.

Lemma forallb_weaken (p q : N → bool) s :
  (∀ c, p c = true → q c = true) → forallb p s = true → forallb q s = true.
Proof.
  intros Hpq. induction s as [|c s IH]; simpl; [done|].
  rewrite !andb_true_iff. intros [Hc Hs]. auto.
Qed.

Lemma numeral_chars tok :
  numeral tok → forallb is_numeral_char tok = true.
Proof.
  intros (sg & ip & fr & -> & Hsg & [_ Hip] & Hfr).
  rewrite !forallb_app_true. repeat split.
  - destruct Hsg as [->|[->| ->]]; done.
  - eapply forallb_weaken; [|exact Hip].
    intros c. rewrite is_numeral_char_spec, is_digit_spec. lia.
  - destruct Hfr as [->|(fp & -> & _ & Hfp)]; [done|]. simpl.
    eapply forallb_weaken; [|exact Hfp].
    intros c. rewrite is_numeral_char_spec, is_digit_spec. lia.
Qed.

(** A sign can only be the first character of a number. *)
Lemma numeral_tail_unsigned c t :
  numeral (c :: t) → forallb (λ x, negb (is_sign x)) t = true.
Proof.
  intros (sg & ip & fr & Heq & Hsg & [Hne Hip] & Hfr).
  assert (forallb (λ x, negb (is_sign x)) (ip ++ fr) = true) as Hrest.
  { rewrite forallb_app_true. split.
    - eapply forallb_weaken; [|exact Hip]. intros x.
      rewrite negb_true_iff, <- not_true_iff_false, is_sign_spec, is_digit_spec.
      unfold c_minus, c_plus. lia.
    - destruct Hfr as [->|(fp & -> & _ & Hfp)]; [done|]. simpl.
      eapply forallb_weaken; [|exact Hfp]. intros x.
      rewrite negb_true_iff, <- not_true_iff_false, is_sign_spec, is_digit_spec.
      unfold c_minus, c_plus. lia. }
  destruct Hsg as [->|[->| ->]]; simpl in Heq.
  - destruct ip as [|d ip]; [done|]. simpl in Heq, Hrest.
    injection Heq as -> ->. by apply andb_true_iff in Hrest as [_ ?].
  - by injection Heq as -> ->.
  - by injection Heq as -> ->.
Qed.

(** A number ends with a digit. *)
Lemma numeral_ends_with_digit tok :
  numeral tok → ∃ t d, tok = t ++ [d] ∧ is_digit d = true.
Proof.
  assert (∀ ds, digits ds → ∃ t d, ds = t ++ [d] ∧ is_digit d = true) as Hd.
  { intros ds [Hne Hds]. destruct (exists_last Hne) as (t & d & ->).
    apply forallb_app_true in Hds as [_ Hd]. simpl in Hd.
    exists t, d. split; [done|]. by destruct (is_digit d). }
  intros (sg & ip & fr & -> & Hsg & Hip & Hfr).
  destruct Hfr as [->|(fp & -> & Hfp)].
  - destruct (Hd _ Hip) as (t & d & -> & Hdig).
    exists (sg ++ t), d. by rewrite app_nil_r, app_assoc.
  - destruct (Hd _ Hfp) as (t & d & -> & Hdig).
    exists (sg ++ ip ++ c_dot :: t), d. split; [|done].
    by rewrite <- !app_assoc.
Qed.

Lemma take_while_app p a b :
  forallb p a = true →
  (∀ c b', b = c :: b' → p c = false) →
  take_while p (a ++ b) = a.
Proof.
  intros Ha Hb. induction a as [|x a IH]; simpl in *.
  - destruct b as [|c b']; [done|]. simpl. by rewrite (Hb c b').
  - apply andb_true_iff in Ha as [-> Ha]. by rewrite IH.
Qed.

Lemma skip_while_app p a b :
  forallb p a = true →
  (∀ c b', b = c :: b' → p c = false) →
  skip_while p (a ++ b) = b.
Proof.
  intros Ha Hb. induction a as [|x a IH]; simpl in *.
  - destruct b as [|c b']; [done|]. simpl. by rewrite (Hb c b').
  - apply andb_true_iff in Ha as [-> Ha]. by rewrite IH.
Qed.

(** What can follow the number of an annotation starts with a character
    that no number contains. *)
Lemma after_numeral_paren ws1 pct ws2 c b' :
  spaces ws1 → percent_opt pct →
  ws1 ++ pct ++ c_rparen :: ws2 = c :: b' → is_numeral_char c = false.
Proof.
  intros Hws1 Hpct Heq. apply not_true_iff_false. rewrite is_numeral_char_spec.
  destruct ws1 as [|x ws1]; simpl in *.
  - destruct Hpct as [->| ->]; injection Heq as <- _;
      unfold c_rparen, c_percent; lia.
  - injection Heq as <- _. apply andb_true_iff in Hws1 as [Hx _].
    apply is_space_spec in Hx. lia.
Qed.

Lemma after_numeral_bare ws1 pct ws2 c b' :
  spaces ws1 → percent_opt pct → spaces ws2 →
  ws1 ++ pct ++ ws2 = c :: b' → is_numeral_char c = false.
Proof.
  intros Hws1 Hpct Hws2 Heq. apply not_true_iff_false.
  rewrite is_numeral_char_spec.
  destruct ws1 as [|x ws1]; simpl in *.
  - destruct Hpct as [->| ->]; simpl in Heq.
    + subst ws2. simpl in Hws2. apply andb_true_iff in Hws2 as [Hx _].
      apply is_space_spec in Hx. lia.
    + injection Heq as <- _. unfold c_percent. lia.
  - injection Heq as <- _. apply andb_true_iff in Hws1 as [Hx _].
    apply is_space_spec in Hx. lia.
Qed.

(** The number of an annotation is determined by the annotation. *)
Lemma paren_annotation_unique u tok tok' :
  paren_annotation u tok → paren_annotation u tok' → tok = tok'.
Proof.
  intros (ws1 & pct & ws2 & -> & Hn & Hws1 & Hpct & _)
         (ws1' & pct' & ws2' & Heq & Hn' & Hws1' & Hpct' & _).
  injection Heq as Heq.
  rewrite <- (take_while_app is_numeral_char tok (ws1 ++ pct ++ c_rparen :: ws2)),
          <- (take_while_app is_numeral_char tok' (ws1' ++ pct' ++ c_rparen :: ws2')).
  - by rewrite Heq.
  - by apply numeral_chars.
  - intros c b'. by apply after_numeral_paren.
  - by apply numeral_chars.
  - intros c b'. by apply after_numeral_paren.
Qed.

Lemma bare_annotation_unique u tok tok' :
  bare_annotation u tok → bare_annotation u tok' → tok = tok'.
Proof.
  intros (ws1 & pct & ws2 & -> & Hn & Hws1 & Hpct & Hws2)
         (ws1' & pct' & ws2' & Heq & Hn' & Hws1' & Hpct' & Hws2').
  rewrite <- (take_while_app is_numeral_char tok (ws1 ++ pct ++ ws2)),
          <- (take_while_app is_numeral_char tok' (ws1' ++ pct' ++ ws2')).
  - by rewrite Heq.
  - by apply numeral_chars.
  - intros c b'. by apply after_numeral_bare.
  - by apply numeral_chars.
  - intros c b'. by apply after_numeral_bare.
Qed.

(** ** Where the two patterns are found *)

Lemma paren_here u tok :
  paren_annotation u tok → match_here paren_re u = Some ([], Some tok).
Proof.
  intros Hu.
  assert (Matches false (pattern paren_re) u None [] (Some tok)) as HM.
  { apply paren_re_matches. eauto. }
  destruct (match_here_complete paren_re _ _ _ HM) as [[s' cap] Heq].
  rewrite Heq. apply match_here_sound, paren_re_matches in Heq
    as (-> & tok' & -> & Hu').
  by rewrite (paren_annotation_unique _ _ _ Hu Hu').
Qed.

Lemma paren_here_inv u s' cap :
  match_here paren_re u = Some (s', cap) →
  ∃ tok, paren_annotation u tok.
Proof.
  intros Heq. apply match_here_sound, paren_re_matches in Heq
    as (_ & tok & _ & Hu). eauto.
Qed.

Lemma bare_here u tok :
  bare_annotation u tok → match_here signed_re u = Some ([], Some tok).
Proof.
  intros Hu.
  assert (Matches false (pattern signed_re) u None [] (Some tok)) as HM.
  { apply signed_re_matches. eauto. }
  destruct (match_here_complete signed_re _ _ _ HM) as [[s' cap] Heq].
  rewrite Heq. apply match_here_sound, signed_re_matches in Heq
    as (-> & tok' & -> & Hu').
  by rewrite (bare_annotation_unique _ _ _ Hu Hu').
Qed.

Lemma bare_here_inv u s' cap :
  match_here signed_re u = Some (s', cap) →
  ∃ tok, bare_annotation u tok.
Proof.
  intros Heq. apply match_here_sound, signed_re_matches in Heq
    as (_ & tok & _ & Hu). eauto.
Qed.

(** A parenthesized annotation contains exactly one opening parenthesis,
    its first character. *)
Lemma paren_annotation_lparen u tok :
  paren_annotation u tok →
  ∃ body, u = c_lparen :: body
          ∧ forallb (λ c, negb (c =? c_lparen)) body = true.
Proof.
  intros (ws1 & pct & ws2 & -> & Hn & Hws1 & Hpct & Hws2).
  eexists. split; [done|].
  rewrite !forallb_app_true. simpl. repeat split.
  - eapply forallb_weaken; [|exact (numeral_chars _ Hn)]. intros c.
    rewrite is_numeral_char_spec, negb_true_iff, N.eqb_neq.
    unfold c_lparen. lia.
  - eapply forallb_weaken; [|exact Hws1]. intros c.
    rewrite is_space_spec, negb_true_iff, N.eqb_neq. unfold c_lparen. lia.
  - destruct Hpct as [->| ->]; done.
  - eapply forallb_weaken; [|exact Hws2]. intros c.
    rewrite is_space_spec, negb_true_iff, N.eqb_neq. unfold c_lparen. lia.
Qed.

Lemma paren_annotation_leftmost x u tok tok' :
  x ≠ [] → paren_annotation u tok → ¬ paren_annotation (x ++ u) tok'.
Proof.
  intros Hx Hu Hxu.
  apply paren_annotation_lparen in Hu as (body & -> & _).
  apply paren_annotation_lparen in Hxu as (body' & Heq & Hfree).
  destruct x as [|c x]; [done|]. injection Heq as -> <-.
  rewrite forallb_app_true in Hfree. destruct Hfree as [_ Hfree].
  by simpl in Hfree.
Qed.

(** The search for the parenthesized form stops at the annotation that
    closes the text, whatever precedes it. *)
Lemma paren_search pre u tok :
  paren_annotation u tok →
  str_match (pre ++ u) paren_re
  = Some {| index := length pre; matched := length u; group1 := Some tok |}.
Proof.
  intros Hu. unfold str_match.
  rewrite (exec_from_found paren_re pre 0%nat u [] (Some tok)).
  - simpl. by rewrite Nat.sub_0_r.
  - intros k Hk.
    destruct (match_here paren_re (drop k (pre ++ u))) as [[s' cap]|] eqn:Heq;
      [|done].
    apply paren_here_inv in Heq as (tok' & Hbad).
    rewrite drop_app_le in Hbad by lia.
    exfalso. eapply paren_annotation_leftmost; [|exact Hu|exact Hbad].
    intros Hnil. apply (f_equal length) in Hnil.
    rewrite length_drop in Hnil. simpl in Hnil. lia.
  - by apply paren_here.
Qed.

Lemma paren_search_none text :
  ¬ ends_with_paren_annotation text → str_match text paren_re = None.
Proof.
  intros Hno. apply exec_from_none. intros k _.
  destruct (match_here paren_re (drop k text)) as [[s' cap]|] eqn:Heq; [|done].
  apply paren_here_inv in Heq as (tok & Hu).
  exfalso. apply Hno. exists (take k text), (drop k text), tok.
  by rewrite take_drop.
Qed.

Lemma bare_search_none text :
  ¬ ends_with_bare_annotation text → str_match text signed_re = None.
Proof.
  intros Hno. apply exec_from_none. intros k _.
  destruct (match_here signed_re (drop k text)) as [[s' cap]|] eqn:Heq; [|done].
  apply bare_here_inv in Heq as (tok & Hu).
  exfalso. apply Hno. exists (take k text), (drop k text), tok.
  by rewrite take_drop.
Qed.

(** Two ways of cutting a string into a part that ends with a digit and a
    rest without digits cut it at the same place. *)
Lemma last_digit_unique a d t a' d' t' :
  a ++ d :: t = a' ++ d' :: t' →
  is_digit d = true → is_digit d' = true →
  forallb (λ c, negb (is_digit c)) t = true →
  forallb (λ c, negb (is_digit c)) t' = true →
  a = a' ∧ d = d' ∧ t = t'.
Proof.
  intros Heq Hd Hd' Ht Ht'.
  apply (f_equal (@rev N)) in Heq.
  rewrite !rev_app_distr in Heq. simpl in Heq. rewrite <- !app_assoc in Heq.
  simpl in Heq.
  assert (rev t = rev t') as Hrev.
  { rewrite <- (take_while_app (λ c, negb (is_digit c)) (rev t) (d :: rev a)),
            <- (take_while_app (λ c, negb (is_digit c)) (rev t') (d' :: rev a')).
    - by rewrite Heq.
    - by rewrite forallb_forall in *; intros c Hc; apply Ht', in_rev.
    - intros c b' [= <- _]. by rewrite Hd'.
    - by rewrite forallb_forall in *; intros c Hc; apply Ht, in_rev.
    - intros c b' [= <- _]. by rewrite Hd. }
  rewrite Hrev in Heq. apply app_inv_head in Heq. injection Heq as Hdd Heq.
  repeat split.
  - by rewrite <- (rev_involutive a), Heq, rev_involutive.
  - done.
  - by rewrite <- (rev_involutive t), Hrev, rev_involutive.
Qed.

Lemma annotation_tail_no_digit ws1 pct ws2 :
  spaces ws1 → percent_opt pct → spaces ws2 →
  forallb (λ c, negb (is_digit c)) (ws1 ++ pct ++ ws2) = true.
Proof.
  intros Hws1 Hpct Hws2. rewrite !forallb_app_true. repeat split.
  - eapply forallb_weaken; [|exact Hws1]. intros c.
    rewrite is_space_spec, negb_true_iff, <- not_true_iff_false, is_digit_spec.
    lia.
  - destruct Hpct as [->| ->]; done.
  - eapply forallb_weaken; [|exact Hws2]. intros c.
    rewrite is_space_spec, negb_true_iff, <- not_true_iff_false, is_digit_spec.
    lia.
Qed.

(** An annotation that starts earlier in the text carries a longer
    number. *)
Lemma bare_annotation_extends x u tok tok' :
  bare_annotation u tok → bare_annotation (x ++ u) tok' → tok' = x ++ tok.
Proof.
  intros (ws1 & pct & ws2 & -> & Hn & Hws1 & Hpct & Hws2)
         (ws1' & pct' & ws2' & Heq & Hn' & Hws1' & Hpct' & Hws2').
  destruct (numeral_ends_with_digit _ Hn) as (t & d & -> & Hd).
  destruct (numeral_ends_with_digit _ Hn') as (t' & d' & -> & Hd').
  rewrite <- !app_assoc in Heq. simpl in Heq. rewrite app_assoc in Heq.
  apply last_digit_unique in Heq as (<- & <- & _);
    auto using annotation_tail_no_digit.
  by rewrite <- app_assoc.
Qed.

(** The search for the bare form stops at the longest number that closes
    the text. *)
Lemma bare_search pre u tok :
  bare_annotation u tok →
  (∀ p x, pre = p ++ x → x ≠ [] → ¬ numeral (x ++ tok)) →
  str_match (pre ++ u) signed_re
  = Some {| index := length pre; matched := length u; group1 := Some tok |}.
Proof.
  intros Hu Hmax. unfold str_match.
  rewrite (exec_from_found signed_re pre 0%nat u [] (Some tok)).
  - simpl. by rewrite Nat.sub_0_r.
  - intros k Hk.
    destruct (match_here signed_re (drop k (pre ++ u))) as [[s' cap]|] eqn:Heq;
      [|done].
    apply bare_here_inv in Heq as (tok' & Hbad).
    rewrite drop_app_le in Hbad by lia.
    pose proof (bare_annotation_extends _ _ _ _ Hu Hbad) as ->.
    exfalso. apply (Hmax (take k pre) (drop k pre)).
    + by rewrite take_drop.
    + intros Hnil. apply (f_equal length) in Hnil.
      rewrite length_drop in Hnil. simpl in Hnil. lia.
    + by destruct Hbad as (? & ? & ? & _ & ? & _).
  - by apply bare_here.
Qed.

(** ** The number written by a numeral *)

Lemma decimal_app a b :
  decimal (a ++ b) = (decimal a * 10 ^ Z.of_nat (length b) + decimal b)%Z.
Proof.
  unfold decimal. rewrite fold_left_app.
  generalize (fold_left (λ acc d, (10 * acc + digit_value d)%Z) a 0%Z).
  induction b as [|d b IH]; intros acc.
  - simpl. lia.
  - cbn [fold_left length]. rewrite IH, (IH (10 * 0 + digit_value d)%Z).
    rewrite Nat2Z.inj_succ, Z.pow_succ_r by lia. lia.
Qed.

Lemma scale10_value m (fp : jsstring) :
  (scale10 m (0 - Z.of_nat (length fp))
   == inject_Z m / inject_Z (10 ^ Z.of_nat (length fp)))%Q.
Proof.
  unfold scale10. rewrite Qred_correct.
  assert (0 < 10 ^ Z.of_nat (length fp))%Z as Hpos by (apply Z.pow_pos_nonneg; lia).
  destruct fp as [|c fp].
  - simpl. unfold Qeq, Qdiv, Qmult, Qinv, inject_Z. simpl. lia.
  - replace (0 <=? 0 - Z.of_nat (length (c :: fp)))%Z with false
      by (symmetry; apply Z.leb_gt; simpl; lia).
    replace (- (0 - Z.of_nat (length (c :: fp))))%Z
      with (Z.of_nat (length (c :: fp))) by lia.
    set (n := (10 ^ Z.of_nat (length (c :: fp)))%Z) in *.
    destruct n as [|n|n]; try lia.
    unfold Qeq, Qdiv, Qmult, Qinv, inject_Z. simpl. lia.
Qed.

(** [round_half_even n d] is an integer nearest to [n / d], and the even
    one when two are equally near. *)
Lemma round_half_even_nearest n d :
  (0 < d)%Z →
  (Z.abs (2 * (n - round_half_even n d * d)) <= d)%Z
  ∧ (Z.abs (2 * (n - round_half_even n d * d)) = d →
     Z.even (round_half_even n d) = true).
Proof.
  intros Hd. unfold round_half_even.
  pose proof (Z.div_mod n d ltac:(lia)) as Hdm.
  pose proof (Z.mod_pos_bound n d Hd) as Hr.
  set (k := (n / d)%Z) in *. set (r := (n mod d)%Z) in *.
  destruct (Z.compare_spec (2 * r) d) as [Heq|Hlt|Hgt].
  - destruct (Z.even k) eqn:Hk.
    + split; [lia|done].
    + split; [lia|]. intros _. rewrite Z.even_add, Hk. reflexivity.
  - split; lia.
  - split; lia.
Qed.

(** [floor_log2 n d] is the binary exponent of [n / d]. *)
Lemma floor_log2_spec n d :
  (0 < n)%Z → (0 < d)%Z →
  pow2_le (floor_log2 n d) n d ∧ ¬ pow2_le (floor_log2 n d + 1) n d.
Proof.
  intros Hn Hd. unfold floor_log2, pow2_le.
  destruct (Z.log2_spec n Hn) as [Hn1 Hn2].
  destruct (Z.log2_spec d Hd) as [Hd1 Hd2].
  pose proof (Z.log2_nonneg n) as Hln. pose proof (Z.log2_nonneg d) as Hld.
  set (ln := Z.log2 n) in *. set (ld := Z.log2 d) in *.
  rewrite !Z.pow_succ_r in * by lia.
  destruct (Z.leb_spec 0 (ln - ld)) as [He|He].
  - assert (2 ^ ln = 2 ^ ld * 2 ^ (ln - ld))%Z as Hsplit
      by (rewrite <- Z.pow_add_r by lia; f_equal; lia).
    assert (0 < 2 ^ (ln - ld))%Z as Hpos by (apply Z.pow_pos_nonneg; lia).
    destruct (Z.leb_spec (d * 2 ^ (ln - ld)) n) as [Ht|Ht].
    + rewrite (proj2 (Z.leb_le 0 (ln - ld))) by lia.
      rewrite (proj2 (Z.leb_le 0 (ln - ld + 1))) by lia.
      split; [lia|]. rewrite Z.pow_add_r by lia. change (2 ^ 1)%Z with 2%Z. nia.
    + replace (ln - ld - 1 + 1)%Z with (ln - ld)%Z by lia.
      rewrite (proj2 (Z.leb_le 0 (ln - ld))) by lia.
      split; [|lia].
      destruct (Z.leb_spec 0 (ln - ld - 1)) as [He'|He'].
      * assert (2 ^ (ln - ld) = 2 * 2 ^ (ln - ld - 1))%Z as Hhalf.
        { rewrite <- Z.pow_succ_r by lia. f_equal. lia. }
        nia.
      * replace (- (ln - ld - 1))%Z with 1%Z by lia.
        replace (ln - ld)%Z with 0%Z in * by lia.
        change (2 ^ 1)%Z with 2%Z. change (2 ^ 0)%Z with 1%Z in *. nia.
  - assert (2 ^ ld = 2 ^ ln * 2 ^ (- (ln - ld)))%Z as Hsplit
      by (rewrite <- Z.pow_add_r by lia; f_equal; lia).
    assert (0 < 2 ^ (- (ln - ld)))%Z as Hpos by (apply Z.pow_pos_nonneg; lia).
    destruct (Z.leb_spec d (n * 2 ^ (- (ln - ld)))) as [Ht|Ht].
    + rewrite (proj2 (Z.leb_gt 0 (ln - ld))) by lia.
      split; [lia|].
      destruct (Z.leb_spec 0 (ln - ld + 1)) as [He'|He'].
      * replace (ln - ld + 1)%Z with 0%Z by lia.
        replace (- (ln - ld))%Z with 1%Z in * by lia.
        change (2 ^ 1)%Z with 2%Z in *. change (2 ^ 0)%Z with 1%Z. nia.
      * assert (2 ^ (- (ln - ld)) = 2 * 2 ^ (- (ln - ld + 1)))%Z as Hhalf.
        { rewrite <- Z.pow_succ_r by lia. f_equal. lia. }
        nia.
    + rewrite (proj2 (Z.leb_gt 0 (ln - ld - 1))) by lia.
      replace (ln - ld - 1 + 1)%Z with (ln - ld)%Z by lia.
      rewrite (proj2 (Z.leb_gt 0 (ln - ld))) by lia.
      split; [|lia].
      replace (- (ln - ld - 1))%Z with (Z.succ (- (ln - ld))) by lia.
      rewrite Z.pow_succ_r by lia. nia.
Qed.

(** The rounding depends on the value only, not on the fraction that
    denotes it. *)
Lemma binary64_Qeq q q' : (q == q')%Q → binary64 q = binary64 q'.
Proof. intros Heq. unfold binary64. by rewrite (Qred_complete _ _ Heq). Qed.

(** Rounding gives a number, and one zero only: [|| 0] leaves it as it
    is. *)
Lemma or_zero_binary64 q : or_zero (binary64 q) = binary64 q.
Proof.
  assert (∀ negative n d,
            or_zero (binary64_of negative n d) = binary64_of negative n d)
    as Hof.
  { intros negative n d. unfold binary64_of.
    destruct (_ && _); [done|].
    unfold or_zero, num_truthy, scale2.
    match goal with |- context [Qeq_bool (Qred ?x) 0] =>
      destruct (Qeq_bool (Qred x) 0) eqn:Hz; [|done];
      apply Qeq_bool_eq in Hz; rewrite Qred_correct in Hz;
      f_equal; change 0%Q with (Qred 0); symmetry; by apply Qred_complete
    end. }
  unfold binary64. destruct (Qnum (Qred q)); [done|apply Hof|apply Hof].
Qed.

Lemma binary64_not_NaN q : binary64 q ≠ NaN.
Proof.
  unfold binary64, binary64_of.
  destruct (Qnum (Qred q)); [done| |]; by destruct (_ && _).
Qed.

Lemma round_half_even_unit n : round_half_even n 1 = n.
Proof.
  unfold round_half_even. by rewrite Z.div_1_r, Z.mod_1_r.
Qed.

Lemma Qred_inject_Z n : Qred (inject_Z n) = inject_Z n.
Proof.
  unfold Qred, inject_Z.
  pose proof (Z.ggcd_gcd n 1) as Hg.
  pose proof (Z.ggcd_correct_divisors n 1) as Hd.
  destruct (Z.ggcd n 1) as [g [a b]]. cbn [fst snd] in *.
  rewrite Z.gcd_1_r in Hg. subst g. destruct Hd as [-> Hb].
  assert (b = 1%Z) as -> by lia.
  f_equal. lia.
Qed.

Lemma scale2_integer (n k : Z) :
  (0 <= k)%Z → scale2 (n * 2 ^ k) (- k) = inject_Z n.
Proof.
  intros Hk. unfold scale2.
  assert (0 < 2 ^ k)%Z as Hpos by (apply Z.pow_pos_nonneg; lia).
  rewrite <- (Qred_inject_Z n). apply Qred_complete.
  destruct (Z.leb_spec 0 (- k)) as [H0|H0].
  - replace k with 0%Z by lia. unfold Qeq, inject_Z. simpl. lia.
  - rewrite Z.opp_involutive. unfold Qeq, inject_Z. simpl.
    rewrite Z2Pos.id by lia. lia.
Qed.

(** Integers below [2^53] in magnitude are binary64 numbers: rounding
    leaves them as they are. *)
Lemma binary64_small_integer (n : Z) :
  (Z.abs n < 2 ^ 53)%Z → binary64 (inject_Z n) = Fin (inject_Z n).
Proof.
  intros Hn.
  assert (∀ negative p,
            (Zpos p < 2 ^ 53)%Z →
            binary64_of negative (Zpos p) 1
            = Fin (inject_Z (if negative then Zneg p else Zpos p))) as Hof.
  { intros negative p Hp. unfold binary64_of.
    assert (floor_log2 (Zpos p) 1 = Z.log2 (Zpos p)) as ->.
    { unfold floor_log2. change (Z.log2 1) with 0%Z. rewrite Z.sub_0_r.
      pose proof (Z.log2_nonneg (Zpos p)).
      destruct (Z.log2_spec (Zpos p)) as [Hlo _]; [lia|].
      rewrite (proj2 (Z.leb_le 0 _)) by done.
      by rewrite (proj2 (Z.leb_le _ _)) by lia. }
    assert (Z.log2 (Zpos p) < 53)%Z as Hlog
      by (apply Z.log2_lt_pow2; lia).
    pose proof (Z.log2_nonneg (Zpos p)) as Hlog0.
    set (e := Z.log2 (Zpos p)) in *.
    rewrite Z.max_l by lia.
    destruct (Z.leb_spec 0 (e - 52)) as [He|He].
    - replace (e - 52)%Z with 0%Z by lia.
      change (2 ^ 0)%Z with 1%Z. rewrite !Z.mul_1_r, round_half_even_unit.
      rewrite (proj2 (Z.leb_gt _ _)) by lia. cbn [andb].
      replace (if negative then (- Zpos p)%Z else Zpos p)
        with ((if negative then Zneg p else Zpos p) * 2 ^ 0)%Z
        by (destruct negative; simpl; lia).
      change 0%Z with (- 0)%Z at 2. by rewrite scale2_integer.
    - cbn [andb]. rewrite round_half_even_unit.
      replace (if negative then (- (Zpos p * 2 ^ (- (e - 52))))%Z
               else (Zpos p * 2 ^ (- (e - 52)))%Z)
        with ((if negative then Zneg p else Zpos p) * 2 ^ (- (e - 52)))%Z
        by (destruct negative; lia).
      replace (e - 52)%Z with (- - (e - 52))%Z at 2 by lia.
      rewrite scale2_integer by lia. done. }
  unfold binary64.
  rewrite Qred_inject_Z.
  destruct n as [|p|p]; [done| |]; cbn [Qnum Qden inject_Z].
  - by rewrite (Hof false) by lia.
  - by rewrite (Hof true) by lia.
Qed.

Lemma scale10_reduced m e : Qred (scale10 m e) = scale10 m e.
Proof. unfold scale10. apply Qred_complete, Qred_correct. Qed.

Lemma digits_cons ds :
  digits ds → ∃ d t, ds = d :: t ∧ is_digit d = true ∧ forallb is_digit t = true.
Proof.
  intros [Hne Hds]. destruct ds as [|d t]; [done|]. simpl in Hds.
  apply andb_true_iff in Hds as [Hd Ht]. eauto.
Qed.

Lemma parse_unsigned_digits (neg : bool) ip fr fp :
  digits ip →
  (fr = [] ∧ fp = [] ∨ fr = c_dot :: fp ∧ digits fp) →
  or_zero (parse_unsigned neg (ip ++ fr))
  = binary64 (if neg then (- magnitude ip fp)%Q else magnitude ip fp).
Proof.
  intros Hip Hfr.
  destruct (digits_cons _ Hip) as (d & t & -> & Hd & Ht).
  assert (forallb is_digit fp = true) as Hfp.
  { destruct Hfr as [[_ ->]|[_ [_ ?]]]; done. }
  assert (take_while is_digit ((d :: t) ++ fr) = d :: t
          ∧ skip_while is_digit ((d :: t) ++ fr) = fr) as [Htake Hskip].
  { split; [apply take_while_app|apply skip_while_app];
      try (simpl; by rewrite Hd, Ht);
      intros c b' ->; destruct Hfr as [[? _]|[[= -> ->] _]]; done. }
  assert (fraction_part fr = (fp, [])) as Hfrac.
  { destruct Hfr as [[-> ->]|[-> _]]; [done|]. simpl.
    rewrite <- (app_nil_r fp) at 1 2.
    rewrite take_while_app, skip_while_app; done. }
  unfold parse_unsigned.
  replace (starts_with (js "Infinity") ((d :: t) ++ fr)) with false.
  2:{ apply is_digit_spec in Hd. cbn [js starts_with app map list_ascii_of_string].
      replace (N_of_ascii "I" =? d) with false; [done|].
      symmetry. apply N.eqb_neq. simpl. lia. }
  rewrite Htake, Hskip, Hfrac. cbn [app].
  change (exponent_part []) with 0%Z.
  rewrite or_zero_binary64. apply binary64_Qeq.
  rewrite scale10_value. change (d :: t ++ fp) with ((d :: t) ++ fp).
  rewrite decimal_app. unfold magnitude.
  assert (0 < 10 ^ Z.of_nat (length fp))%Z as Hpos
    by (apply Z.pow_pos_nonneg; lia).
  set (a := decimal (d :: t)). set (b := decimal fp).
  set (n := (10 ^ Z.of_nat (length fp))%Z) in *.
  destruct n as [|n|n]; try lia.
  destruct neg; unfold Qeq, Qdiv, Qmult, Qinv, Qplus, Qopp, inject_Z;
    simpl; lia.
Qed.

Lemma digit_not_other d :
  is_digit d = true →
  is_space d = false ∧ is_sign d = false
  ∧ (d =? c_minus) = false ∧ (d =? c_plus) = false.
Proof.
  rewrite is_digit_spec. intros Hd. repeat split.
  - apply not_true_iff_false. rewrite is_space_spec. lia.
  - apply not_true_iff_false. rewrite is_sign_spec. unfold c_minus, c_plus. lia.
  - apply N.eqb_neq. unfold c_minus. lia.
  - apply N.eqb_neq. unfold c_plus. lia.
Qed.

Lemma parseFloat_signed sg d rest :
  sg = [] ∨ sg = [c_minus] ∨ sg = [c_plus] → is_digit d = true →
  parseFloat (sg ++ d :: rest) = parse_unsigned (is_minus sg) (d :: rest).
Proof.
  intros Hsg Hd. destruct (digit_not_other _ Hd) as (H1 & H2 & H3 & H4).
  unfold parseFloat, trimStart.
  destruct Hsg as [->|[->| ->]]; [|done|done].
  cbn [app skip_while strip_sign]. rewrite H1. cbn [strip_sign].
  by rewrite H3, H4.
Qed.

Lemma numeral_value_signed sg d t fr fp :
  sg = [] ∨ sg = [c_minus] ∨ sg = [c_plus] →
  is_digit d = true → forallb is_digit t = true →
  fr = [] ∧ fp = [] ∨ fr = c_dot :: fp ∧ digits fp →
  numeral_value (sg ++ (d :: t) ++ fr)
  = if is_minus sg then (- magnitude (d :: t) fp)%Q else magnitude (d :: t) fp.
Proof.
  intros Hsg Hd Ht Hfr. destruct (digit_not_other _ Hd) as (H1 & H2 & H3 & H4).
  assert (take_while is_digit ((d :: t) ++ fr) = d :: t
          ∧ match skip_while is_digit ((d :: t) ++ fr) with
            | _ :: fp0 => fp0
            | [] => []
            end = fp) as [Htake Hskip].
  { split; [apply take_while_app|rewrite skip_while_app];
      try (simpl; by rewrite Hd, Ht);
      try (intros c b' ->; destruct Hfr as [[? _]|[[= -> ->] _]]; done).
    by destruct Hfr as [[-> ->]|[-> _]]. }
  unfold numeral_value.
  destruct Hsg as [->|[->| ->]].
  - change ([] ++ (d :: t) ++ fr) with (d :: (t ++ fr)).
    cbv iota. rewrite H2, H3.
    change (d :: t ++ fr) with ((d :: t) ++ fr). by rewrite Htake, Hskip.
  - change ([c_minus] ++ (d :: t) ++ fr) with (c_minus :: ((d :: t) ++ fr)).
    cbv iota. change (is_sign c_minus) with true.
    change (c_minus =? c_minus) with true. cbv iota.
    by rewrite Htake, Hskip.
  - change ([c_plus] ++ (d :: t) ++ fr) with (c_plus :: ((d :: t) ++ fr)).
    cbv iota. change (is_sign c_plus) with true.
    change (c_plus =? c_minus) with false. cbv iota.
    by rewrite Htake, Hskip.
Qed.

(** On a numeral, [parseFloat(tok) || 0] is the number written, rounded
    to binary64. *)
Lemma parseFloat_numeral tok :
  numeral tok → or_zero (parseFloat tok) = binary64 (numeral_value tok).
Proof.
  intros (sg & ip & fr & -> & Hsg & Hip & Hfr).
  assert (∃ fp, fr = [] ∧ fp = [] ∨ fr = c_dot :: fp ∧ digits fp)
    as [fp Hfr'].
  { destruct Hfr as [->|(fp & -> & Hfp)]; [exists []|exists fp]; auto. }
  pose proof (parse_unsigned_digits (is_minus sg) ip fr fp Hip Hfr') as Hcore.
  destruct (digits_cons _ Hip) as (d & t & -> & Hd & Ht).
  rewrite (numeral_value_signed sg d t fr fp) by done.
  change ((d :: t) ++ fr) with (d :: (t ++ fr)) at 1.
  rewrite parseFloat_signed by done. exact Hcore.
Qed.

Lemma exec_from_complete re pre u : ∀ i,
  is_Some (match_here re u) → is_Some (exec_from re i (pre ++ u)).
Proof.
  induction pre as [|c pre IH]; intros i [[s' cap] Hu].
  - destruct u; simpl; rewrite Hu; eauto.
  - cbn [app exec_from].
    destruct (match_here re (c :: pre ++ u)) as [[s1 cap1]|]; eauto.
Qed.

Lemma ends_with_paren_found text :
  ends_with_paren_annotation text → is_Some (str_match text paren_re).
Proof.
  intros (pre & u & tok & -> & Hu). rewrite (paren_search pre u tok Hu). eauto.
Qed.

Lemma ends_with_bare_found text :
  ends_with_bare_annotation text → is_Some (str_match text signed_re).
Proof.
  intros (pre & u & tok & -> & Hu). apply exec_from_complete.
  rewrite (bare_here u tok Hu). eauto.
Qed.

(** A number that starts with a sign is not the end of a longer number. *)
Lemma signed_numeral_longest c t x :
  is_sign c = true → x ≠ [] → ¬ numeral (x ++ c :: t).
Proof.
  intros Hc Hx Hnum. destruct x as [|y x]; [done|].
  apply numeral_tail_unsigned in Hnum.
  apply forallb_app_true in Hnum as [_ Hnum]. simpl in Hnum.
  by rewrite Hc in Hnum.
Qed.

(** * The reasoning-entry parser *)

(** The parser on a text that ends with a parenthesized annotation. *)
Lemma parse_paren pre tok ws1 pct ws2 :
  numeral tok → spaces ws1 → percent_opt pct → spaces ws2 →
  parseReasoningEntry
    (VString (pre ++ c_lparen :: tok ++ ws1 ++ pct ++ c_rparen :: ws2))
  = Ok {| rule := trim pre; weight := binary64 (numeral_value tok) |}.
Proof.
  intros Hn Hws1 Hpct Hws2. unfold parseReasoningEntry.
  rewrite (paren_search pre _ tok) by (exists ws1, pct, ws2; auto).
  unfold parse_group, slice0. cbn [index group1].
  by rewrite take_app_length, parseFloat_numeral.
Qed.

(** The parser on a text that ends with a bare annotation and with no
    parenthesized one. *)
Lemma parse_bare pre tok ws1 pct ws2 :
  numeral tok → spaces ws1 → percent_opt pct → spaces ws2 →
  ¬ ends_with_paren_annotation (pre ++ tok ++ ws1 ++ pct ++ ws2) →
  (∀ p x, pre = p ++ x → x ≠ [] → ¬ numeral (x ++ tok)) →
  parseReasoningEntry (VString (pre ++ tok ++ ws1 ++ pct ++ ws2))
  = Ok {| rule := trim pre; weight := binary64 (numeral_value tok) |}.
Proof.
  intros Hn Hws1 Hpct Hws2 Hnoparen Hmax. unfold parseReasoningEntry.
  rewrite paren_search_none by done.
  rewrite (bare_search pre _ tok) by (done || exists ws1, pct, ws2; auto).
  unfold parse_group, slice0. cbn [index group1].
  by rewrite take_app_length, parseFloat_numeral.
Qed.

Lemma parse_plain text :
  ¬ ends_with_paren_annotation text → ¬ ends_with_bare_annotation text →
  parseReasoningEntry (VString text)
  = Ok {| rule := trim text; weight := Fin 0 |}.
Proof.
  intros Hp Hb. unfold parseReasoningEntry.
  by rewrite paren_search_none, bare_search_none.
Qed.

(** The cases of the test suite (tests/parseReasoning.test.mjs) that are
    not spelled out in the theorems below, and the sample of the manual
    QA notes. *)
Example parse_unsigned_parenthetical :
  parseReasoningEntry (str "Good fortune (12.75)")
  = Ok {| rule := js "Good fortune"; weight := Fin (51 # 4) |}.
Proof. vm_compute. reflexivity. Qed.

Example parse_qa_samples :
  parseReasoningEntry (str "Positive factor (+1)")
  = Ok {| rule := js "Positive factor"; weight := Fin 1 |}
  ∧ parseReasoningEntry (str "Negative factor (-2)")
    = Ok {| rule := js "Negative factor"; weight := Fin (-2) |}
  ∧ parseReasoningEntry (str "Neutral note")
    = Ok {| rule := js "Neutral note"; weight := Fin 0 |}.
Proof. vm_compute. repeat split; reflexivity. Qed.

(** Long numbers are rounded as [parseFloat] rounds them: to the even
    neighbour on a tie, to an infinity when too large, to zero when too
    small. *)
Example parse_rounds_weight :
  parseReasoningEntry (str "big (9007199254740993)")
  = Ok {| rule := js "big"; weight := Fin 9007199254740992 |}
  ∧ parseReasoningEntry (str "tenth 0.1")
    = Ok {| rule := js "tenth";
            weight := Fin (3602879701896397 # 36028797018963968) |}
  ∧ parseReasoningEntry (VString (js "huge -" ++ repeat 57 400%nat))
    = Ok {| rule := js "huge"; weight := Inf true |}
  ∧ parseReasoningEntry (VString (js "tiny 0." ++ repeat 48 400%nat ++ js "1"))
    = Ok {| rule := js "tiny"; weight := Fin 0 |}.
Proof. vm_compute. repeat split; reflexivity. Qed.

(** C2. Of several parenthesized numeric groups only the one that closes
    the string is consumed as the weight: whatever text [pre] precedes it,
    earlier groups included, is the rule (trimmed), and the weight is the
    number written in that group, as the JavaScript number it denotes (the
    binary64 nearest to it).  In particular
    "Mixed signals (+3.5) (-4.25)" parses to the rule
    "Mixed signals (+3.5)" with weight -4.25. *)
Theorem parse_rightmost_paren_group :
  (∀ pre tok ws1 pct ws2,
     numeral tok → spaces ws1 → percent_opt pct → spaces ws2 →
     parseReasoningEntry
       (VString (pre ++ c_lparen :: tok ++ ws1 ++ pct ++ c_rparen :: ws2))
     = Ok {| rule := trim pre; weight := binary64 (numeral_value tok) |})
  ∧ parseReasoningEntry (str "Mixed signals (+3.5) (-4.25)")
    = Ok {| rule := js "Mixed signals (+3.5)"; weight := Fin (-17 # 4) |}.
Proof.
  split; [exact parse_paren|]. vm_compute. reflexivity.
Qed.

Lemma parse_rightmost_paren_group_witness :
  parseReasoningEntry
    (VString (js "Mixed signals (+3.5) "
              ++ c_lparen :: js "-4.25" ++ [] ++ [] ++ c_rparen :: []))
  = Ok {| rule := trim (js "Mixed signals (+3.5) ");
          weight := binary64 (numeral_value (js "-4.25")) |}.
Proof.
  apply (proj1 parse_rightmost_paren_group).
  - exists [c_minus], (js "4"), (js ".25"). repeat split; auto.
    right. exists (js "25"). repeat split. discriminate.
  - reflexivity.
  - left. reflexivity.
  - reflexivity.
Defined.

(** C3. On every value that is not a string the parser returns the entry
    with the empty rule and weight 0, and raises nothing. *)
Theorem parse_non_string (v : Value) :
  (∀ s, v ≠ VString s) →
  parseReasoningEntry v = Ok {| rule := []; weight := Fin 0 |}.
Proof.
  intros Hv. destruct v; try reflexivity. by destruct (Hv s).
Qed.

Lemma parse_non_string_witness :
  parseReasoningEntry (VNumber (Fin 7)) = Ok {| rule := []; weight := Fin 0 |}.
Proof.
  apply parse_non_string. intros s. discriminate.
Defined.

(** C8. When the text has no trailing parenthesized group and ends with an
    optionally signed decimal number [tok] (the whole number: no longer
    number ends at the same place), optionally followed by a percent sign,
    with optional white space, the weight is that number, as the
    JavaScript number it denotes (the binary64 nearest to it), and the
    rule is the preceding text, trimmed.  In particular
    "Loss of power -5.5%" parses to the rule "Loss of power" with weight
    -5.5. *)
Theorem parse_bare_suffix :
  (∀ pre tok ws1 pct ws2,
     numeral tok → spaces ws1 → percent_opt pct → spaces ws2 →
     ¬ ends_with_paren_annotation (pre ++ tok ++ ws1 ++ pct ++ ws2) →
     (∀ p x, pre = p ++ x → x ≠ [] → ¬ numeral (x ++ tok)) →
     parseReasoningEntry (VString (pre ++ tok ++ ws1 ++ pct ++ ws2))
     = Ok {| rule := trim pre; weight := binary64 (numeral_value tok) |})
  ∧ parseReasoningEntry (str "Loss of power -5.5%")
    = Ok {| rule := js "Loss of power"; weight := Fin (-11 # 2) |}.
Proof.
  split; [exact parse_bare|]. vm_compute. reflexivity.
Qed.

Lemma parse_bare_suffix_witness :
  parseReasoningEntry
    (VString (js "Loss of power " ++ js "-5.5" ++ [] ++ [c_percent] ++ []))
  = Ok {| rule := trim (js "Loss of power ");
          weight := binary64 (numeral_value (js "-5.5")) |}.
Proof.
  apply (proj1 parse_bare_suffix).
  - exists [c_minus], (js "5"), (js ".5"). repeat split; auto.
    right. exists (js "5"). repeat split. discriminate.
  - reflexivity.
  - right. reflexivity.
  - reflexivity.
  - intros H. apply ends_with_paren_found in H. vm_compute in H.
    destruct H as [m H]. discriminate H.
  - intros p x _ Hx. apply signed_numeral_longest; [reflexivity|exact Hx].
Defined.

(** C9. When no numeric annotation closes the string, in the parenthesized
    or in the bare form, the rule is the whole input, trimmed, and the
    weight is 0, also when a numeral stands in the middle of the text.  In
    particular "Ruler of 7 houses" keeps its text and has weight 0. *)
Theorem parse_no_annotation :
  (∀ text,
     ¬ ends_with_paren_annotation text → ¬ ends_with_bare_annotation text →
     parseReasoningEntry (VString text)
     = Ok {| rule := trim text; weight := Fin 0 |})
  ∧ parseReasoningEntry (str "Ruler of 7 houses")
    = Ok {| rule := js "Ruler of 7 houses"; weight := Fin 0 |}.
Proof.
  split; [exact parse_plain|]. vm_compute. reflexivity.
Qed.

Lemma parse_no_annotation_witness :
  parseReasoningEntry (VString (js "Ruler of 7 houses"))
  = Ok {| rule := trim (js "Ruler of 7 houses"); weight := Fin 0 |}.
Proof.
  apply (proj1 parse_no_annotation).
  - intros H. apply ends_with_paren_found in H. vm_compute in H.
    destruct H as [m H]. discriminate H.
  - intros H. apply ends_with_bare_found in H. vm_compute in H.
    destruct H as [m H]. discriminate H.
Defined.

(** * The location resolver

    ** The resolver is its fallback chain *)

Lemma dot_obj o k : dot (Ok (VObject o)) k = Ok (field (VObject o) k).
Proof. reflexivity. Qed.

Lemma qdot_ok v k : qdot (Ok v) k = Ok (field v k).
Proof. reflexivity. Qed.

Lemma dot_ok v k : nullish v = false → dot (Ok v) k = Ok (field v k).
Proof. intros H. unfold dot. simpl. by rewrite H. Qed.

Lemma orJ_ok a b : orJ (Ok a) (Ok b) = Ok (or_else a b).
Proof. unfold orJ, or_else. simpl. by destruct (truthy a). Qed.

Lemma field_truthy_parent v k : truthy (field v k) = true → nullish v = false.
Proof. by destruct v. Qed.

Lemma field_set_parent v k : nullish (field v k) = false → nullish v = false.
Proof. by destruct v. Qed.

Lemma truthy_set v : truthy v = true → nullish v = false.
Proof. by destruct v. Qed.

Ltac parent_set :=
  solve [ eassumption
        | eapply truthy_set; eassumption
        | eapply field_truthy_parent; eassumption
        | eapply field_set_parent, field_truthy_parent; eassumption
        | eapply field_set_parent, truthy_set; eassumption
        | eapply field_set_parent, field_set_parent, field_truthy_parent;
          eassumption
        | eapply field_set_parent, field_set_parent, truthy_set;
          eassumption ].

Lemma bind_and {A} a e (f : Value → Res A) :
  (andJ (Ok a) e ≫= f) = if truthy a then e ≫= f else f a.
Proof. unfold andJ. simpl. by destruct (truthy a). Qed.

Lemma and_nest a e1 e2 :
  andJ (andJ (Ok a) e1) e2 = if truthy a then andJ e1 e2 else Ok a.
Proof.
  unfold andJ. simpl. destruct (truthy a) eqn:Ha; [done|]. simpl.
  by rewrite Ha.
Qed.

Lemma neJ_ok v lit : neJ (Ok v) lit = Ok (VBool (strict_ne_str v (js lit))).
Proof. reflexivity. Qed.

Lemma typeofJ_ok v name :
  typeofJ (Ok v) name = Ok (VBool (bool_decide (typeof v = name))).
Proof. reflexivity. Qed.

Lemma bind_ok {A B} (a : A) (f : A → Res B) : (Ok a ≫= f) = f a.
Proof. reflexivity. Qed.

Ltac pure_reads :=
  rewrite ?dot_ok by parent_set; rewrite ?qdot_ok, ?orJ_ok, ?bind_ok.

Lemma truthy_guard a (b : bool) :
  truthy (if truthy a then VBool b else a) = truthy a && b.
Proof. by destruct (truthy a) eqn:Ha. Qed.

Lemma and_ok a b : andJ (Ok a) (Ok b) = Ok (if truthy a then b else a).
Proof. unfold andJ. simpl. by destruct (truthy a). Qed.

Lemma and_false a e : truthy a = false → andJ (Ok a) e = Ok a.
Proof. intros H. unfold andJ. simpl. by rewrite H. Qed.

Lemma and_true a e : truthy a = true → andJ (Ok a) e = e.
Proof. intros H. unfold andJ. simpl. by rewrite H. Qed.

Lemma from_name_eq name lat0 lon0 :
  (split_trim name ≫= λ parts,
     orJ (Ok (item parts 0)) (Ok name) ≫= λ city0,
       orJ (Ok (item parts 1)) (Ok (str "Unknown")) ≫= λ country0,
         mret {| city := city0; country := country0;
                 lat := lat0; lon := lon0 |})
  = from_name name lat0 lon0.
Proof.
  unfold from_name. destruct (split_trim name) as [parts|e]; [|done].
  rewrite !bind_ok, !orJ_ok. reflexivity.
Qed.

Lemma getLocationData_chain o :
  getLocationData (VObject o) = fallback_chain (VObject o).
Proof.
  unfold getLocationData, fallback_chain, guard1, guard2, guard3, guard4,
    guard5, guard6, named, is_object, path.
  cbn [fold_left]. rewrite !dot_obj, !qdot_ok.
  set (chart := VObject o). set (cd := field chart "chart_data").
  (* branch 1 *)
  rewrite (neJ_ok (field (field cd "location") "city")), and_ok, bind_ok,
    truthy_guard.
  destruct (truthy (field (field cd "location") "city")
            && strict_ne_str (field (field cd "location") "city")
                 (js "Unknown")) eqn:G1.
  { apply andb_true_iff in G1 as [Hcity _]. pure_reads. reflexivity. }
  clear G1.
  (* branch 2 *)
  assert ((Ok (field (field cd "timezone_info") "location")
           && typeofJ (Ok cd @. "timezone_info" @. "location") "object")%res
          = Ok (if truthy (field (field cd "timezone_info") "location")
                then VBool (bool_decide
                       (typeof (field (field cd "timezone_info") "location")
                        = "object"))
                else field (field cd "timezone_info") "location")) as ->.
  { destruct (truthy (field (field cd "timezone_info") "location")) eqn:H.
    - rewrite and_true by done. pure_reads. reflexivity.
    - by rewrite and_false. }
  rewrite bind_ok, truthy_guard.
  destruct (truthy (field (field cd "timezone_info") "location")
            && bool_decide (typeof (field (field cd "timezone_info") "location")
                            = "object")) eqn:G2.
  { apply andb_true_iff in G2 as [Hloc _]. pure_reads. reflexivity. }
  clear G2.
  (* branch 3 *)
  assert ((Ok (field (field cd "timezone_info") "location_name")
           && Ok cd @. "timezone_info" @. "location_name" !== "Unknown location"
           && Ok cd @. "timezone_info" @. "location_name" !== "Unknown")%res
          = Ok (if truthy (field (field cd "timezone_info") "location_name")
                then VBool
                  (strict_ne_str (field (field cd "timezone_info") "location_name")
                     (js "Unknown location")
                   && strict_ne_str (field (field cd "timezone_info") "location_name")
                        (js "Unknown"))
                else field (field cd "timezone_info") "location_name")) as ->.
  { rewrite and_nest.
    destruct (truthy (field (field cd "timezone_info") "location_name")) eqn:H;
      [|done].
    pure_reads. rewrite !neJ_ok, and_ok. cbn [truthy].
    by destruct (strict_ne_str _ (js "Unknown location")). }
  rewrite bind_ok, truthy_guard, andb_assoc.
  destruct (truthy (field (field cd "timezone_info") "location_name")
            && strict_ne_str (field (field cd "timezone_info") "location_name")
                 (js "Unknown location")
            && strict_ne_str (field (field cd "timezone_info") "location_name")
                 (js "Unknown")) eqn:G3.
  { apply andb_true_iff in G3 as [G3 _]. apply andb_true_iff in G3 as [Hname _].
    pure_reads. apply from_name_eq. }
  clear G3.
  (* branch 4 *)
  rewrite !(neJ_ok (field chart "location_name")), !and_ok, bind_ok.
  assert (∀ v (a b : bool),
            truthy (if truthy (if truthy v then VBool a else v)
                    then VBool b else if truthy v then VBool a else v)
            = truthy v && a && b) as Hnamed.
  { intros v a b. destruct (truthy v) eqn:Hv; cbn [truthy andb].
    - by destruct a.
    - by rewrite Hv. }
  rewrite Hnamed.
  destruct (truthy (field chart "location_name")
            && strict_ne_str (field chart "location_name")
                 (js "Unknown location")
            && strict_ne_str (field chart "location_name") (js "Unknown"))
    eqn:G4.
  { pure_reads. apply from_name_eq. }
  clear G4.
  (* branch 5 *)
  rewrite (typeofJ_ok _ "object"), and_ok, bind_ok, truthy_guard.
  destruct (truthy (field chart "location")
            && bool_decide (typeof (field chart "location") = "object")) eqn:G5.
  { apply andb_true_iff in G5 as [Hloc _]. pure_reads. reflexivity. }
  clear G5.
  (* branch 6 *)
  rewrite (typeofJ_ok _ "string"), (neJ_ok (field chart "location")), and_ok,
    bind_ok. cbn [truthy].
  assert (∀ a b : bool, truthy (if a then VBool b else VBool a) = a && b)
    as -> by (by intros [] []).
  destruct (bool_decide (typeof (field chart "location") = "string")
            && strict_ne_str (field chart "location") (js "Unknown")) eqn:G6.
  { rewrite bind_ok. apply from_name_eq. }
  clear G6.
  (* the timezone and the defaults *)
  rewrite bind_ok. unfold from_timezone.
  set (tz := field (field cd "timezone_info") "timezone").
  rewrite neJ_ok, and_ok, bind_and, truthy_guard.
  destruct (truthy tz && strict_ne_str tz (js "UTC")) eqn:G7.
  - destruct (includesJ tz c_slash) as [[]|e];
      cbn [mbind Res_bind mret Res_ret truthy].
    2,3: reflexivity.
    destruct (splitJ tz c_slash) as [parts|e]; [|reflexivity].
    rewrite !bind_ok.
    destruct (nth_error parts (length parts - 1)) as [last|]; [|reflexivity].
    rewrite !bind_ok, orJ_ok. reflexivity.
  - reflexivity.
Qed.

(** ** Splitting on a separator *)

Lemma split_free sep a : sep_free sep a → split sep a = [a].
Proof.
  unfold sep_free. induction a as [|c a IH]; simpl; [done|].
  rewrite andb_true_iff, negb_true_iff. intros [-> Ha]. by rewrite IH.
Qed.

Lemma split_app_sep sep a rest :
  sep_free sep a → split sep (a ++ sep :: rest) = a :: split sep rest.
Proof.
  unfold sep_free. induction a as [|c a IH]; simpl.
  - by rewrite N.eqb_refl.
  - rewrite andb_true_iff, negb_true_iff. intros [-> Ha]. by rewrite IH.
Qed.




(** ** Sample charts *)

Example resolve_empty_record : getLocationData (obj []) = Ok unknown_location.
Proof. vm_compute. reflexivity. Qed.

Example resolve_null_chart_data :
  getLocationData (obj [("chart_data", VNull)]) = Ok unknown_location
  ∧ getLocationData (obj [("chart_data", obj [("timezone_info", VNull)])])
    = Ok unknown_location.
Proof. vm_compute. split; reflexivity. Qed.

Example resolve_location_object :
  getLocationData
    (obj [("location",
           obj [("city", str "Paris"); ("country", str "France");
                ("lat", VNumber (Fin (4885 # 100)));
                ("lon", VNumber (Fin (235 # 100)))])])
  = Ok {| city := str "Paris"; country := str "France";
          lat := VNumber (Fin (4885 # 100));
          lon := VNumber (Fin (235 # 100)) |}.
Proof. vm_compute. reflexivity. Qed.

(** A chart that is [null] has no [chart_data] to read. *)
Example resolve_null_chart : getLocationData VNull = Throw TypeError.
Proof. reflexivity. Qed.

(** ** Every field of the result is set *)

Lemma present_truthy v : truthy v = true → present v.
Proof. by destruct v. Qed.

Lemma present_or_else a b : present b → present (or_else a b).
Proof.
  intros Hb. unfold or_else. destruct (truthy a) eqn:Ha; [|done].
  by apply present_truthy.
Qed.

Lemma split_snoc sep s : ∃ l z, split sep s = l ++ [z].
Proof.
  induction s as [|c s (l & z & IH)]; simpl.
  - by exists [], [].
  - rewrite IH. destruct (c =? sep).
    + by exists ([] :: l), z.
    + destruct l as [|seg l]; simpl.
      * by exists [], (c :: z).
      * by exists ((c :: seg) :: l), z.
Qed.

Lemma nth_error_snoc {A} (l : list A) z :
  nth_error (l ++ [z]) (length (l ++ [z]) - 1) = Some z.
Proof.
  rewrite length_app. simpl.
  replace (length l + 1 - 1)%nat with (length l) by lia.
  rewrite nth_error_app2 by lia. by rewrite Nat.sub_diag.
Qed.

Lemma from_name_complete s lat0 lon0 :
  present lat0 → present lon0 →
  ∃ r, from_name (VString s) lat0 lon0 = Ok r ∧ complete r.
Proof.
  intros Hlat Hlon. unfold from_name, split_trim. simpl.
  eexists. split; [done|]. unfold complete. simpl.
  repeat split; try apply present_or_else; done.
Qed.

Lemma from_timezone_complete tz :
  text_or_unset tz → ∃ r, from_timezone tz = Ok r ∧ complete r.
Proof.
  intros Htz. unfold from_timezone.
  destruct (truthy tz && strict_ne_str tz (js "UTC")) eqn:G;
    [|by exists unknown_location].
  apply andb_true_iff in G as [Ht _].
  destruct Htz as [[t ->]|Hf]; [|congruence].
  simpl. destruct (includes c_slash t); [|by exists unknown_location].
  destruct (split_snoc c_slash t) as (l & z & ->).
  rewrite nth_error_snoc. simpl. eexists. split; [done|].
  unfold complete. simpl. repeat split; try apply present_or_else; done.
Qed.

Lemma from_timezone_default tz :
  text_or_unset tz →
  match tz with
  | VString t =>
      truthy (VString t) && strict_ne_str (VString t) (js "UTC")
      && includes c_slash t
  | _ => false
  end = false →
  from_timezone tz = Ok unknown_location.
Proof.
  intros [[t ->]|Hf] G; unfold from_timezone.
  - destruct (truthy (VString t) && strict_ne_str (VString t) (js "UTC"));
      [|done].
    simpl in *. by rewrite G.
  - by rewrite Hf.
Qed.

(** Where the resolver does return a fully populated record: on every
    chart object whose two location names and whose timezone are strings
    whenever they are truthy, each of city, country, lat and lon is set
    (neither undefined nor null); when no branch of the fallback chain is
    satisfied the record is city "Unknown", country "Unknown", lat 0,
    lon 0. *)
Lemma resolver_complete_on_text_names (o : gmap string Value) :
  text_or_unset
    (path (VObject o) ["chart_data"; "timezone_info"; "location_name"]) →
  text_or_unset (field (VObject o) "location_name") →
  text_or_unset
    (path (VObject o) ["chart_data"; "timezone_info"; "timezone"]) →
  ∃ r, getLocationData (VObject o) = Ok r
       ∧ complete r
       ∧ (guard1 (VObject o) = false → guard2 (VObject o) = false →
          guard3 (VObject o) = false → guard4 (VObject o) = false →
          guard5 (VObject o) = false → guard6 (VObject o) = false →
          guard7 (VObject o) = false → r = unknown_location).
Proof.
  intros Hn3 Hn4 Htz. rewrite getLocationData_chain.
  set (chart := VObject o) in *. unfold fallback_chain.
  destruct (guard1 chart) eqn:G1.
  { eexists. split; [done|]. split; [|done].
    unfold guard1, path in G1. cbn [fold_left] in G1.
    apply andb_true_iff in G1 as [Hc _].
    unfold complete, path. cbn [fold_left city country lat lon].
    repeat split; first [by apply present_truthy|by apply present_or_else]. }
  destruct (guard2 chart) eqn:G2.
  { eexists. split; [done|]. split; [|done].
    unfold complete. simpl. repeat split; try apply present_or_else; done. }
  destruct (guard3 chart) eqn:G3.
  { unfold guard3, named in G3.
    apply andb_true_iff in G3 as [G3 _]. apply andb_true_iff in G3 as [Ht _].
    destruct Hn3 as [[s Hs]|Hf]; [|congruence].
    unfold path in Hs. cbn [fold_left] in Hs. unfold path. cbn [fold_left].
    rewrite Hs.
    destruct (from_name_complete s
                (or_else (field (field (field (field chart "chart_data")
                   "timezone_info") "coordinates") "latitude") zero)
                (or_else (field (field (field (field chart "chart_data")
                   "timezone_info") "coordinates") "longitude") zero))
      as (r & -> & Hr); try (apply present_or_else; done).
    exists r. split; [done|]. split; done. }
  destruct (guard4 chart) eqn:G4.
  { unfold guard4, named in G4.
    apply andb_true_iff in G4 as [G4 _]. apply andb_true_iff in G4 as [Ht _].
    destruct Hn4 as [[s Hs]|Hf]; [|congruence]. rewrite Hs.
    destruct (from_name_complete s
                (or_else (field (field (path chart ["chart_data"; "timezone_info"])
                   "coordinates") "latitude") zero)
                (or_else (field (field (path chart ["chart_data"; "timezone_info"])
                   "coordinates") "longitude") zero))
      as (r & -> & Hr); try (apply present_or_else; done).
    exists r. split; [done|]. split; done. }
  destruct (guard5 chart) eqn:G5.
  { eexists. split; [done|]. split; [|done].
    unfold complete. simpl. repeat split; try apply present_or_else; done. }
  destruct (guard6 chart) eqn:G6.
  { unfold guard6 in G6. apply andb_true_iff in G6 as [Ht _].
    apply bool_decide_eq_true in Ht.
    destruct (field chart "location") as [| | | |s| |] eqn:Hs; try done.
    destruct (from_name_complete s zero zero) as (r & -> & Hr); try done.
    exists r. split; [done|]. split; done. }
  destruct (from_timezone_complete _ Htz) as (r & Hr & Hc).
  exists r. split; [exact Hr|]. split; [exact Hc|].
  intros _ _ _ _ _ _ G7. unfold guard7 in G7.
  rewrite (from_timezone_default _ Htz G7) in Hr. congruence.
Qed.

Lemma resolver_complete_on_text_names_witness :
  ∃ r, getLocationData (VObject (list_to_map
                          [("location_name", str "Paris, France")])) = Ok r
       ∧ complete r.
Proof.
  destruct (resolver_complete_on_text_names
              (list_to_map [("location_name", str "Paris, France")]))
    as (r & Hr & Hc & _).
  - right. reflexivity.
  - left. eexists. reflexivity.
  - right. reflexivity.
  - exists r. split; [exact Hr|exact Hc].
Defined.

(** C1.  The code breaks the claim on a location name that is not a
    string.  On the chart [{ timestamp: ..., location_name: 5 }] the name
    is truthy and no placeholder, the fourth branch calls [split] on the
    number and the resolver raises a TypeError instead of returning a
    record; the payload builder, which has rendered the date by then,
    raises with it.  The sibling branch for a top-level [location] checks
    [typeof] first: on [{ timestamp: ..., location: 5 }] the resolver
    returns the all-defaults record. *)
Theorem resolver_raises_on_numeric_name :
  getLocationData
    (obj [("timestamp", VString noon); ("location_name", VNumber (Fin 5))])
  = Throw TypeError
  ∧ buildChartPayload noon_iso noon_local (λ _, js "0")
      (obj [("timestamp", VString noon); ("location_name", VNumber (Fin 5))])
      VUndefined
    = Raised TypeErrorRaised
  ∧ getLocationData
      (obj [("timestamp", VString noon); ("location", VNumber (Fin 5))])
    = Ok unknown_location.
Proof. vm_compute. repeat split; reflexivity. Qed.

(** ** Reading coordinates and city from a location object *)

Lemma or_else_first_truthy a b d :
  or_else (or_else a b) d = first_truthy a b d.
Proof.
  unfold or_else, first_truthy.
  destruct (truthy a) eqn:Ha; [by rewrite Ha|]. by destruct (truthy b) eqn:Hb; rewrite ?Hb.
Qed.

(** C4, as amended.  In each of the three branches that read a location
    object, lat is the [latitude] field when that is truthy, else the [lat]
    field when that is truthy, else 0, and lon likewise from [longitude]
    and [lon]; in the branch of the timezone-info location the city is the
    [city] field when truthy, else the [name] field when truthy, else
    "Unknown".  A full-name field that is present but falsy (such as a
    latitude of 0) therefore gives way to the abbreviated field. *)
Theorem full_name_preferred_when_truthy (o : gmap string Value) :
  let chart := VObject o in
  (guard1 chart = true →
   let loc := path chart ["chart_data"; "location"] in
   ∃ r, getLocationData chart = Ok r
        ∧ lat r = first_truthy (field loc "latitude") (field loc "lat") zero
        ∧ lon r = first_truthy (field loc "longitude") (field loc "lon") zero)
  ∧ (guard1 chart = false → guard2 chart = true →
     let loc := path chart ["chart_data"; "timezone_info"; "location"] in
     ∃ r, getLocationData chart = Ok r
          ∧ city r = first_truthy (field loc "city") (field loc "name")
                       (str "Unknown")
          ∧ lat r = first_truthy (field loc "latitude") (field loc "lat") zero
          ∧ lon r = first_truthy (field loc "longitude") (field loc "lon") zero)
  ∧ (guard1 chart = false → guard2 chart = false → guard3 chart = false →
     guard4 chart = false → guard5 chart = true →
     let loc := field chart "location" in
     ∃ r, getLocationData chart = Ok r
          ∧ lat r = first_truthy (field loc "latitude") (field loc "lat") zero
          ∧ lon r = first_truthy (field loc "longitude") (field loc "lon") zero).
Proof.
  intros chart. subst chart. rewrite getLocationData_chain.
  unfold fallback_chain. repeat split.
  - intros ->. eexists. split; [done|]. cbn [lat lon].
    by rewrite !or_else_first_truthy.
  - intros -> ->. eexists. split; [done|]. cbn [city lat lon].
    by rewrite !or_else_first_truthy.
  - intros -> -> -> -> ->. eexists. split; [done|]. cbn [lat lon].
    by rewrite !or_else_first_truthy.
Qed.

Lemma full_name_preferred_when_truthy_witness :
  ∃ r, getLocationData
         (VObject (list_to_map
            [("location",
              obj [("latitude", VNumber (Fin (4885 # 100)));
                   ("lat", VNumber (Fin 1))])])) = Ok r
       ∧ lat r = VNumber (Fin (4885 # 100)).
Proof.
  destruct (proj2 (proj2 (full_name_preferred_when_truthy
              (list_to_map
                 [("location",
                   obj [("latitude", VNumber (Fin (4885 # 100)));
                        ("lat", VNumber (Fin 1))])]))))
    as (r & Hr & Hlat & _); try reflexivity.
  exists r. split; [exact Hr|]. rewrite Hlat. reflexivity.
Defined.

(** C4 as stated fails: the object carries a [latitude] field, of value 0,
    and yet lat is read from the [lat] field. *)
Lemma zero_latitude_gives_way :
  let loc := obj [("latitude", zero); ("lat", VNumber (Fin 5))] in
  field loc "latitude" = zero
  ∧ getLocationData (obj [("location", loc)])
    = Ok {| city := str "Unknown"; country := str "Unknown";
            lat := VNumber (Fin 5); lon := zero |}.
Proof. vm_compute. split; reflexivity. Qed.

(** C5.  The code at the failing input: a top-level location that is the
    placeholder "Unknown location" is taken as a location source, whereas
    the placeholder "Unknown" falls through to the defaults. *)
Theorem placeholder_location_taken :
  getLocationData (obj [("location", str "Unknown location")])
  = Ok {| city := str "Unknown location"; country := str "Unknown";
          lat := zero; lon := zero |}
  ∧ getLocationData (obj [("location", str "Unknown")]) = Ok unknown_location.
Proof. vm_compute. split; reflexivity. Qed.

(** ** Names split on commas *)

Lemma or_else_strings t dflt :
  or_else (VString t) (VString dflt) = VString (nonempty_or t dflt).
Proof. by destruct t. Qed.

Lemma from_name_text s lat0 lon0 :
  from_name (VString s) lat0 lon0
  = Ok {| city := or_else (item (map trim (split c_comma s)) 0) (VString s);
          country := or_else (item (map trim (split c_comma s)) 1)
                       (str "Unknown");
          lat := lat0; lon := lon0 |}.
Proof. reflexivity. Qed.

(** C6, as amended.  When the resolver comma-splits a free-text location
    name [s] (the location name of the timezone info, the top-level
    location name or a top-level location that is a string) whose first
    segment is [a] and whose second segment is [b],
    the city is [a] trimmed when that is not empty and the whole string [s]
    otherwise (as for ", France"); the country is [b] trimmed when that is
    not empty and "Unknown" otherwise.  When [s] has no comma, the city is
    [s] trimmed when that is not empty and [s] itself otherwise, and the
    country is "Unknown". *)
Theorem comma_split_name (o : gmap string Value) (s : jsstring) :
  reaches_tz_name (VObject o) s ∨ reaches_top_name (VObject o) s
  ∨ reaches_location_text (VObject o) s →
  ∃ r, getLocationData (VObject o) = Ok r
       ∧ (∀ a rest, sep_free c_comma a → s = a ++ c_comma :: rest →
            city r = VString (nonempty_or (trim a) s)
            ∧ ∀ b rest', sep_free c_comma b →
                rest = b ∨ rest = b ++ c_comma :: rest' →
                country r = VString (nonempty_or (trim b) (js "Unknown")))
       ∧ (sep_free c_comma s →
            city r = VString (nonempty_or (trim s) s)
            ∧ country r = str "Unknown").
Proof.
  intros Hreach. rewrite getLocationData_chain. unfold fallback_chain.
  assert (∃ lat0 lon0,
            (if guard1 (VObject o) then _ else _)
            = from_name (VString s) lat0 lon0) as (lat0 & lon0 & ->).
  { destruct Hreach as [(-> & -> & Hs & Hn)|[(-> & -> & -> & Hs & Hn)
                         |(-> & -> & -> & -> & -> & Hs & Hn)]].
    - unfold guard3. rewrite Hs, Hn. unfold path in Hs. cbn [fold_left] in Hs.
      unfold path. cbn [fold_left]. rewrite Hs. eauto.
    - unfold guard4. rewrite Hs, Hn. eauto.
    - unfold guard6. rewrite Hs. cbn [typeof strict_ne_str].
      rewrite bool_decide_eq_true_2, bool_decide_eq_false_2 by done. eauto. }
  rewrite from_name_text. eexists. split; [done|]. cbn [city country]. split.
  - intros a rest Ha ->. rewrite split_app_sep by done. split.
    + apply or_else_strings.
    + intros b rest' Hb [-> | ->].
      * rewrite split_free by done. apply or_else_strings.
      * rewrite split_app_sep by done. apply or_else_strings.
  - intros Hs. rewrite split_free by done. split.
    + apply or_else_strings.
    + reflexivity.
Qed.

Lemma comma_split_name_witness :
  ∃ r, getLocationData
         (VObject (list_to_map [("location_name", str " Paris , France ")]))
       = Ok r
       ∧ city r = str "Paris" ∧ country r = str "France".
Proof.
  destruct (comma_split_name
              (list_to_map [("location_name", str " Paris , France ")])
              (js " Paris , France ")) as (r & Hr & Hcomma & _).
  - right. left. repeat split; reflexivity.
  - exists r. split; [exact Hr|].
    destruct (Hcomma (js " Paris ") (js " France ")) as [Hcity Hcountry];
      [reflexivity|reflexivity|].
    split; [exact Hcity|].
    apply (Hcountry (js " France ") []); [reflexivity|left; reflexivity].
Defined.

(** C6 as stated fails: the first segment of ", France" is empty and the
    city is the whole string, not the empty segment. *)
Lemma empty_first_segment_keeps_whole_name :
  map trim (split c_comma (js ", France")) = [[]; js "France"]
  ∧ getLocationData (obj [("location_name", str ", France")])
    = Ok {| city := str ", France"; country := str "France";
            lat := zero; lon := zero |}.
Proof. vm_compute. split; reflexivity. Qed.

(** ** The timezone branch *)




(** * cleanMoonText *)

(** C10.  On every argument that is not a non-empty string ([null],
    [undefined], the empty string, numbers, booleans, objects, arrays)
    [cleanMoonText] returns the argument itself, hence a value of the
    same type, which need not be a string. *)
Theorem cleanMoonText_passthrough (v : Value) :
  (∀ s, v = VString s → s = []) →
  cleanMoonText v = v ∧ typeof (cleanMoonText v) = typeof v.
Proof.
  intros Hv.
  assert (cleanMoonText v = v) as ->; [|done].
  destruct v as [| |b|n|s|o|a]; try reflexivity.
  - unfold cleanMoonText. simpl. by destruct b.
  - unfold cleanMoonText. simpl. by destruct (num_truthy n).
  - by rewrite (Hv s eq_refl).
Qed.

Lemma cleanMoonText_passthrough_witness :
  cleanMoonText (VNumber (Fin 42)) = VNumber (Fin 42)
  ∧ typeof (cleanMoonText (VNumber (Fin 42))) = typeof (VNumber (Fin 42)).
Proof.
  apply cleanMoonText_passthrough. intros s. discriminate.
Defined.

(** On a non-empty string the chain of replacements runs. *)
Example cleanMoonText_duplicates :
  cleanMoonText
    (VString (js "Void " ++ [c_moon] ++ js " Moon:  " ++ [c_moon]
              ++ js " Moon  makes   an aspect (Moon is void)  "))
  = str "Void Moon: makes an aspect".
Proof. vm_compute. reflexivity. Qed.

(** * Further properties of the parser *)

(** What a successful search returns: the leftmost position at which the
    pattern matches, and the capture of the match there. *)
Lemma exec_from_inv re s : ∀ i m,
  exec_from re i s = Some m →
  ∃ pre u s',
    s = pre ++ u ∧ index m = (i + length pre)%nat
    ∧ match_here re u = Some (s', group1 m)
    ∧ ∀ k, (k < length pre)%nat → match_here re (drop k s) = None.
Proof.
  induction s as [|c s IH]; intros i m; cbn [exec_from].
  - destruct (match_here re []) as [[s' cap]|] eqn:H; [|done].
    intros [= <-]. exists [], [], s'. cbn. repeat split; [lia|done|].
    intros k Hk. simpl in Hk. lia.
  - destruct (match_here re (c :: s)) as [[s' cap]|] eqn:H.
    + intros [= <-]. exists [], (c :: s), s'. cbn. repeat split; [lia|done|].
      intros k Hk. simpl in Hk. lia.
    + intros Hm. apply IH in Hm as (pre & u & s' & -> & Hi & Hu & Hnone).
      exists (c :: pre), u, s'. cbn [length app]. repeat split; [lia|done|].
      intros [|k] Hk; [done|]. apply Hnone. simpl in Hk. lia.
Qed.

Lemma paren_search_inv text m :
  str_match text paren_re = Some m →
  ∃ pre u tok,
    text = pre ++ u ∧ paren_annotation u tok
    ∧ index m = length pre ∧ group1 m = Some tok.
Proof.
  intros Hm. apply exec_from_inv in Hm as (pre & u & s' & -> & Hi & Hu & _).
  apply match_here_sound, paren_re_matches in Hu as (_ & tok & Hcap & Hu).
  exists pre, u, tok. auto.
Qed.

Lemma bare_search_inv text m :
  str_match text signed_re = Some m →
  ∃ pre u tok,
    text = pre ++ u ∧ bare_annotation u tok
    ∧ index m = length pre ∧ group1 m = Some tok
    ∧ ∀ p x, pre = p ++ x → x ≠ [] → ¬ numeral (x ++ tok).
Proof.
  intros Hm. apply exec_from_inv in Hm as (pre & u & s' & -> & Hi & Hu & Hleft).
  apply match_here_sound, signed_re_matches in Hu as (_ & tok & Hcap & Hu).
  exists pre, u, tok. repeat split; auto.
  intros p x -> Hx Hnum.
  assert (bare_annotation (x ++ u) (x ++ tok)) as Hbad.
  { destruct Hu as (ws1 & pct & ws2 & -> & _ & ?).
    exists ws1, pct, ws2. by rewrite <- app_assoc. }
  apply bare_here in Hbad.
  pose proof (Hleft (length p)) as Hn.
  rewrite <- app_assoc, drop_app_length, Hbad in Hn.
  assert (length p < length (p ++ x))%nat as Hlt.
  { rewrite length_app. destruct x; [done|]. simpl. lia. }
  by specialize (Hn Hlt).
Qed.

(** ** White space around the text *)

Lemma skip_while_spaces ws s :
  spaces ws → skip_while is_space (ws ++ s) = skip_while is_space s.
Proof.
  unfold spaces. induction ws as [|c ws IH]; simpl; [done|].
  rewrite andb_true_iff. intros [-> Hws]. auto.
Qed.

Lemma spaces_rev ws : spaces ws → spaces (rev ws).
Proof.
  unfold spaces. rewrite !forallb_forall. intros H c Hc. apply H.
  by apply in_rev.
Qed.

Lemma trimEnd_spaces s ws : spaces ws → trimEnd (s ++ ws) = trimEnd s.
Proof.
  intros Hws. unfold trimEnd.
  by rewrite rev_app_distr, skip_while_spaces by by apply spaces_rev.
Qed.

Lemma skip_while_spaces_r s ws :
  spaces ws →
  skip_while is_space (s ++ ws) = skip_while is_space s
  ∨ ∃ t, skip_while is_space s = t ∧ t ≠ []
         ∧ skip_while is_space (s ++ ws) = t ++ ws.
Proof.
  intros Hws. induction s as [|c s IH]; simpl.
  - left. rewrite <- (app_nil_r ws). by rewrite skip_while_spaces.
  - destruct (is_space c); [exact IH|]. right. by exists (c :: s).
Qed.

Lemma trim_spaces_l ws s : spaces ws → trim (ws ++ s) = trim s.
Proof. intros Hws. unfold trim, trimStart. by rewrite skip_while_spaces. Qed.

Lemma trim_spaces_r s ws : spaces ws → trim (s ++ ws) = trim s.
Proof.
  intros Hws. unfold trim, trimStart.
  destruct (skip_while_spaces_r s ws Hws) as [->|(t & <- & _ & ->)]; [done|].
  by apply trimEnd_spaces.
Qed.

Lemma spaces_app a b : spaces (a ++ b) ↔ spaces a ∧ spaces b.
Proof. apply forallb_app_true. Qed.

Lemma paren_annotation_pad u tok ws :
  paren_annotation u tok → spaces ws → paren_annotation (u ++ ws) tok.
Proof.
  intros (ws1 & pct & ws2 & -> & Hn & Hws1 & Hpct & Hws2) Hws.
  exists ws1, pct, (ws2 ++ ws). repeat split; try done.
  - simpl. by rewrite <- !app_assoc.
  - by apply spaces_app.
Qed.

Lemma bare_annotation_pad u tok ws :
  bare_annotation u tok → spaces ws → bare_annotation (u ++ ws) tok.
Proof.
  intros (ws1 & pct & ws2 & -> & Hn & Hws1 & Hpct & Hws2) Hws.
  exists ws1, pct, (ws2 ++ ws). repeat split; try done.
  - by rewrite <- !app_assoc.
  - by apply spaces_app.
Qed.

(** A text that ends with white space is cut after any character that is
    not white space before that white space starts. *)
Lemma cut_before_spaces (x : jsstring) c r text ws :
  (x ++ [c]) ++ r = text ++ ws → is_space c = false → spaces ws →
  ∃ k, text = (x ++ [c]) ++ k ∧ r = k ++ ws.
Proof.
  intros Heq Hc Hws.
  apply app_eq_inv in Heq as [(k & Hx & Hr)|(k & Ht & Hr)]; [|eauto].
  destruct (decide (k = [])) as [->|Hk].
  - exists []. rewrite app_nil_r in Hx. simpl in Hr. subst text ws.
    by rewrite app_nil_r.
  - exfalso. destruct (exists_last Hk) as (k' & d & ->).
    rewrite app_assoc in Hx. apply app_inj_tail in Hx as [_ <-].
    subst ws. apply spaces_app in Hws as [Hws _].
    apply spaces_app in Hws as [_ Hws]. unfold spaces in Hws. simpl in Hws.
    by rewrite Hc in Hws.
Qed.

Lemma paren_annotation_unpad text ws :
  spaces ws → ends_with_paren_annotation (text ++ ws) →
  ends_with_paren_annotation text.
Proof.
  intros Hws (pre & u & tok & Heq & ws1 & pct & ws2 & -> & Hn & Hws1 & Hpct & Hws2).
  assert ((((pre ++ c_lparen :: tok ++ ws1 ++ pct) ++ [c_rparen]) ++ ws2)
          = text ++ ws) as Heq'.
  { rewrite Heq. repeat (rewrite <- app_assoc || simpl). reflexivity. }
  apply cut_before_spaces in Heq' as (k & -> & ->); [|done..].
  apply spaces_app in Hws2 as [Hk _].
  exists pre, (c_lparen :: tok ++ ws1 ++ pct ++ c_rparen :: k), tok.
  split; [repeat (rewrite <- app_assoc || simpl); reflexivity|].
  exists ws1, pct, k. auto.
Qed.

Lemma bare_annotation_unpad text ws :
  spaces ws → ends_with_bare_annotation (text ++ ws) →
  ends_with_bare_annotation text.
Proof.
  intros Hws (pre & u & tok & Heq & ws1 & pct & ws2 & -> & Hn & Hws1 & Hpct & Hws2).
  destruct (numeral_ends_with_digit _ Hn) as (t & d & -> & Hd).
  assert (is_space d = false) as Hsp by by apply digit_not_other.
  destruct Hpct as [->| ->].
  - assert (((pre ++ t) ++ [d]) ++ (ws1 ++ ws2) = text ++ ws) as Heq'.
    { rewrite Heq. repeat (rewrite <- app_assoc || simpl). reflexivity. }
    apply cut_before_spaces in Heq' as (k & -> & Hk); [|done..].
    assert (spaces k) as Hks.
    { assert (spaces (ws1 ++ ws2)) as H by by apply spaces_app.
      rewrite Hk in H. by apply spaces_app in H as [? _]. }
    exists pre, ((t ++ [d]) ++ k), (t ++ [d]).
    split; [repeat (rewrite <- app_assoc || simpl); reflexivity|]. exists k, [], []. 
    rewrite !app_nil_r. repeat split; auto. by left.
  - assert ((((pre ++ (t ++ [d]) ++ ws1) ++ [c_percent]) ++ ws2) = text ++ ws)
      as Heq'.
    { rewrite Heq. repeat (rewrite <- app_assoc || simpl). reflexivity. }
    apply cut_before_spaces in Heq' as (k & -> & ->); [|done..].
    apply spaces_app in Hws2 as [Hk _].
    exists pre, ((t ++ [d]) ++ ws1 ++ [c_percent] ++ k), (t ++ [d]).
    split; [repeat (rewrite <- app_assoc || simpl); reflexivity|]. exists ws1, [c_percent], k.
    repeat split; auto. by right.
Qed.

Lemma exec_from_offset re s : ∀ i,
  exec_from re i s = shift_match i <$> exec_from re 0%nat s.
Proof.
  induction s as [|c s IH]; intros i; cbn [exec_from].
  - destruct (match_here re []) as [[s' cap]|]; [|done].
    cbn. unfold shift_match. cbn. do 2 f_equal. lia.
  - destruct (match_here re (c :: s)) as [[s' cap]|].
    + cbn. unfold shift_match. cbn. do 2 f_equal. lia.
    + rewrite (IH (S i)), (IH 1%nat).
      destruct (exec_from re 0%nat s) as [m|]; [|done].
      cbn. unfold shift_match. cbn. do 2 f_equal. lia.
Qed.

Lemma exec_from_skip re ws text : ∀ i,
  (∀ k, (k < length ws)%nat → match_here re (drop k (ws ++ text)) = None) →
  exec_from re i (ws ++ text) = exec_from re (i + length ws) text.
Proof.
  induction ws as [|c ws IH]; intros i Hnone.
  - cbn [app length]. by rewrite Nat.add_0_r.
  - pose proof (Hnone 0%nat ltac:(simpl; lia)) as H0.
    cbn [app exec_from length drop] in *. rewrite H0, IH.
    + f_equal. lia.
    + intros k Hk. apply (Hnone (S k)). lia.
Qed.

Lemma str_match_skip re ws text :
  (∀ k, (k < length ws)%nat → match_here re (drop k (ws ++ text)) = None) →
  str_match (ws ++ text) re = shift_match (length ws) <$> str_match text re.
Proof.
  intros Hnone. unfold str_match.
  by rewrite exec_from_skip, exec_from_offset.
Qed.

(** No annotation starts with white space. *)
Lemma numeral_starts_unspaced tok :
  numeral tok → ∃ c t, tok = c :: t ∧ is_space c = false.
Proof.
  intros Hn. pose proof (numeral_chars _ Hn) as Hchars.
  destruct (numeral_ends_with_digit _ Hn) as (t & d & Heq & _).
  destruct tok as [|c tok]; [by destruct t|].
  exists c, tok. split; [done|]. simpl in Hchars.
  apply andb_true_iff in Hchars as [Hc _].
  apply is_numeral_char_spec in Hc. apply not_true_iff_false.
  rewrite is_space_spec. lia.
Qed.

Lemma paren_spaces_none ws text k :
  spaces ws → (k < length ws)%nat →
  match_here paren_re (drop k (ws ++ text)) = None.
Proof.
  intros Hws Hk.
  destruct (match_here paren_re (drop k (ws ++ text))) as [[s' cap]|] eqn:H;
    [|done].
  apply paren_here_inv in H as (tok & ws1 & pct & ws2 & Heq & _).
  rewrite drop_app_le in Heq by lia.
  destruct (drop k ws) as [|c w] eqn:Hd.
  { apply (f_equal length) in Hd. rewrite length_drop in Hd. simpl in Hd. lia. }
  assert (spaces (drop k ws)) as Hsp.
  { rewrite <- (take_drop k ws) in Hws. by apply spaces_app in Hws as [_ ?]. }
  rewrite Hd in Hsp. unfold spaces in Hsp. simpl in Hsp.
  injection Heq as -> _. done.
Qed.

Lemma bare_spaces_none ws text k :
  spaces ws → (k < length ws)%nat →
  match_here signed_re (drop k (ws ++ text)) = None.
Proof.
  intros Hws Hk.
  destruct (match_here signed_re (drop k (ws ++ text))) as [[s' cap]|] eqn:H;
    [|done].
  apply bare_here_inv in H as (tok & ws1 & pct & ws2 & Heq & Hn & _).
  rewrite drop_app_le in Heq by lia.
  destruct (drop k ws) as [|c w] eqn:Hd.
  { apply (f_equal length) in Hd. rewrite length_drop in Hd. simpl in Hd. lia. }
  assert (spaces (drop k ws)) as Hsp.
  { rewrite <- (take_drop k ws) in Hws. by apply spaces_app in Hws as [_ ?]. }
  rewrite Hd in Hsp. unfold spaces in Hsp. simpl in Hsp.
  apply andb_true_iff in Hsp as [Hc _].
  destruct (numeral_starts_unspaced _ Hn) as (c' & t & -> & Hc').
  injection Heq as -> _. congruence.
Qed.

Lemma parse_leading_space ws text :
  spaces ws →
  parseReasoningEntry (VString (ws ++ text)) = parseReasoningEntry (VString text).
Proof.
  intros Hws. unfold parseReasoningEntry.
  rewrite !str_match_skip
    by (intros; first [by apply paren_spaces_none|by apply bare_spaces_none]).
  assert (∀ n, trim (slice0 (ws ++ text) (length ws + n))
               = trim (slice0 text n)) as Hrule.
  { intros n. unfold slice0. by rewrite take_app_add, trim_spaces_l. }
  destruct (str_match text paren_re) as [m|]; cbn [fmap option_fmap option_map].
  { unfold shift_match, parse_group. cbn [index group1]. by rewrite Hrule. }
  destruct (str_match text signed_re) as [m|]; cbn [fmap option_fmap option_map].
  { unfold shift_match, parse_group. cbn [index group1]. by rewrite Hrule. }
  by rewrite trim_spaces_l.
Qed.

Lemma parse_trailing_space text ws :
  spaces ws →
  parseReasoningEntry (VString (text ++ ws)) = parseReasoningEntry (VString text).
Proof.
  intros Hws. unfold parseReasoningEntry.
  destruct (str_match text paren_re) as [m|] eqn:Hp.
  { apply paren_search_inv in Hp as (pre & u & tok & -> & Hu & Hi & Hg).
    rewrite <- app_assoc, (paren_search pre (u ++ ws) tok)
      by by apply paren_annotation_pad.
    unfold parse_group, slice0. cbn [index group1].
    by rewrite Hi, Hg, app_assoc, take_app_length, <- app_assoc, take_app_length. }
  rewrite paren_search_none.
  2:{ intros Hbad. apply paren_annotation_unpad in Hbad; [|done].
      apply ends_with_paren_found in Hbad as [m Hm]. congruence. }
  destruct (str_match text signed_re) as [m|] eqn:Hb.
  { apply bare_search_inv in Hb as (pre & u & tok & -> & Hu & Hi & Hg & Hmax).
    rewrite <- app_assoc, (bare_search pre (u ++ ws) tok)
      by (done || by apply bare_annotation_pad).
    unfold parse_group, slice0. cbn [index group1].
    by rewrite Hi, Hg, app_assoc, take_app_length, <- app_assoc, take_app_length. }
  rewrite bare_search_none.
  2:{ intros Hbad. apply bare_annotation_unpad in Hbad; [|done].
      apply ends_with_bare_found in Hbad as [m Hm]. congruence. }
  by rewrite trim_spaces_r.
Qed.

(** X1.  White space before and after the text is insignificant: padding
    a reasoning entry with white space on either side changes neither the
    rule nor the weight that the parser returns. *)
Theorem parse_surrounding_space (ws1 text ws2 : jsstring) :
  spaces ws1 → spaces ws2 →
  parseReasoningEntry (VString (ws1 ++ text ++ ws2))
  = parseReasoningEntry (VString text).
Proof.
  intros H1 H2. by rewrite parse_leading_space, parse_trailing_space.
Qed.

Lemma parse_surrounding_space_witness :
  parseReasoningEntry (VString (js "  " ++ js "Loss of power -5.5%" ++ js " "))
  = parseReasoningEntry (VString (js "Loss of power -5.5%")).
Proof. apply parse_surrounding_space; reflexivity. Defined.

(** ** The shape of the entry *)

Lemma skip_while_starts_unspaced s : starts_unspaced (skip_while is_space s).
Proof.
  induction s as [|c s IH]; simpl; [done|].
  destruct (is_space c) eqn:Hc; [exact IH|exact Hc].
Qed.

Lemma skip_while_unspaced s :
  starts_unspaced s → skip_while is_space s = s.
Proof. destruct s as [|c s]; simpl; [done|]. by intros ->. Qed.

Lemma skip_while_keeps_last l c :
  is_space c = false → ∃ x, skip_while is_space (l ++ [c]) = x ++ [c].
Proof.
  intros Hc. induction l as [|d l IH]; simpl.
  - rewrite Hc. by exists [].
  - destruct (is_space d); [exact IH|]. by exists (d :: l).
Qed.

Lemma trimEnd_starts_unspaced s :
  starts_unspaced s → starts_unspaced (trimEnd s).
Proof.
  unfold trimEnd. destruct s as [|c s]; [done|]. simpl. intros Hc.
  destruct (skip_while_keeps_last (rev s) c Hc) as [x ->].
  by rewrite rev_app_distr.
Qed.

Lemma trim_trimmed s : trimmed (trim s).
Proof.
  unfold trim, trimmed. split.
  - apply trimEnd_starts_unspaced, skip_while_starts_unspaced.
  - unfold trimEnd. rewrite rev_involutive. apply skip_while_starts_unspaced.
Qed.

Lemma trim_fixed s : trimmed s → trim s = s.
Proof.
  intros [Hl Hr]. unfold trim, trimStart, trimEnd.
  by rewrite (skip_while_unspaced s), (skip_while_unspaced (rev s)),
    rev_involutive.
Qed.

(** X2.  Whatever value it is given, the parser returns an entry, and the
    weight of that entry is a number: it is never NaN. *)
Theorem parse_weight_is_number (v : Value) :
  ∃ r, parseReasoningEntry v = Ok r ∧ weight r ≠ NaN.
Proof.
  destruct v as [| | | |text| |]; try (eexists; split; [reflexivity|done]).
  unfold parseReasoningEntry.
  destruct (str_match text paren_re) as [m|] eqn:Hp.
  { apply paren_search_inv in Hp as (pre & u & tok & _ & Hu & _ & Hg).
    eexists. split; [reflexivity|]. unfold parse_group. cbn [weight].
    destruct Hu as (? & ? & ? & _ & Hn & _).
    rewrite Hg, parseFloat_numeral by done. apply binary64_not_NaN. }
  destruct (str_match text signed_re) as [m|] eqn:Hb.
  { apply bare_search_inv in Hb as (pre & u & tok & _ & Hu & _ & Hg & _).
    eexists. split; [reflexivity|]. unfold parse_group. cbn [weight].
    destruct Hu as (? & ? & ? & _ & Hn & _).
    rewrite Hg, parseFloat_numeral by done. apply binary64_not_NaN. }
  eexists. split; [reflexivity|done].
Qed.

(** X3.  The rule of a parsed string is a prefix of the input, trimmed: it
    carries no white space at either end (trimming it again changes
    nothing) and nothing of the text that follows the point where the
    annotation starts. *)
Theorem parse_rule_is_trimmed_prefix (text : jsstring) :
  ∃ r n, parseReasoningEntry (VString text) = Ok r
         ∧ (n ≤ length text)%nat
         ∧ rule r = trim (take n text)
         ∧ trimmed (rule r) ∧ trim (rule r) = rule r.
Proof.
  unfold parseReasoningEntry.
  destruct (str_match text paren_re) as [m|] eqn:Hp.
  { apply paren_search_inv in Hp as (pre & u & tok & -> & _ & Hi & _).
    eexists _, (index m). split; [reflexivity|]. cbn [rule]. unfold slice0.
    rewrite Hi, length_app.
    repeat split; try apply trim_trimmed; [lia|]. apply trim_fixed, trim_trimmed. }
  destruct (str_match text signed_re) as [m|] eqn:Hb.
  { apply bare_search_inv in Hb as (pre & u & tok & -> & _ & Hi & _).
    eexists _, (index m). split; [reflexivity|]. cbn [rule]. unfold slice0.
    rewrite Hi, length_app.
    repeat split; try apply trim_trimmed; [lia|]. apply trim_fixed, trim_trimmed. }
  eexists _, (length text). split; [reflexivity|]. cbn [rule].
  rewrite firstn_all.
  repeat split; try apply trim_trimmed; [lia|]. apply trim_fixed, trim_trimmed.
Qed.

(** * Further properties of cleanMoonText

    ** Global replacement *)

Lemma star_total {R} p s (x : R) :
  star p s (λ s', Some (s', x)) = Some (skip_while p s, x).
Proof.
  induction s as [|c s IH]; simpl; [done|].
  destruct (p c); [|done]. by rewrite IH.
Qed.

Lemma skip_while_suffix p s : ∃ w, s = w ++ skip_while p s ∧ forallb p w = true.
Proof.
  induction s as [|c s (w & IH & Hw)]; simpl.
  - by exists [].
  - destruct (p c) eqn:Hc.
    + exists (c :: w). simpl. rewrite Hc, Hw. split; [by f_equal|done].
    + by exists [].
Qed.

Lemma skip_while_length p s : (length (skip_while p s) ≤ length s)%nat.
Proof.
  destruct (skip_while_suffix p s) as (w & Heq & _).
  rewrite Heq at 2. rewrite length_app. lia.
Qed.

Lemma replace_from_skip re repl n : ∀ s,
  (n ≤ length s)%nat →
  replace_from re repl n s = replace_from re repl 0%nat (drop n s).
Proof.
  induction n as [|n IH]; intros s Hn; [done|].
  destruct s as [|c s]; simpl in Hn; [lia|].
  cbn [replace_from drop]. apply IH. lia.
Qed.

Lemma replace_from_no_match re repl s :
  (∀ k, match_here re (drop k s) = None) →
  replace_from re repl 0%nat s = s.
Proof.
  induction s as [|c s IH]; intros Hnone.
  - pose proof (Hnone 0%nat) as H0. cbn [drop] in H0. cbn. by rewrite H0.
  - pose proof (Hnone 0%nat) as H0. cbn [drop] in H0.
    cbn [replace_from]. rewrite H0. f_equal. apply IH.
    intros k. apply (Hnone (S k)).
Qed.

(** ** Collapsing white space *)

Lemma spaces_here c s :
  match_here spaces_re (c :: s)
  = if is_space c then Some (skip_while is_space s, None) else None.
Proof.
  unfold match_here. cbn [rmatch pattern ignoreCase spaces_re].
  destruct (is_space c); [|done]. apply star_total.
Qed.

Lemma collapse_in_run s :
  collapse true s = collapse false (skip_while is_space s).
Proof.
  induction s as [|c s IH]; simpl; [done|].
  destruct (is_space c) eqn:Hc; [exact IH|]. simpl. by rewrite Hc.
Qed.

Lemma replaceAll_spaces s :
  replaceAll s spaces_re (js " ") = collapse false s.
Proof.
  unfold replaceAll.
  induction s as [s IH] using (induction_ltof1 _ (@length N)).
  unfold ltof in IH. destruct s as [|c s]; [done|].
  cbn [replace_from]. rewrite spaces_here. cbn [collapse].
  destruct (is_space c).
  - destruct (skip_while_suffix is_space s) as (w & Hs & _).
    rewrite collapse_in_run.
    remember (skip_while is_space s) as sk eqn:Hsk. clear Hsk. subst s.
    replace (length (c :: w ++ sk) - length sk)%nat with (S (length w))
      by (simpl; rewrite length_app; lia).
    rewrite replace_from_skip by (rewrite length_app; lia).
    rewrite drop_app_length, IH; [done|]. simpl. rewrite length_app. lia.
  - rewrite IH by (simpl; lia). done.
Qed.

Lemma collapse_single_spaced s : ∀ b,
  single_spaced (collapse b s) ∧ starts_unspaced (collapse true s).
Proof.
  induction s as [|c s IH]; intros b; [done|].
  destruct (IH true) as [Ht Hu]. destruct (IH false) as [Hf _].
  cbn [collapse]. destruct (is_space c) eqn:Hc.
  - split; [|done]. destruct b; [done|]. cbn. done.
  - split; [|done]. cbn. split; [|done]. congruence.
Qed.

Lemma single_spaced_app a b :
  single_spaced (a ++ b) → single_spaced a ∧ single_spaced b.
Proof.
  induction a as [|c a IH]; [done|]. cbn. intros [Hc Hrest].
  destruct (IH Hrest) as [Ha Hb]. repeat split; try done.
  - by apply Hc.
  - destruct (Hc H) as [_ Hu]. by destruct a.
Qed.

Lemma trimEnd_prefix s : ∃ w, s = trimEnd s ++ w.
Proof.
  unfold trimEnd. destruct (skip_while_suffix is_space (rev s)) as (w & Hs & _).
  exists (rev w). by rewrite <- rev_app_distr, <- Hs, rev_involutive.
Qed.

Lemma trim_single_spaced s : single_spaced s → single_spaced (trim s).
Proof.
  intros Hs. unfold trim, trimStart.
  destruct (skip_while_suffix is_space s) as (w & Heq & _).
  rewrite Heq in Hs. apply single_spaced_app in Hs as [_ Hs].
  destruct (trimEnd_prefix (skip_while is_space s)) as [w' Heq'].
  rewrite Heq' in Hs. by apply single_spaced_app in Hs as [Hs _].
Qed.

Lemma cleanMoonText_string c s :
  cleanMoonText (VString (c :: s))
  = VString (trim (collapse false
      (replaceAll
         (replaceAll
            (replaceAll
               (replaceAll
                  (replaceAll (c :: s) void_moon_re (js "Void Moon:"))
                  glyph_moon_re (js "Moon"))
               moon_moon_re (js "Moon"))
            trailing_moon_re [])
         colon_makes_re (js ": makes")))).
Proof. unfold cleanMoonText. cbn [truthy typeof negb orb]. by rewrite replaceAll_spaces. Qed.

(** X4.  On every non-empty string [cleanMoonText] returns a string in
    white-space normal form: no white space at either end, and every white
    space character in it is a single plain space between two characters
    that are not white space. *)
Theorem cleanMoonText_normal_form (s : jsstring) :
  s ≠ [] →
  ∃ t, cleanMoonText (VString s) = VString t ∧ trimmed t ∧ single_spaced t.
Proof.
  intros Hs. destruct s as [|c s]; [done|].
  rewrite cleanMoonText_string. eexists. split; [done|]. split.
  - apply trim_trimmed.
  - apply trim_single_spaced, collapse_single_spaced.
Qed.

Lemma cleanMoonText_normal_form_witness :
  ∃ t, cleanMoonText (VString (js "  Moon  Moon :   makes  ")) = VString t
       ∧ trimmed t ∧ single_spaced t.
Proof. apply cleanMoonText_normal_form. discriminate. Defined.

(** ** The length of the result *)

Lemma Matches_min_length ic r : ∀ s cap s' cap',
  Matches ic r s cap s' cap' →
  ∃ u, s = u ++ s' ∧ (min_length r ≤ length u)%nat.
Proof.
  induction r as [|c|p|r1 IH1 r2 IH2|r1 IH1|p|p|r1 IH1|];
    cbn [Matches min_length]; intros s cap s' cap' HM.
  - destruct HM as [-> _]. by exists [].
  - destruct HM as (x & -> & _). by exists [x].
  - destruct HM as (x & -> & _). by exists [x].
  - destruct HM as (s1 & cap1 & H1 & H2).
    apply IH1 in H1 as (u1 & -> & Hu1). apply IH2 in H2 as (u2 & -> & Hu2).
    exists (u1 ++ u2). rewrite <- app_assoc, length_app. split; [done|lia].
  - destruct HM as [HM|[-> _]].
    + apply IH1 in HM as (u & -> & _). exists u. split; [done|lia].
    + exists []. split; [done|simpl; lia].
  - destruct HM as (u & -> & _). exists u. split; [done|lia].
  - destruct HM as (x & u & -> & _). exists (x :: u). split; [done|simpl; lia].
  - destruct HM as (cap1 & HM & _). by apply IH1 in HM.
  - destruct HM as (-> & -> & _). by exists [].
Qed.

Lemma match_here_length re s s' cap :
  match_here re s = Some (s', cap) →
  (length s' + min_length (pattern re) ≤ length s)%nat.
Proof.
  intros H. apply match_here_sound, Matches_min_length in H as (u & -> & Hu).
  rewrite length_app. lia.
Qed.

(** Replacing matches by something no longer than any match does not
    lengthen the text. *)
Lemma replace_from_length re repl :
  (1 ≤ min_length (pattern re))%nat →
  (length repl ≤ min_length (pattern re))%nat →
  ∀ s n, (n ≤ length s)%nat →
         (length (replace_from re repl n s) + n ≤ length s)%nat.
Proof.
  intros Hpos Hrepl. induction s as [|c s IH]; intros n Hn.
  - destruct n; [|simpl in Hn; lia]. cbn.
    destruct (match_here re []) as [[rest cap]|] eqn:H; [|simpl; lia].
    apply match_here_length in H. simpl in H. lia.
  - destruct n as [|n]; cbn [replace_from].
    + destruct (match_here re (c :: s)) as [[rest cap]|] eqn:H.
      * apply match_here_length in H. cbn [length] in *.
        destruct (S (length s) - length rest)%nat as [|k] eqn:Hk; [lia|].
        rewrite length_app. specialize (IH k ltac:(lia)). lia.
      * cbn [length]. specialize (IH 0%nat ltac:(lia)). lia.
    + cbn [length] in *. specialize (IH n ltac:(lia)). lia.
Qed.

Lemma replaceAll_length text re repl :
  (1 ≤ min_length (pattern re))%nat →
  (length repl ≤ min_length (pattern re))%nat →
  (length (replaceAll text re repl) ≤ length text)%nat.
Proof.
  intros Hpos Hrepl. unfold replaceAll.
  pose proof (replace_from_length re repl Hpos Hrepl text 0%nat ltac:(lia)). lia.
Qed.

Lemma trim_length s : (length (trim s) ≤ length s)%nat.
Proof.
  unfold trim, trimStart, trimEnd. rewrite length_rev.
  etransitivity; [apply skip_while_length|]. rewrite length_rev.
  apply skip_while_length.
Qed.

(** X5.  [cleanMoonText] never lengthens a string: each of its
    replacements puts in at most as many characters as it takes out. *)
Theorem cleanMoonText_never_longer (s : jsstring) :
  ∃ t, cleanMoonText (VString s) = VString t ∧ (length t ≤ length s)%nat.
Proof.
  destruct s as [|c s]; [by exists []|].
  unfold cleanMoonText. cbn [truthy typeof negb orb]. eexists. split; [done|].
  etransitivity; [apply trim_length|].
  repeat (etransitivity;
          [apply replaceAll_length; cbn; unfold lit; cbn; lia|]).
  done.
Qed.

(** ** Texts that mention neither the Moon nor a colon *)

Lemma canonicalize_idem c : canonicalize (canonicalize c) = canonicalize c.
Proof.
  unfold canonicalize.
  destruct ((97 <=? c) && (c <=? 122)) eqn:H; [|by rewrite H].
  apply andb_true_iff in H as [H1 H2]. apply N.leb_le in H1, H2.
  replace ((97 <=? c - 32) && (c - 32 <=? 122)) with false; [done|].
  symmetry. apply andb_false_iff. left. apply N.leb_gt. lia.
Qed.

Lemma same_char_canonical ic x c :
  same_char ic x c = true → canonicalize x = canonicalize c.
Proof.
  unfold same_char. destruct ic; intros H; apply N.eqb_eq in H; congruence.
Qed.

Lemma Matches_mentions ic k r : ∀ s cap s' cap',
  Matches ic r s cap s' cap' → mentions k r = true →
  ∃ a x b, s = a ++ x :: b ++ s' ∧ canonicalize x = k.
Proof.
  induction r as [|c|p|r1 IH1 r2 IH2|r1 IH1|p|p|r1 IH1|];
    cbn [Matches mentions]; intros s cap s' cap' HM Hk; try done.
  - destruct HM as (x & -> & Hx & _). apply N.eqb_eq in Hk.
    exists [], x, []. split; [done|].
    by rewrite (same_char_canonical _ _ _ Hx).
  - destruct HM as (s1 & cap1 & H1 & H2).
    destruct (Matches_min_length _ _ _ _ _ _ H1) as (u1 & Hu1 & _).
    destruct (Matches_min_length _ _ _ _ _ _ H2) as (u2 & Hu2 & _).
    apply orb_true_iff in Hk as [Hk|Hk].
    + destruct (IH1 _ _ _ _ H1 Hk) as (a & x & b & -> & Hx).
      exists a, x, (b ++ u2). split; [|done]. rewrite Hu2.
      repeat (rewrite <- app_assoc || simpl). reflexivity.
    + destruct (IH2 _ _ _ _ H2 Hk) as (a & x & b & Hs1 & Hx).
      exists (u1 ++ a), x, b. split; [|done]. rewrite Hu1, Hs1.
      repeat (rewrite <- app_assoc || simpl). reflexivity.
  - destruct HM as (cap1 & HM & _). eauto.
Qed.

Lemma lacks_drop k s n : lacks k s → lacks k (drop n s).
Proof.
  unfold lacks. rewrite <- (take_drop n s) at 1.
  rewrite forallb_app_true. by intros [_ ?].
Qed.

Lemma replaceAll_lacks k re repl s :
  mentions k (pattern re) = true → lacks k s → replaceAll s re repl = s.
Proof.
  intros Hk Hs. apply replace_from_no_match. intros n.
  destruct (match_here re (drop n s)) as [[s' cap]|] eqn:H; [|done].
  apply match_here_sound in H.
  destruct (Matches_mentions _ k _ _ _ _ _ H Hk) as (a & x & b & Heq & Hx).
  apply (lacks_drop k s n) in Hs. rewrite Heq in Hs. unfold lacks in Hs.
  rewrite forallb_app_true in Hs. destruct Hs as [_ Hs]. simpl in Hs.
  rewrite Hx, N.eqb_refl in Hs. done.
Qed.

(** X6.  A non-empty string that contains neither the letter M, in either
    case, nor a colon only has its white space normalised: every run of
    white space becomes one space and the white space at both ends is
    removed; nothing else is changed. *)
Theorem cleanMoonText_plain_text (s : jsstring) :
  s ≠ [] →
  lacks (N_of_ascii "M") s → lacks c_colon s →
  cleanMoonText (VString s) = VString (trim (collapse false s)).
Proof.
  intros Hne HM Hcolon. destruct s as [|c s]; [done|].
  rewrite cleanMoonText_string.
  rewrite (replaceAll_lacks (N_of_ascii "M") void_moon_re) by done.
  rewrite (replaceAll_lacks (N_of_ascii "M") glyph_moon_re) by done.
  rewrite (replaceAll_lacks (N_of_ascii "M") moon_moon_re) by done.
  rewrite (replaceAll_lacks (N_of_ascii "M") trailing_moon_re) by done.
  by rewrite (replaceAll_lacks c_colon colon_makes_re).
Qed.

Lemma cleanMoonText_plain_text_witness :
  cleanMoonText (VString (js "  Sun  in   Leo "))
  = VString (trim (collapse false (js "  Sun  in   Leo "))).
Proof. apply cleanMoonText_plain_text; [discriminate|reflexivity..]. Defined.

(** * Further properties of the location resolver *)

Lemma truthy_or_else a b : truthy b = true → truthy (or_else a b) = true.
Proof. intros Hb. unfold or_else. by destruct (truthy a) eqn:Ha. Qed.

Lemma or_else_zero a :
  or_else a zero = zero ∨ truthy (or_else a zero) = true.
Proof. unfold or_else. destruct (truthy a) eqn:Ha; auto. Qed.

Lemma from_name_inv name lat0 lon0 r :
  from_name name lat0 lon0 = Ok r →
  ∃ s parts, name = VString s
    ∧ r = {| city := or_else (item parts 0) name;
             country := or_else (item parts 1) (str "Unknown");
             lat := lat0; lon := lon0 |}.
Proof.
  unfold from_name, split_trim. destruct name; try done.
  cbn. intros [= <-]. eauto.
Qed.

Lemma from_name_raises name lat0 lon0 :
  from_name name lat0 lon0 = Throw TypeError ↔ is_text name = false.
Proof. unfold from_name, split_trim. by destruct name. Qed.

Lemma from_timezone_inv tz r :
  from_timezone tz = Ok r →
  r = unknown_location
  ∨ ∃ c parts, r = {| city := VString c;
                      country := or_else (item parts 0) (str "Unknown");
                      lat := zero; lon := zero |}.
Proof.
  unfold from_timezone.
  destruct (truthy tz && strict_ne_str tz (js "UTC")); [|intros [= <-]; auto].
  destruct (includesJ tz c_slash) as [[]|]; cbn; [|intros [= <-]; auto|done].
  destruct (splitJ tz c_slash) as [parts|]; cbn; [|done].
  destruct (nth_error parts (length parts - 1)); cbn; [|done].
  intros [= <-]. eauto.
Qed.

Lemma from_timezone_raises tz :
  from_timezone tz = Throw TypeError ↔ timezone_raises tz = true.
Proof.
  unfold from_timezone, timezone_raises.
  destruct (truthy tz && strict_ne_str tz (js "UTC")); [|done].
  destruct tz as [| |b|n|t|o|a]; cbn; try done.
  - destruct (includes c_slash t); [|done].
    destruct (split_snoc c_slash t) as (l & z & ->).
    by rewrite nth_error_snoc.
  - destruct (existsb _ a); done.
Qed.

Lemma getLocationData_non_object chart :
  (∀ o, chart ≠ VObject o) →
  getLocationData chart
  = if nullish chart then Throw TypeError else Ok unknown_location.
Proof.
  intros Hchart. destruct chart as [| |b|n|s|o|a]; try reflexivity.
  by destruct (Hchart o).
Qed.

Ltac field_ok :=
  first [ apply or_else_zero
        | by apply truthy_or_else
        | by apply present_or_else
        | by apply present_truthy
        | by apply present_truthy, truthy_or_else
        | by left
        | done ].

Lemma getLocationData_fields_set (chart : Value) (r : ResolvedLocation) :
  getLocationData chart = Ok r →
  present (city r) ∧ truthy (country r) = true
  ∧ (lat r = zero ∨ truthy (lat r) = true)
  ∧ (lon r = zero ∨ truthy (lon r) = true).
Proof.
  assert ((∃ o, chart = VObject o) ∨ ∀ o, chart ≠ VObject o) as [[o ->]|Hno]
    by (destruct chart; eauto).
  2:{ rewrite getLocationData_non_object by done.
      destruct (nullish chart); [done|]. intros [= <-].
      unfold unknown_location, present. cbn. auto. }
  rewrite getLocationData_chain. unfold fallback_chain.
  destruct (guard1 (VObject o)) eqn:G1.
  { intros [= <-]. cbn [city country lat lon].
    unfold guard1 in G1. apply andb_true_iff in G1 as [Hc _].
    repeat split; field_ok. }
  destruct (guard2 (VObject o)) eqn:G2.
  { intros [= <-]. cbn [city country lat lon].
    repeat split; field_ok. }
  destruct (guard3 (VObject o)) eqn:G3.
  { intros H. apply from_name_inv in H as (s & parts & Hs & ->).
    cbn [city country lat lon]. rewrite Hs.
    repeat split; field_ok. }
  destruct (guard4 (VObject o)) eqn:G4.
  { intros H. apply from_name_inv in H as (s & parts & Hs & ->).
    cbn [city country lat lon]. rewrite Hs.
    repeat split; field_ok. }
  destruct (guard5 (VObject o)) eqn:G5.
  { intros [= <-]. cbn [city country lat lon].
    repeat split; field_ok. }
  destruct (guard6 (VObject o)) eqn:G6.
  { intros H. apply from_name_inv in H as (s & parts & Hs & ->).
    cbn [city country lat lon]. rewrite Hs.
    repeat split; field_ok. }
  intros H. apply from_timezone_inv in H as [->|(c & parts & ->)].
  - unfold unknown_location, present. cbn. auto.
  - cbn [city country lat lon]. repeat split; field_ok.
Qed.

(** X7.  Whenever the resolver returns a record, whatever the chart: the
    country is truthy (never an empty string), lat and lon are each either
    0 or a truthy value (never NaN, null or an empty string), and the city
    is set. *)
Theorem resolver_result_invariant (chart : Value) (r : ResolvedLocation) :
  getLocationData chart = Ok r →
  present (city r) ∧ truthy (country r) = true
  ∧ (lat r = zero ∨ truthy (lat r) = true)
  ∧ (lon r = zero ∨ truthy (lon r) = true).
Proof. apply getLocationData_fields_set. Qed.

Lemma resolver_result_invariant_witness :
  let r := {| city := str "Paris"; country := str "Unknown";
              lat := zero; lon := VNumber (Fin (235 # 100)) |} in
  present (city r) ∧ truthy (country r) = true
  ∧ (lat r = zero ∨ truthy (lat r) = true)
  ∧ (lon r = zero ∨ truthy (lon r) = true).
Proof.
  apply (resolver_result_invariant
           (VObject (list_to_map
              [("location",
                obj [("city", str "Paris"); ("country", str "");
                     ("latitude", VNumber NaN);
                     ("lon", VNumber (Fin (235 # 100)))])]))).
  vm_compute. reflexivity.
Defined.

(** X8.  On a chart object the resolver raises exactly when the branch it
    reaches calls a string method on something that is not a string: the
    location name of the timezone info or the top-level location name is
    truthy, no placeholder and not a string, or no earlier branch is
    satisfied and the timezone is truthy, not "UTC" and neither a string
    nor an array without the element "/".  In every other case it returns
    a record. *)
Theorem resolver_raises_iff (o : gmap string Value) :
  (getLocationData (VObject o) = Throw TypeError
   ↔ raises (VObject o) = true)
  ∧ ((∃ r, getLocationData (VObject o) = Ok r)
     ↔ raises (VObject o) = false).
Proof.
  assert (getLocationData (VObject o) = Throw TypeError
          ↔ raises (VObject o) = true) as Hiff.
  { rewrite getLocationData_chain. unfold fallback_chain, raises.
    destruct (guard1 (VObject o)); [done|].
    destruct (guard2 (VObject o)); [done|].
    destruct (guard3 (VObject o)).
    { rewrite from_name_raises. by rewrite negb_true_iff. }
    destruct (guard4 (VObject o)).
    { rewrite from_name_raises. by rewrite negb_true_iff. }
    destruct (guard5 (VObject o)); [done|].
    destruct (guard6 (VObject o)) eqn:G6; [|apply from_timezone_raises].
    rewrite from_name_raises. unfold guard6 in G6.
    apply andb_true_iff in G6 as [G6 _]. apply bool_decide_eq_true in G6.
    by destruct (field (VObject o) "location"). }
  split; [exact Hiff|].
  destruct (getLocationData (VObject o)) as [r|[]] eqn:H.
  - split; [|eauto]. intros _. apply not_true_iff_false.
    rewrite <- Hiff. done.
  - split.
    + intros [r Hr]. done.
    + intros Hf. destruct Hiff as [Hiff _]. rewrite Hiff in Hf; done.
Qed.

(** X10.  The coordinates of the branches that split a name.  For the two
    location names lat and lon are the [latitude] and [longitude] fields of
    [chart_data.timezone_info.coordinates] when those are truthy, and 0
    otherwise (the abbreviations [lat] and [lon] are not consulted there);
    for a top-level location that is a string they are always 0. *)
Theorem name_branch_coordinates (o : gmap string Value) (s : jsstring) :
  let coords :=
    path (VObject o) ["chart_data"; "timezone_info"; "coordinates"] in
  (reaches_tz_name (VObject o) s ∨ reaches_top_name (VObject o) s →
   ∃ r, getLocationData (VObject o) = Ok r
        ∧ lat r = or_else (field coords "latitude") zero
        ∧ lon r = or_else (field coords "longitude") zero)
  ∧ (reaches_location_text (VObject o) s →
     ∃ r, getLocationData (VObject o) = Ok r ∧ lat r = zero ∧ lon r = zero).
Proof.
  intros coords. subst coords. rewrite getLocationData_chain.
  unfold fallback_chain, path. cbn [fold_left]. split.
  - intros [(-> & -> & Hs & Hn)|(-> & -> & -> & Hs & Hn)].
    + unfold guard3. rewrite Hs, Hn. unfold path in Hs. cbn [fold_left] in Hs.
      rewrite Hs, from_name_text. eauto.
    + unfold guard4. rewrite Hs, Hn, from_name_text. eauto.
  - intros (-> & -> & -> & -> & -> & Hs & Hn).
    unfold guard6. rewrite Hs. cbn [typeof strict_ne_str].
    rewrite bool_decide_eq_true_2, bool_decide_eq_false_2 by done.
    cbn [negb andb]. rewrite from_name_text. eauto.
Qed.

Lemma name_branch_coordinates_witness :
  ∃ r, getLocationData
         (VObject (list_to_map
            [("location_name", str "Paris, France");
             ("chart_data",
              obj [("timezone_info",
                    obj [("coordinates",
                          obj [("latitude", VNumber (Fin (4885 # 100)));
                               ("lon", VNumber (Fin (235 # 100)))])])])]))
       = Ok r
       ∧ lat r = VNumber (Fin (4885 # 100)) ∧ lon r = zero.
Proof.
  destruct (proj1 (name_branch_coordinates
              (list_to_map
                 [("location_name", str "Paris, France");
                  ("chart_data",
                   obj [("timezone_info",
                         obj [("coordinates",
                               obj [("latitude", VNumber (Fin (4885 # 100)));
                                    ("lon", VNumber (Fin (235 # 100)))])])])])
              (js "Paris, France")))
    as (r & Hr & Hlat & Hlon).
  - right. repeat split; reflexivity.
  - exists r. split; [exact Hr|]. rewrite Hlat, Hlon. split; reflexivity.
Defined.

(** X11.  City and country in the branches that read a location object.
    The country is the [country] field when truthy and "Unknown"
    otherwise.  The city of an explicit [chart_data.location] is its [city]
    field as it is; the city of a top-level location object is its [city]
    field when truthy and "Unknown" otherwise, its [name] field not being
    consulted. *)
Theorem location_object_city_country (o : gmap string Value) :
  let chart := VObject o in
  (guard1 chart = true →
   let loc := path chart ["chart_data"; "location"] in
   ∃ r, getLocationData chart = Ok r
        ∧ city r = field loc "city"
        ∧ country r = or_else (field loc "country") (str "Unknown"))
  ∧ (guard1 chart = false → guard2 chart = true →
     let loc := path chart ["chart_data"; "timezone_info"; "location"] in
     ∃ r, getLocationData chart = Ok r
          ∧ country r = or_else (field loc "country") (str "Unknown"))
  ∧ (guard1 chart = false → guard2 chart = false → guard3 chart = false →
     guard4 chart = false → guard5 chart = true →
     let loc := field chart "location" in
     ∃ r, getLocationData chart = Ok r
          ∧ city r = or_else (field loc "city") (str "Unknown")
          ∧ country r = or_else (field loc "country") (str "Unknown")).
Proof.
  intros chart. subst chart. rewrite getLocationData_chain.
  unfold fallback_chain. repeat split.
  - intros ->. eexists. split; [done|]. done.
  - intros -> ->. eexists. split; [done|]. done.
  - intros -> -> -> -> ->. eexists. split; [done|]. done.
Qed.

Lemma location_object_city_country_witness :
  ∃ r, getLocationData
         (VObject (list_to_map
            [("location", obj [("name", str "Paris")])])) = Ok r
       ∧ city r = str "Unknown" ∧ country r = str "Unknown".
Proof.
  destruct (proj2 (proj2 (location_object_city_country
              (list_to_map [("location", obj [("name", str "Paris")])]))))
    as (r & Hr & Hcity & Hcountry); try reflexivity.
  exists r. split; [exact Hr|]. rewrite Hcity, Hcountry. split; reflexivity.
Defined.

(** * Facts about the payload builder *)

Lemma filterJ_inv (f : Value → Res bool) l kept :
  filterJ f l = Ok kept →
  Forall (λ x, ∃ b, f x = Ok b) l
  ∧ (length kept ≤ length l)%nat
  ∧ ∀ x, x ∈ kept → x ∈ l ∧ f x = Ok true.
Proof.
  revert kept. induction l as [|x l IH]; intros kept; cbn [filterJ].
  { intros [= <-]. split; [constructor|]. split; [done|].
    intros x Hx. by apply elem_of_nil in Hx. }
  destruct (f x) as [b|[]] eqn:Hfx; [|done].
  cbn [mbind Res_bind].
  destruct (filterJ f l) as [rest|[]]; [|done].
  destruct (IH rest eq_refl) as (Hall & Hlen & Hin).
  cbn [mbind Res_bind mret Res_ret]. intros [= <-].
  split; [constructor; eauto|].
  destruct b; cbn [length]; (split; [lia|]); intros y Hy.
  - apply elem_of_cons in Hy as [->|Hy].
    + split; [left|done].
    + destruct (Hin y Hy). split; [by right|done].
  - destruct (Hin y Hy). split; [by right|done].
Qed.

Lemma filterJ_total (f : Value → Res bool) l :
  Forall (λ x, ∃ b, f x = Ok b) l → ∃ kept, filterJ f l = Ok kept.
Proof.
  induction 1 as [|x l [b Hb] _ [rest IH]]; cbn [filterJ]; [by eexists|].
  rewrite Hb, IH. cbn [mbind Res_bind mret Res_ret]. by eexists.
Qed.

Lemma filterJ_sublist (f : Value → Res bool) l kept :
  filterJ f l = Ok kept → sublist kept l.
Proof.
  revert kept. induction l as [|x l IH]; intros kept; cbn [filterJ].
  { by intros [= <-]. }
  destruct (f x) as [b|[]]; [|done]. cbn [mbind Res_bind].
  destruct (filterJ f l) as [rest|[]]; [|done].
  cbn [mbind Res_bind mret Res_ret]. intros [= <-].
  destruct b; [apply sublist_skip|apply sublist_cons]; by apply IH.
Qed.

Lemma mapJ_inv {A} (f : Value → Res A) l ys :
  mapJ f l = Ok ys → Forall2 (λ x y, f x = Ok y) l ys.
Proof.
  revert ys. induction l as [|x l IH]; intros ys; cbn [mapJ].
  { intros [= <-]. constructor. }
  destruct (f x) as [y|[]] eqn:Hfx; [|done]. cbn [mbind Res_bind].
  destruct (mapJ f l) as [rest|[]]; [|done].
  cbn [mbind Res_bind mret Res_ret]. intros [= <-].
  constructor; [done|]. by apply IH.
Qed.

Lemma mapJ_total {A} (f : Value → Res A) l :
  Forall (λ x, ∃ y, f x = Ok y) l → ∃ ys, mapJ f l = Ok ys.
Proof.
  induction 1 as [|x l [y Hy] _ [rest IH]]; cbn [mapJ]; [by eexists|].
  rewrite Hy, IH. cbn [mbind Res_bind mret Res_ret]. by eexists.
Qed.

(** Only strings and arrays have an [includes] method. *)
Lemma is_key_testimony_inv r b :
  is_key_testimony r = Ok b → is_text r || is_list r = true.
Proof. by destruct r. Qed.

Lemma is_key_testimony_text s : ∃ b, is_key_testimony (VString s) = Ok b.
Proof.
  unfold is_key_testimony, includes_text. cbn [mbind Res_bind].
  repeat (match goal with |- context [contains ?n s] =>
            destruct (contains n s) end; [by eexists|]).
  by eexists.
Qed.

Lemma cleanMoonText_text s : ∃ t, cleanMoonText (VString s) = VString t.
Proof.
  destruct s as [|c s]; [by eexists|]. rewrite cleanMoonText_string.
  by eexists.
Qed.

Ltac payload_fields :=
  cbn [id question category asked_at_local asked_at_utc tz location
       house_system houses rulers aspects planets traditional_factors
       solar_factors reasoning ledger verdict key_testimonies
       keyTestimoniesText strip_verdict].

Section PayloadFacts.
Context (toISOString : Value → Outcome jsstring).
Context (toLocaleString : Value → Value → Outcome jsstring).
Context (number_to_string : JsNum → jsstring).

Local Abbreviation build :=
  (buildChartPayload toISOString toLocaleString number_to_string).
Local Abbreviation render := (testimony number_to_string).

Lemma testimony_text s : ∃ t, render (VString s) = Ok (bullet ++ t).
Proof.
  unfold testimony. destruct (cleanMoonText_text s) as [t ->].
  cbn. by eexists.
Qed.

Lemma testimony_inv r k :
  render r = Ok k →
  ∃ t, to_string number_to_string (cleanMoonText r) = Ok t ∧ k = bullet ++ t.
Proof.
  unfold testimony.
  destruct (to_string number_to_string (cleanMoonText r)) as [t|[]]; [|done].
  cbn [mbind Res_bind mret Res_ret]. intros [= <-]. by eexists.
Qed.

(** Where the date is read from. *)
Lemma instant_read chart :
  (if truthy (path chart ["chart_data"; "timezone_info"; "utc_time"])
   then Done (path chart ["chart_data"; "timezone_info"; "utc_time"])
   else lift_res (dot (Ok chart) "timestamp"))
  = if nullish chart then Raised TypeErrorRaised
    else Done (instant_source chart).
Proof.
  unfold instant_source, or_else.
  destruct chart; try reflexivity;
    by destruct (truthy _).
Qed.

(** What a returned payload tells about the run that built it. *)
Lemma build_inv chart includeVerdict p :
  build chart includeVerdict = Done p →
  nullish chart = false
  ∧ toISOString (instant_source chart) = Done (asked_at_utc p)
  ∧ toLocaleString (instant_source chart) (tz p) = Done (asked_at_local p)
  ∧ getLocationData chart = Ok (location p)
  ∧ strip_verdict p
    = {| id := field chart "id";
         question := field chart "question";
         category := or_else (first_item (field chart "tags")) (str "general");
         asked_at_local := asked_at_local p;
         asked_at_utc := asked_at_utc p;
         tz := or_else (path chart ["chart_data"; "timezone_info"; "timezone"])
                 (str "UTC");
         location := location p;
         house_system := str "Regiomontanus";
         houses := or_else (path chart ["chart_data"; "houses"]) (VObject ∅);
         rulers := or_else (path chart ["chart_data"; "rulers"]) (VObject ∅);
         aspects := or_else (path chart ["chart_data"; "aspects"]) (VArray []);
         planets := or_else (path chart ["chart_data"; "planets"]) (VObject ∅);
         traditional_factors :=
           or_else (field chart "traditional_factors") (VObject ∅);
         solar_factors := or_else (field chart "solar_factors") (VObject ∅);
         reasoning :=
           or_else (or_else (field chart "ledger") VNull)
             (rationale_entries chart);
         ledger := if truthy (or_else (field chart "ledger") VNull)
                   then Some (or_else (field chart "ledger") VNull) else None;
         verdict := None;
         key_testimonies := None;
         keyTestimoniesText := None |}
  ∧ if verdict_requested includeVerdict
    then ∃ entries kept ks,
        rationale_entries chart = VArray entries
        ∧ filterJ is_key_testimony entries = Ok kept
        ∧ mapJ render (take 5 kept) = Ok ks
        ∧ verdict p = Some {| label := field chart "judgment";
                              confidence := field chart "confidence";
                              rationale := map cleanMoonText entries |}
        ∧ key_testimonies p = Some ks
        ∧ keyTestimoniesText p = Some (join [10] ks)
    else verdict p = None ∧ key_testimonies p = None
         ∧ keyTestimoniesText p = None.
Proof.
  unfold buildChartPayload. rewrite instant_read.
  destruct (nullish chart) eqn:Hchart; [done|].
  cbn [mbind Outcome_bind].
  destruct (toISOString (instant_source chart)) as [utc|]; [|done].
  cbn [mbind Outcome_bind].
  destruct (toLocaleString (instant_source chart) _) as [local|] eqn:Hlocal;
    [|done].
  cbn [mbind Outcome_bind].
  destruct (getLocationData chart) as [loc|[]]; [|done].
  cbn [lift_res mbind Outcome_bind].
  fold (rationale_entries chart).
  replace (truthy match includeVerdict with
                  | VUndefined => VBool true
                  | _ => includeVerdict
                  end)
    with (verdict_requested includeVerdict) by by destruct includeVerdict.
  destruct (verdict_requested includeVerdict).
  2:{ intros [= <-]. payload_fields. by repeat split. }
  destruct (as_array (rationale_entries chart)) as [entries|[]] eqn:Harr;
    [|done].
  cbn [mbind Res_bind].
  destruct (filterJ is_key_testimony entries) as [kept|[]] eqn:Hkept; [|done].
  cbn [mbind Res_bind].
  destruct (mapJ render (take 5 kept)) as [ks|[]] eqn:Hks; [|done].
  cbn [lift_res mbind Outcome_bind Res_bind mret Res_ret Outcome_ret].
  intros [= <-]. payload_fields.
  repeat split; try done.
  exists entries, kept, ks.
  destruct (rationale_entries chart); try done.
  by injection Harr as ->.
Qed.

Lemma getLocationData_nullish chart r :
  getLocationData chart = Ok r → nullish chart = false.
Proof. by destruct chart. Qed.

(** The run without a verdict. *)
Lemma build_plain chart includeVerdict utc local loc :
  verdict_requested includeVerdict = false →
  toISOString (instant_source chart) = Done utc →
  toLocaleString (instant_source chart)
    (or_else (path chart ["chart_data"; "timezone_info"; "timezone"])
       (str "UTC")) = Done local →
  getLocationData chart = Ok loc →
  build chart includeVerdict
  = Done {| id := field chart "id";
            question := field chart "question";
            category :=
              or_else (first_item (field chart "tags")) (str "general");
            asked_at_local := local;
            asked_at_utc := utc;
            tz := or_else
                    (path chart ["chart_data"; "timezone_info"; "timezone"])
                    (str "UTC");
            location := loc;
            house_system := str "Regiomontanus";
            houses :=
              or_else (path chart ["chart_data"; "houses"]) (VObject ∅);
            rulers :=
              or_else (path chart ["chart_data"; "rulers"]) (VObject ∅);
            aspects :=
              or_else (path chart ["chart_data"; "aspects"]) (VArray []);
            planets :=
              or_else (path chart ["chart_data"; "planets"]) (VObject ∅);
            traditional_factors :=
              or_else (field chart "traditional_factors") (VObject ∅);
            solar_factors :=
              or_else (field chart "solar_factors") (VObject ∅);
            reasoning :=
              or_else (or_else (field chart "ledger") VNull)
                (rationale_entries chart);
            ledger := if truthy (or_else (field chart "ledger") VNull)
                      then Some (or_else (field chart "ledger") VNull)
                      else None;
            verdict := None;
            key_testimonies := None;
            keyTestimoniesText := None |}.
Proof.
  intros Hiv Hutc Hlocal Hloc.
  unfold buildChartPayload. rewrite instant_read.
  rewrite (getLocationData_nullish _ _ Hloc).
  cbn [mbind Outcome_bind]. rewrite Hutc. cbn [mbind Outcome_bind].
  rewrite Hlocal. cbn [mbind Outcome_bind]. rewrite Hloc.
  cbn [lift_res mbind Outcome_bind].
  replace (truthy match includeVerdict with
                  | VUndefined => VBool true
                  | _ => includeVerdict
                  end)
    with (verdict_requested includeVerdict) by by destruct includeVerdict.
  by rewrite Hiv.
Qed.

(** The run with a verdict, on a rationale of texts. *)
Lemma build_texts chart includeVerdict utc local loc entries :
  verdict_requested includeVerdict = true →
  toISOString (instant_source chart) = Done utc →
  toLocaleString (instant_source chart)
    (or_else (path chart ["chart_data"; "timezone_info"; "timezone"])
       (str "UTC")) = Done local →
  getLocationData chart = Ok loc →
  rationale_entries chart = VArray entries →
  Forall (λ r, is_text r = true) entries →
  ∃ p, build chart includeVerdict = Done p.
Proof.
  intros Hiv Hutc Hlocal Hloc Hentries Htexts.
  destruct (filterJ_total is_key_testimony entries) as [kept Hkept].
  { eapply Forall_impl; [exact Htexts|]. intros [] ?; try done.
    apply is_key_testimony_text. }
  assert (Forall (λ r, is_text r = true) (take 5 kept)) as Hkept_texts.
  { apply Forall_forall. intros x Hx.
    apply elem_of_take in Hx as (i & Hx & _).
    apply list_elem_of_lookup_2 in Hx.
    apply (filterJ_inv _ _ _ Hkept) in Hx as [Hx _].
    by apply (proj1 (Forall_forall _ _) Htexts). }
  destruct (mapJ_total render (take 5 kept)) as [ks Hks].
  { eapply Forall_impl; [exact Hkept_texts|]. intros [] ?; try done.
    destruct (testimony_text s) as [t Ht]. by eexists. }
  unfold buildChartPayload. rewrite instant_read.
  rewrite (getLocationData_nullish _ _ Hloc).
  cbn [mbind Outcome_bind]. rewrite Hutc. cbn [mbind Outcome_bind].
  rewrite Hlocal. cbn [mbind Outcome_bind]. rewrite Hloc.
  cbn [lift_res mbind Outcome_bind].
  replace (truthy match includeVerdict with
                  | VUndefined => VBool true
                  | _ => includeVerdict
                  end)
    with (verdict_requested includeVerdict) by by destruct includeVerdict.
  rewrite Hiv. fold (rationale_entries chart). rewrite Hentries.
  cbn [as_array mbind Res_bind]. rewrite Hkept. cbn [mbind Res_bind].
  rewrite Hks. cbn [lift_res mbind Outcome_bind Res_bind mret Res_ret].
  by eexists.
Qed.

(** X12.  When the verdict is asked for (the second argument is omitted or
    truthy), a returned payload carries at most five key testimonies, never
    more than there are rationale entries; each one is the bullet prefix
    followed by the text of the cleaned form of a rationale entry that
    mentions one of the five key words, and [keyTestimoniesText] is their
    concatenation with a line feed in between.  When the verdict is not
    asked for, none of the three verdict keys is set. *)
Theorem payload_key_testimonies (chart includeVerdict : Value) (p : Payload) :
  build chart includeVerdict = Done p →
  if verdict_requested includeVerdict
  then ∃ entries ks,
      rationale_entries chart = VArray entries
      ∧ key_testimonies p = Some ks
      ∧ keyTestimoniesText p = Some (join [10] ks)
      ∧ (length ks ≤ 5)%nat
      ∧ (length ks ≤ length entries)%nat
      ∧ ∀ k, k ∈ ks →
          ∃ r t, r ∈ entries
                 ∧ is_key_testimony r = Ok true
                 ∧ to_string number_to_string (cleanMoonText r) = Ok t
                 ∧ k = bullet ++ t
  else verdict p = None ∧ key_testimonies p = None
       ∧ keyTestimoniesText p = None.
Proof.
  intros Hp. apply build_inv in Hp as (_ & _ & _ & _ & _ & Hv).
  destruct (verdict_requested includeVerdict); [|done].
  destruct Hv as (entries & kept & ks & He & Hkept & Hks & _ & Hkt & Htext).
  exists entries, ks. repeat split; try done.
  - apply mapJ_inv, Forall2_length in Hks. rewrite <- Hks, length_take. lia.
  - apply mapJ_inv, Forall2_length in Hks.
    apply filterJ_inv in Hkept as (_ & Hlen & _).
    rewrite <- Hks, length_take. lia.
  - intros k Hk. apply mapJ_inv in Hks.
    apply list_elem_of_lookup in Hk as [i Hk].
    destruct (Forall2_lookup_r _ _ _ _ _ Hks Hk) as (r & Hr & Hrk).
    apply testimony_inv in Hrk as (t & Ht & ->).
    apply lookup_take_Some in Hr as [Hr _].
    apply list_elem_of_lookup_2 in Hr.
    apply (filterJ_inv _ _ _ Hkept) in Hr as [Hr Hkey].
    by exists r, t.
Qed.

(** X13.  Asking for the verdict only adds the three verdict keys: whenever
    a payload is returned, the call on the same chart without the verdict
    returns the same payload with those three keys left out. *)
Theorem payload_verdict_only_adds (chart includeVerdict other : Value)
    (p : Payload) :
  build chart includeVerdict = Done p →
  verdict_requested other = false →
  build chart other = Done (strip_verdict p).
Proof.
  intros Hp Hother.
  apply build_inv in Hp as (_ & Hutc & Hlocal & Hloc & Hbase & _).
  pose proof (f_equal tz Hbase) as Htz. cbn [tz strip_verdict] in Htz.
  rewrite Htz in Hlocal. rewrite Hbase. by apply build_plain.
Qed.

(** X14.  The location of a returned payload is the record the resolver
    returns for the chart; its city is neither null nor undefined, its
    country is truthy, and the payload's time zone is truthy as well. *)
Theorem payload_location_complete (chart includeVerdict : Value)
    (p : Payload) :
  build chart includeVerdict = Done p →
  getLocationData chart = Ok (location p)
  ∧ present (city (location p))
  ∧ truthy (country (location p)) = true
  ∧ truthy (tz p) = true.
Proof.
  intros Hp. apply build_inv in Hp as (_ & _ & _ & Hloc & Hbase & _).
  destruct (getLocationData_fields_set _ _ Hloc) as (Hcity & Hcountry & _).
  repeat split; try done.
  change (tz p) with (tz (strip_verdict p)). rewrite Hbase.
  by apply truthy_or_else.
Qed.

(** X15.  The keys of a returned payload that have a default are never
    falsy: category, house system, houses, rulers, aspects, planets, the
    two factor tables and the reasoning.  The reasoning is the ledger when
    that is truthy, and the ledger key is set in exactly that case. *)
Theorem payload_defaults_truthy (chart includeVerdict : Value) (p : Payload) :
  build chart includeVerdict = Done p →
  truthy (category p) = true
  ∧ truthy (house_system p) = true
  ∧ truthy (houses p) = true
  ∧ truthy (rulers p) = true
  ∧ truthy (aspects p) = true
  ∧ truthy (planets p) = true
  ∧ truthy (traditional_factors p) = true
  ∧ truthy (solar_factors p) = true
  ∧ truthy (reasoning p) = true
  ∧ (if truthy (field chart "ledger")
     then ledger p = Some (field chart "ledger")
          ∧ reasoning p = field chart "ledger"
     else ledger p = None ∧ reasoning p = rationale_entries chart).
Proof.
  intros Hp. apply build_inv in Hp as (_ & _ & _ & _ & Hbase & _).
  change (category p) with (category (strip_verdict p)).
  change (house_system p) with (house_system (strip_verdict p)).
  change (houses p) with (houses (strip_verdict p)).
  change (rulers p) with (rulers (strip_verdict p)).
  change (aspects p) with (aspects (strip_verdict p)).
  change (planets p) with (planets (strip_verdict p)).
  change (traditional_factors p) with (traditional_factors (strip_verdict p)).
  change (solar_factors p) with (solar_factors (strip_verdict p)).
  change (reasoning p) with (reasoning (strip_verdict p)).
  change (ledger p) with (ledger (strip_verdict p)).
  rewrite Hbase. payload_fields.
  repeat split; try (by apply truthy_or_else).
  - by apply truthy_or_else, truthy_or_else.
  - destruct (truthy (field chart "ledger")) eqn:Hl.
    + unfold or_else at 1 2 3 4. by rewrite !Hl.
    + unfold or_else at 1 2 3 4. by rewrite !Hl.
Qed.

(** X16.  Without the verdict the builder returns a payload exactly when
    the two renderings of the date succeed and the resolver returns:
    nothing else in the chart, the rationale included, can make it
    fail. *)
Theorem payload_returns_iff (chart includeVerdict : Value) :
  verdict_requested includeVerdict = false →
  (∃ p, build chart includeVerdict = Done p)
  ↔ (∃ utc, toISOString (instant_source chart) = Done utc)
    ∧ (∃ local,
          toLocaleString (instant_source chart)
            (or_else (path chart ["chart_data"; "timezone_info"; "timezone"])
               (str "UTC")) = Done local)
    ∧ (∃ loc, getLocationData chart = Ok loc).
Proof.
  intros Hiv. split.
  - intros [p Hp].
    apply build_inv in Hp as (_ & Hutc & Hlocal & Hloc & Hbase & _).
    pose proof (f_equal tz Hbase) as Htz. cbn [tz strip_verdict] in Htz.
    rewrite Htz in Hlocal. repeat split; eauto.
  - intros ([utc Hutc] & [local Hlocal] & [loc Hloc]).
    eexists. by apply build_plain.
Qed.

(** X17.  With the verdict, a payload is only returned when the rationale
    (or, when that is falsy, the reasoning) is an array whose entries are
    all strings or arrays; the verdict then carries the chart's judgment
    and confidence and the cleaned form of every entry, in order. *)
Theorem payload_verdict_entries (chart includeVerdict : Value) (p : Payload) :
  build chart includeVerdict = Done p →
  verdict_requested includeVerdict = true →
  ∃ entries,
    rationale_entries chart = VArray entries
    ∧ Forall (λ r, is_text r || is_list r = true) entries
    ∧ verdict p = Some {| label := field chart "judgment";
                          confidence := field chart "confidence";
                          rationale := map cleanMoonText entries |}.
Proof.
  intros Hp Hiv. apply build_inv in Hp as (_ & _ & _ & _ & _ & Hv).
  rewrite Hiv in Hv.
  destruct Hv as (entries & kept & ks & He & Hkept & _ & Hverdict & _).
  exists entries. repeat split; try done.
  apply filterJ_inv in Hkept as [Hall _].
  eapply Forall_impl; [exact Hall|]. intros r [b Hb].
  by eapply is_key_testimony_inv.
Qed.

(** X18.  When the two renderings of the date succeed, the resolver
    returns and the rationale is an array of strings, the builder returns
    a payload, with or without the verdict. *)
Theorem payload_returns_on_text_rationale (chart includeVerdict : Value)
    (utc local : jsstring) (loc : ResolvedLocation) (entries : list Value) :
  toISOString (instant_source chart) = Done utc →
  toLocaleString (instant_source chart)
    (or_else (path chart ["chart_data"; "timezone_info"; "timezone"])
       (str "UTC")) = Done local →
  getLocationData chart = Ok loc →
  rationale_entries chart = VArray entries →
  Forall (λ r, is_text r = true) entries →
  ∃ p, build chart includeVerdict = Done p.
Proof.
  intros Hutc Hlocal Hloc Hentries Htexts.
  destruct (verdict_requested includeVerdict) eqn:Hiv.
  - by eapply build_texts.
  - eexists. by apply build_plain.
Qed.

(** X19.  On a chart that is null or undefined the builder raises a
    TypeError before any date is rendered, whatever the runtime would make
    of the date. *)
Theorem payload_missing_chart (chart includeVerdict : Value) :
  nullish chart = true →
  build chart includeVerdict = Raised TypeErrorRaised.
Proof.
  intros Hchart. unfold buildChartPayload.
  rewrite instant_read, Hchart. reflexivity.
Qed.

(** X20.  With the verdict, one rationale entry that is neither a string
    nor an array makes the builder raise a TypeError, wherever the entry
    stands in the list, once the dates are rendered and the location is
    resolved. *)
Theorem payload_bad_entry_raises (chart includeVerdict : Value)
    (utc local : jsstring) (loc : ResolvedLocation) (entries : list Value)
    (r : Value) :
  verdict_requested includeVerdict = true →
  toISOString (instant_source chart) = Done utc →
  toLocaleString (instant_source chart)
    (or_else (path chart ["chart_data"; "timezone_info"; "timezone"])
       (str "UTC")) = Done local →
  getLocationData chart = Ok loc →
  rationale_entries chart = VArray entries →
  r ∈ entries →
  is_text r || is_list r = false →
  build chart includeVerdict = Raised TypeErrorRaised.
Proof.
  intros Hiv Hutc Hlocal Hloc Hentries Hr Hbad.
  assert (filterJ is_key_testimony entries = Throw TypeError) as Hkept.
  { destruct (filterJ is_key_testimony entries) as [kept|[]] eqn:Hkept;
      [|done].
    apply filterJ_inv in Hkept as [Hall _].
    destruct (proj1 (Forall_forall _ _) Hall r Hr) as [b Hb].
    apply is_key_testimony_inv in Hb. congruence. }
  unfold buildChartPayload. rewrite instant_read.
  rewrite (getLocationData_nullish _ _ Hloc).
  cbn [mbind Outcome_bind]. rewrite Hutc. cbn [mbind Outcome_bind].
  rewrite Hlocal. cbn [mbind Outcome_bind]. rewrite Hloc.
  cbn [lift_res mbind Outcome_bind].
  replace (truthy match includeVerdict with
                  | VUndefined => VBool true
                  | _ => includeVerdict
                  end)
    with (verdict_requested includeVerdict) by by destruct includeVerdict.
  rewrite Hiv. fold (rationale_entries chart). rewrite Hentries.
  cbn [as_array mbind Res_bind]. rewrite Hkept. reflexivity.
Qed.

(** X9.  On a chart that is not an object the builder never returns a
    payload, so that the defaults of the resolver are not seen for such a
    chart: on [null] and [undefined] it raises a TypeError, and on every
    other value (a number, a string, a boolean, an array) there is no
    [utc_time] and no [timestamp] to read, and it raises whatever the
    rendering of the date of [undefined] raises. *)
Theorem payload_on_non_object (chart includeVerdict : Value) (e : Exception) :
  (∀ o, chart ≠ VObject o) →
  toISOString VUndefined = Raised e →
  build chart includeVerdict
  = Raised (if nullish chart then TypeErrorRaised else e).
Proof.
  intros Hchart Hdate. unfold buildChartPayload. rewrite instant_read.
  destruct chart as [| |b|n|s|o|a]; try reflexivity;
    try (by destruct (Hchart o));
    change (instant_source _) with VUndefined;
    cbn [nullish mbind Outcome_bind]; by rewrite Hdate.
Qed.

End PayloadFacts.

Lemma payload_key_testimonies_witness :
  ∃ p,
    buildChartPayload noon_iso noon_local (λ _, js "0") paris_chart VUndefined
    = Done p
    ∧ ∃ entries ks,
        rationale_entries paris_chart = VArray entries
        ∧ key_testimonies p = Some ks
        ∧ keyTestimoniesText p = Some (join [10] ks)
        ∧ (length ks ≤ 5)%nat
        ∧ (length ks ≤ length entries)%nat
        ∧ ∀ k, k ∈ ks →
            ∃ r t, r ∈ entries
                   ∧ is_key_testimony r = Ok true
                   ∧ to_string (λ _, js "0") (cleanMoonText r) = Ok t
                   ∧ k = bullet ++ t.
Proof.
  eexists. split; [vm_compute; reflexivity|].
  apply (payload_key_testimonies noon_iso noon_local (λ _, js "0")
           paris_chart VUndefined).
  vm_compute. reflexivity.
Defined.

Lemma payload_verdict_only_adds_witness :
  ∃ p,
    buildChartPayload noon_iso noon_local (λ _, js "0") paris_chart VUndefined
    = Done p
    ∧ buildChartPayload noon_iso noon_local (λ _, js "0") paris_chart
        (VBool false)
      = Done (strip_verdict p).
Proof.
  eexists. split; [vm_compute; reflexivity|].
  apply (payload_verdict_only_adds noon_iso noon_local (λ _, js "0")
           paris_chart VUndefined (VBool false)).
  - vm_compute. reflexivity.
  - reflexivity.
Defined.

Lemma payload_location_complete_witness :
  ∃ p,
    buildChartPayload noon_iso noon_local (λ _, js "0") paris_chart VUndefined
    = Done p
    ∧ getLocationData paris_chart = Ok (location p)
    ∧ present (city (location p))
    ∧ truthy (country (location p)) = true
    ∧ truthy (tz p) = true.
Proof.
  eexists. split; [vm_compute; reflexivity|].
  apply (payload_location_complete noon_iso noon_local (λ _, js "0")
           paris_chart VUndefined).
  vm_compute. reflexivity.
Defined.

Lemma payload_defaults_truthy_witness :
  ∃ p,
    buildChartPayload noon_iso noon_local (λ _, js "0") paris_chart VUndefined
    = Done p
    ∧ truthy (category p) = true
    ∧ truthy (house_system p) = true
    ∧ truthy (houses p) = true
    ∧ truthy (rulers p) = true
    ∧ truthy (aspects p) = true
    ∧ truthy (planets p) = true
    ∧ truthy (traditional_factors p) = true
    ∧ truthy (solar_factors p) = true
    ∧ truthy (reasoning p) = true
    ∧ ledger p = None ∧ reasoning p = rationale_entries paris_chart.
Proof.
  eexists. split; [vm_compute; reflexivity|].
  apply (payload_defaults_truthy noon_iso noon_local (λ _, js "0")
           paris_chart VUndefined).
  vm_compute. reflexivity.
Defined.

Lemma payload_returns_iff_witness :
  (∃ p, buildChartPayload noon_iso noon_local (λ _, js "0") paris_chart
          (VBool false) = Done p)
  ↔ (∃ utc, noon_iso (instant_source paris_chart) = Done utc)
    ∧ (∃ local,
          noon_local (instant_source paris_chart)
            (or_else
               (path paris_chart ["chart_data"; "timezone_info"; "timezone"])
               (str "UTC")) = Done local)
    ∧ (∃ loc, getLocationData paris_chart = Ok loc).
Proof.
  apply (payload_returns_iff noon_iso noon_local (λ _, js "0") paris_chart
           (VBool false)).
  reflexivity.
Defined.

Lemma payload_verdict_entries_witness :
  ∃ p,
    buildChartPayload noon_iso noon_local (λ _, js "0") paris_chart VUndefined
    = Done p
    ∧ ∃ entries,
        rationale_entries paris_chart = VArray entries
        ∧ Forall (λ r, is_text r || is_list r = true) entries
        ∧ verdict p = Some {| label := field paris_chart "judgment";
                              confidence := field paris_chart "confidence";
                              rationale := map cleanMoonText entries |}.
Proof.
  eexists. split; [vm_compute; reflexivity|].
  apply (payload_verdict_entries noon_iso noon_local (λ _, js "0")
           paris_chart VUndefined).
  - vm_compute. reflexivity.
  - reflexivity.
Defined.

Lemma payload_returns_on_text_rationale_witness :
  ∃ p,
    buildChartPayload noon_iso noon_local (λ _, js "0") paris_chart VUndefined
    = Done p.
Proof.
  eapply (payload_returns_on_text_rationale noon_iso noon_local (λ _, js "0")
            paris_chart VUndefined).
  - vm_compute. reflexivity.
  - vm_compute. reflexivity.
  - vm_compute. reflexivity.
  - vm_compute. reflexivity.
  - repeat constructor.
Defined.

Lemma payload_missing_chart_witness :
  buildChartPayload noon_iso noon_local (λ _, js "0") VNull VUndefined
  = Raised TypeErrorRaised.
Proof.
  apply (payload_missing_chart noon_iso noon_local (λ _, js "0") VNull
           VUndefined).
  reflexivity.
Defined.

Lemma payload_bad_entry_raises_witness :
  buildChartPayload noon_iso noon_local (λ _, js "0") paris_chart_with_number
    VUndefined
  = Raised TypeErrorRaised.
Proof.
  eapply (payload_bad_entry_raises noon_iso noon_local (λ _, js "0")
            paris_chart_with_number VUndefined _ _ _
            [str "Moon  applying to Venus (+2)"; VNumber (Fin 3)]
            (VNumber (Fin 3))).
  - reflexivity.
  - vm_compute. reflexivity.
  - vm_compute. reflexivity.
  - vm_compute. reflexivity.
  - vm_compute. reflexivity.
  - apply elem_of_cons. right. apply elem_of_cons. by left.
  - reflexivity.
Defined.

Lemma payload_on_non_object_witness :
  buildChartPayload noon_iso noon_local (λ _, js "0") (VArray [str "Paris"])
    VUndefined
  = Raised RangeErrorRaised.
Proof.
  apply (payload_on_non_object noon_iso noon_local (λ _, js "0")
           (VArray [str "Paris"]) VUndefined RangeErrorRaised).
  - intros o. discriminate.
  - reflexivity.
Defined.
